(** * IPC legal chatbot: corpus loading and hybrid retrieval

    A shallow embedding of [src/data_processing.py], [src/config.py],
    [src/rag_pipeline.py] and the [main] of [app.py], with the properties
    of the loader, the retrieval orchestrator, the answer generator, the
    initialisation and the application loop stated over it.

    Conventions.
    - A Python [str] is a list of characters.  A character is a code point
      in 0..255; case mapping, whitespace and digits are those Python
      gives to these code points.
    - Python [int] is [Z]; [None] is [option]'s [None].
    - Code that can raise runs in the [result] monad.
    - The models and services the code calls (JSON decoder, file system,
      embedding + vector index, cross-encoder) are [Section] variables. *)

From Stdlib Require Import QArith Ascii.
From stdpp Require Import gmap strings list sorting.

Set Warnings "-register-all,-clear-no-such-hyp".


(* ===================================================================== *)
(** * Python strings *)
(* ===================================================================== *)

Definition str := list ascii.

(** String literal. *)
Definition lit (s : string) : str := String.list_ascii_of_string s.
Global Arguments lit : simpl never.

Module Char.

Definition code (c : ascii) : N := N_of_ascii c.

Definition between (lo hi : N) (c : ascii) : bool :=
  (lo <=? code c)%N && (code c <=? hi)%N.

(** [\d] on code points below 256: the ASCII digits. *)
Definition is_digit (c : ascii) : bool := between 48 57 c.

(** [\s] and [str.isspace]: TAB..CR, FS..US, space, NEL, NBSP. *)
Definition is_space (c : ascii) : bool :=
  between 9 13 c || between 28 32 c
  || (code c =? 133)%N || (code c =? 160)%N.

(** [str.lower] on one character: A-Z and the Latin-1 capitals
    (all of 192..222 but the multiplication sign 215). *)
Definition lower (c : ascii) : ascii :=
  if between 65 90 c
     || (between 192 222 c && negb (code c =? 215)%N)
  then ascii_of_N (code c + 32) else c.

(** [str.upper] on one character, exact on ASCII; it is only applied to
    text matched by [IPC \s* \d+ [A-Z]*], which holds ASCII letters, digits
    and whitespace. *)
Definition upper (c : ascii) : ascii :=
  if between 97 122 c then ascii_of_N (code c - 32) else c.

Definition digit_value (c : ascii) : Z := Z.of_N (code c) - 48.

End Char.

Definition lower (s : str) : str := Char.lower <$> s.
Definition upper (s : str) : str := Char.upper <$> s.

(** The number a string of decimal digits stands for. *)
Definition int_of (s : str) : Z :=
  fold_left (fun acc c => 10 * acc + Char.digit_value c)%Z s 0%Z.

(** [s.startswith(p)] *)
Fixpoint startswith (s p : str) {struct p} : bool :=
  match p, s with
  | [], _ => true
  | a :: p', b :: s' => bool_decide (a = b) && startswith s' p'
  | _ :: _, [] => false
  end.

(** [sub in s] *)
Fixpoint contains (sub s : str) : bool :=
  startswith s sub ||
  match s with
  | [] => false
  | _ :: s' => contains sub s'
  end.

Fixpoint lstrip (s : str) : str :=
  match s with
  | c :: s' => if Char.is_space c then lstrip s' else s
  | [] => []
  end.

Definition rstrip (s : str) : str := rev (lstrip (rev s)).

(** [s.strip()] *)
Definition strip (s : str) : str := rstrip (lstrip s).

(** [s.split(sep, 1)] for a non-empty [sep]: cut at the first occurrence
    of [sep], or the whole string in a one-element list. *)
Fixpoint find_sep (sep s : str) : option (str * str) :=
  if startswith s sep then Some ([], drop (length sep) s)
  else match s with
       | [] => None
       | c :: s' =>
           match find_sep sep s' with
           | Some (before, after) => Some (c :: before, after)
           | None => None
           end
       end.

Definition split1 (sep s : str) : list str :=
  match find_sep sep s with
  | Some (before, after) => [before; after]
  | None => [s]
  end.

(* ===================================================================== *)
(** * Exceptions *)
(* ===================================================================== *)

(** The exceptions of the program.  [LibraryError] stands for whatever a
    call of the embedding model, the vector index or the cross-encoder
    raises. *)
Inductive exn :=
| FileNotFoundError
| PermissionError
| IsADirectoryError
| UnicodeDecodeError
| JSONDecodeError
| RecursionError
| AttributeError
| IndexError
| ValueError
| LibraryError.

Global Instance exn_eq_dec : EqDecision exn.
Proof. solve_decision. Defined.

Inductive result (A : Type) :=
| Ok (a : A)
| Raise (e : exn).
Arguments Ok {A} a.
Arguments Raise {A} e.

(** The error monad, through stdpp's [x ← m; k] notation. *)
Global Instance result_ret : MRet result := fun A a => Ok a.
Global Instance result_bind : MBind result := fun A B f m =>
  match m with
  | Ok a => f a
  | Raise e => Raise e
  end.

(** The number of digits [int] accepts: the interpreter's default for
    [sys.set_int_max_str_digits]. *)
Definition int_max_str_digits : nat := 4300.

(** [int(s)] for a string of decimal digits (the only use in the source
    is on text captured by [\d+]): [ValueError] when the string has more
    digits than the interpreter accepts, leading zeros included. *)
Definition py_int (s : str) : result Z :=
  if length s <=? int_max_str_digits then Ok (int_of s)
  else Raise ValueError.

(** [[int(x) for x in texts]]: the first conversion that fails raises. *)
Fixpoint py_ints (texts : list str) : result (list Z) :=
  match texts with
  | [] => mret []
  | t :: rest =>
      n ← py_int t;
      ns ← py_ints rest;
      mret (n :: ns)
  end.

(** [l[i]] on a Python list: negative indices count from the end, anything
    outside raises [IndexError]. *)
Definition py_index {A} (l : list A) (i : Z) : result A :=
  let n := Z.of_nat (length l) in
  let j := if (i <? 0)%Z then (n + i)%Z else i in
  if ((0 <=? j) && (j <? n))%Z
  then match l !! Z.to_nat j with
       | Some x => Ok x
       | None => Raise IndexError
       end
  else Raise IndexError.

(** [l[:k]] *)
Definition py_take {A} (l : list A) (k : Z) : list A :=
  if (0 <=? k)%Z then take (Z.to_nat k) l
  else take (length l - Z.to_nat (- k)) l.

(* ===================================================================== *)
(** * The regular expressions of the source *)
(* ===================================================================== *)

(** Only the constructs the five patterns of the program use: literals,
    [\d], [\s], [.], [[A-Z]], greedy [*] and [+] on a character class,
    sequence, alternation, greedy [?], capturing groups.  Matching is
    Python's: backtracking, leftmost alternative first, greedy first. *)
Module Re.

Inductive cclass :=
| CLit (c : ascii)
| CDigit
| CSpace
| CDot
| CRange (lo hi : ascii).

Inductive regex :=
| Eps
| Chr (c : cclass)
| Star (c : cclass)
| Plus (c : cclass)
| Seq (r1 r2 : regex)
| Alt (r1 r2 : regex)
| Opt (r : regex)
| Group (i : nat) (r : regex).

(** A literal string as a sequence of literal characters. *)
Definition str_re (s : str) : regex :=
  foldr (fun c r => Seq (Chr (CLit c)) r) Eps s.

Definition in_range (lo hi c : ascii) : bool :=
  Char.between (Char.code lo) (Char.code hi) c.

(** One character against a class; [ic] is [re.IGNORECASE]. *)
Definition cmatch (ic : bool) (cl : cclass) (x : ascii) : bool :=
  match cl with
  | CLit c =>
      if ic then bool_decide (Char.lower x = Char.lower c)
      else bool_decide (x = c)
  | CDigit => Char.is_digit x
  | CSpace => Char.is_space x
  | CDot => negb (bool_decide (x = "010"%char))
  | CRange lo hi =>
      in_range lo hi x
      || (ic && (in_range lo hi (Char.lower x)
                 || in_range lo hi (Char.upper x)))
  end.

(** Captured groups, latest first. *)
Definition caps := list (nat * str).

Section Backtrack.
Context {R : Type}.

(** Greedy repetition of a class: longest run first, then shorter. *)
Fixpoint star (p : ascii -> bool) (s : str) (k : str -> option R)
  : option R :=
  match s with
  | c :: s' =>
      if p c then
        match star p s' k with
        | Some x => Some x
        | None => k s
        end
      else k s
  | [] => k s
  end.

(** [bt ic r s cs k]: match [r] at the head of [s]; the continuation
    receives what is left of [s] and the groups so far, and its
    failure makes the matcher try its next choice. *)
Fixpoint bt (ic : bool) (r : regex) (s : str) (cs : caps)
    (k : str -> caps -> option R) : option R :=
  match r with
  | Eps => k s cs
  | Chr c =>
      match s with
      | x :: s' => if cmatch ic c x then k s' cs else None
      | [] => None
      end
  | Star c => star (cmatch ic c) s (fun s' => k s' cs)
  | Plus c =>
      match s with
      | x :: s' =>
          if cmatch ic c x
          then star (cmatch ic c) s' (fun s'' => k s'' cs)
          else None
      | [] => None
      end
  | Seq r1 r2 => bt ic r1 s cs (fun s' cs' => bt ic r2 s' cs' k)
  | Alt r1 r2 =>
      match bt ic r1 s cs k with
      | Some x => Some x
      | None => bt ic r2 s cs k
      end
  | Opt r1 =>
      match bt ic r1 s cs k with
      | Some x => Some x
      | None => k s cs
      end
  | Group i r1 =>
      bt ic r1 s cs
        (fun s' cs' => k s' ((i, take (length s - length s') s) :: cs'))
  end.
End Backtrack.

(** A match at the head of [s]: its length and groups. *)
Definition match_here (ic : bool) (r : regex) (s : str)
  : option (nat * caps) :=
  bt ic r s [] (fun s' cs => Some (length s - length s', cs)).

(** Match object. *)
Record t := mk { start : nat; text : str; groups : caps }.

(** [m.group(0)] *)
Definition group0 (m : t) : str := text m.

(** [m.group(i)], [i >= 1].  Every group the program reads lies on every
    path through its pattern, so it has always taken part. *)
Definition group (i : nat) (m : t) : str :=
  match list_find (fun p => bool_decide (fst p = i)) (groups m) with
  | Some (_, (_, g)) => g
  | None => []
  end.

(** [re.search]: the first position with a match. *)
Fixpoint search_from (ic : bool) (r : regex) (pos : nat) (s : str)
  : option t :=
  match match_here ic r s with
  | Some (len, cs) => Some (mk pos (take len s) cs)
  | None =>
      match s with
      | [] => None
      | _ :: s' => search_from ic r (S pos) s'
      end
  end.

Definition search (ic : bool) (r : regex) (s : str) : option t :=
  search_from ic r 0 s.

(** [re.findall]: successive non-overlapping matches, left to right.
    [skip] counts the characters still covered by the last match.  (No
    pattern of the program matches the empty string.) *)
Fixpoint findall_from (ic : bool) (r : regex) (skip : nat) (s : str)
  : list caps :=
  match skip with
  | S n =>
      match s with
      | [] => []
      | _ :: s' => findall_from ic r n s'
      end
  | O =>
      match match_here ic r s with
      | Some (len, cs) =>
          cs :: match s with
                | [] => []
                | _ :: s' => findall_from ic r (len - 1) s'
                end
      | None =>
          match s with
          | [] => []
          | _ :: s' => findall_from ic r 0 s'
          end
      end
  end.

Definition findall (ic : bool) (r : regex) (s : str) : list caps :=
  findall_from ic r 0 s.

Definition cap (i : nat) (cs : caps) : str := group i (mk 0 [] cs).

End Re.

(** [r1 r2 ... rn] *)
Definition cat (rs : list Re.regex) : Re.regex := foldr Re.Seq Re.Eps rs.

(* ===================================================================== *)
(** * data_processing.py *)
(* ===================================================================== *)

(** [Punishment: \s* ( .* )]  (patterns are spelled with blanks between
    their tokens) *)
Definition punishment_re : Re.regex :=
  cat [Re.str_re (lit "Punishment:"); Re.Star Re.CSpace;
       Re.Group 1 (Re.Star Re.CDot)].

(** [(?: years | year )] *)
Definition year_unit_re : Re.regex :=
  Re.Alt (Re.str_re (lit "years")) (Re.str_re (lit "year")).

(** [( \d+ ) \s* (?: to | - ) \s* ( \d+ ) \s* (?: years | year )] *)
Definition year_range_re : Re.regex :=
  cat [Re.Group 1 (Re.Plus Re.CDigit); Re.Star Re.CSpace;
       Re.Alt (Re.str_re (lit "to")) (Re.str_re (lit "-"));
       Re.Star Re.CSpace; Re.Group 2 (Re.Plus Re.CDigit);
       Re.Star Re.CSpace; year_unit_re].

(** [( \d+ ) \s* (?: years | year )] *)
Definition years_re : Re.regex :=
  cat [Re.Group 1 (Re.Plus Re.CDigit); Re.Star Re.CSpace; year_unit_re].

(** [IPC \s* ( \d+ [A-Z]* )] *)
Definition ipc_section_re : Re.regex :=
  cat [Re.str_re (lit "IPC"); Re.Star Re.CSpace;
       Re.Group 1 (cat [Re.Plus Re.CDigit; Re.Star (Re.CRange "A" "Z")])].

(** [max(x, *rest)] *)
Definition max_of (x : Z) (rest : list Z) : Z := fold_left Z.max rest x.

(** The text after the first "Punishment:" on its line, stripped; empty
    when there is none. *)
Definition punishment_text_of (text_description : str) : str :=
  match Re.search true punishment_re text_description with
  | Some m => strip (Re.group 1 m)
  | None => []
  end.

(** [re.findall] of the range pattern: one pair of strings per match. *)
Definition year_ranges_of (punishment_text : str) : list (str * str) :=
  (fun cs => (Re.cap 1 cs, Re.cap 2 cs))
    <$> Re.findall true year_range_re punishment_text.

(** [re.findall] of the single-duration pattern: one string per match. *)
Definition year_matches_of (punishment_text : str) : list str :=
  Re.cap 1 <$> Re.findall true years_re punishment_text.

(** [[yr for r in year_ranges for yr in r]] *)
Definition bound_texts (year_ranges : list (str * str)) : list str :=
  flat_map (fun r => [fst r; snd r]) year_ranges.

(** The years, or the [ValueError] of an [int] that refuses its digits
    ([max] of no number would raise it too), and the punishment text. *)
Definition parse_punishment_years (text_description : str)
  : result (option Z * str) :=
  let punishment_text := punishment_text_of text_description in
  let year_ranges := year_ranges_of punishment_text in
  years ← match year_ranges with
          | _ :: _ =>
              bounds ← py_ints (bound_texts year_ranges);
              match bounds with
              | b :: bs => mret (Some (max_of b bs))
              | [] => Raise ValueError
              end
          | [] =>
              match year_matches_of punishment_text with
              | y :: _ => year ← py_int y; mret (Some year)
              | [] => mret None
              end
          end;
  let years :=
    match years with
    | Some y => Some y
    | None =>
        if contains (lit "life") (lower punishment_text) then Some 999%Z
        else if contains (lit "death") (lower punishment_text)
             then Some 1000%Z
             else None
    end in
  mret (years, punishment_text).

(** One structured corpus record (a dict with these four keys). *)
Record ipc_record := mk_record {
  ipc_section_id : str;
  description_summary : str;
  punishment_years : option Z;
  original_text : str
}.

(** What [json.loads] can hand back. *)
Inductive pyval :=
| PStr (s : str)
| PNone
| PBool (b : bool)
| PNum (q : Q)
| PList (l : list pyval)
| PDict (d : gmap str pyval).

(** [entry.get('text', '')]: only a dict has [get]. *)
Definition entry_get_text (entry : pyval) : result pyval :=
  match entry with
  | PDict d => Ok (default (PStr []) (d !! lit "text"))
  | _ => Raise AttributeError
  end.

(** The receiver of [.lower()] must be a string. *)
Definition as_str (v : pyval) : result str :=
  match v with
  | PStr s => Ok s
  | _ => Raise AttributeError
  end.

(** The [description_summary] expression. *)
Definition summary_of (text_content : str) : result str :=
  if contains (lit "Punishment:") text_content then
    after ← py_index (split1 (lit ":") text_content) 1;
    before ← py_index (split1 (lit "Punishment:") after) 0;
    mret (strip before)
  else mret text_content.

Definition section_id_of (text_content : str) : str :=
  match Re.search true ipc_section_re text_content with
  | Some m => upper (Re.group0 m)
  | None => lit "UNKNOWN"
  end.

Inductive log_event :=
| Warning_invalid_json (line : str)
| Warning_parse_error (e : exn)
| Info_loaded (loaded skipped : nat)
| Error_not_found (file_path : str).

Record loader_state := mk_state {
  structured_data : list ipc_record;
  skipped_count : nat;
  warnings : list log_event
}.

Section Loader.

(** [json.loads]: the value, or the exception raised: [JSONDecodeError]
    for a line that is not JSON ([RecursionError] for one nested too
    deep). *)
Variable json_loads : str -> result pyval.

(** Reading the file at a path: the lines the loop receives, and the
    exception that ends the reading, if any.  [open] failing ends it
    before any line ([FileNotFoundError], [PermissionError],
    [IsADirectoryError]); a line that is not UTF-8 ends it later
    ([UnicodeDecodeError]). *)
Variable read_lines : str -> list str * option exn.

(** The body of the inner [try]: [Ok None] is the [continue] of a
    skipped entry, [Ok (Some r)] the appended record. *)
Definition parse_line (line : str) : result (option ipc_record) :=
  entry ← json_loads line;
  text_value ← entry_get_text entry;
  text_content ← as_str text_value;
  if contains (lit "nan") (lower text_content)
     || (length text_content <? 20)
  then mret None
  else
    let ipc_id := section_id_of text_content in
    '(years, _) ← parse_punishment_years text_content;
    summary ← summary_of text_content;
    mret (Some (mk_record ipc_id summary years text_content)).

(** One turn of the [for line in f] loop, with its two handlers. *)
Definition load_step (st : loader_state) (line : str) : loader_state :=
  match parse_line line with
  | Ok (Some r) =>
      mk_state (structured_data st ++ [r]) (skipped_count st) (warnings st)
  | Ok None =>
      mk_state (structured_data st) (S (skipped_count st)) (warnings st)
  | Raise JSONDecodeError =>
      mk_state (structured_data st) (skipped_count st)
               (warnings st ++ [Warning_invalid_json (strip line)])
  | Raise e =>
      mk_state (structured_data st) (skipped_count st)
               (warnings st ++ [Warning_parse_error e])
  end.

Definition load_loop (lines : list str) : loader_state :=
  fold_left load_step lines (mk_state [] 0 []).

(** The log written, and the value returned or the exception raised.
    The outer handler logs a [FileNotFoundError] and raises it again;
    any other exception leaves the function as it is. *)
Definition load_data_structured (file_path : str)
  : list log_event * result (list ipc_record) :=
  let '(lines, ending) := read_lines file_path in
  let st := load_loop lines in
  match ending with
  | None =>
      (warnings st
         ++ [Info_loaded (length (structured_data st)) (skipped_count st)],
       Ok (structured_data st))
  | Some e =>
      (warnings st
         ++ (if decide (e = FileNotFoundError)
             then [Error_not_found file_path] else []),
       Raise e)
  end.

End Loader.

(* ===================================================================== *)
(** * rag_pipeline.py: retrieve_relevant_ipc_hybrid *)
(* ===================================================================== *)

(** [greater than ( \d+ ) \s* (?: years | year )?] *)
Definition numeric_filter_re : Re.regex :=
  cat [Re.str_re (lit "greater than "); Re.Group 1 (Re.Plus Re.CDigit);
       Re.Star Re.CSpace; Re.Opt year_unit_re].

(** The match of the pattern in the query. *)
Definition punishment_years_filter_match (query : str) : option Re.t :=
  Re.search true numeric_filter_re query.

(** The threshold the query asks for, when the pattern is found; [int]
    raises when it refuses the digits. *)
Definition min_years_threshold (query : str) : result (option Z) :=
  match punishment_years_filter_match query with
  | Some m => threshold ← py_int (Re.group 1 m); mret (Some threshold)
  | None => mret None
  end.

(** [item["punishment_years"] is not None and
     item["punishment_years"] > min_years_threshold] *)
Definition exceeds (threshold : Z) (item : ipc_record) : bool :=
  match punishment_years item with
  | Some y => (threshold <? y)%Z
  | None => false
  end.

Definition filtered_by_condition (threshold : Z)
    (structured_ipc_data : list ipc_record) : list str :=
  original_text
    <$> filter (fun item => exceeds threshold item) structured_ipc_data.

(** [sorted(..., key=lambda x: x[1], reverse=True)]: a stable sort, so
    among equal scores the earlier pair stays first. *)
Fixpoint insert_desc (x : str * Q) (l : list (str * Q)) : list (str * Q) :=
  match l with
  | [] => [x]
  | y :: l' =>
      if Qle_bool (snd y) (snd x) then x :: y :: l'
      else y :: insert_desc x l'
  end.

Definition sorted_desc (l : list (str * Q)) : list (str * Q) :=
  foldr insert_desc [] l.

(** Messages shown to the user through [st]. *)
Inductive st_event :=
| St_info_filter (threshold : Z)
| St_warning_no_match.

(** The fixed size of the numeric path's answer. *)
Definition numeric_top : Z := 20.

(** Sort and cut, for scores at hand:
    [[doc for doc, score in sorted(zip(docs, scores), key=..., reverse=True)[:k]]] *)
Definition ranked (docs : list str) (rerank_scores : list Q) (k : Z)
  : list str :=
  let scored_documents := sorted_desc (zip docs rerank_scores) in
  fst <$> py_take scored_documents k.

Definition mentions_child (s : str) : bool :=
  contains (lit "child") (lower s) || contains (lit "minor") (lower s).

Section Retrieval.

(** [re_ranker_model.predict]: scores for a list of (query, document)
    pairs, or the exception the model raises. *)
Variable predict : list (str * str) -> result (list Q).

(** [indices[0]] of [faiss_index.search(embedding_model.encode([query]),
    k_initial)], or the exception the model or the index raises. *)
Variable search_index : str -> Z -> result (list Z).

(** The three lines both paths share: pair, score, sort, cut. *)
Definition rerank (query : str) (docs : list str) (k : Z)
  : result (list str) :=
  let sentence_pairs := (fun doc => (query, doc)) <$> docs in
  rerank_scores ← predict sentence_pairs;
  mret (ranked docs rerank_scores k).

(** Keyword matching. *)
Definition keyword_matches (query : str)
    (structured_ipc_data : list ipc_record) : list str :=
  if mentions_child query
  then original_text
         <$> filter (fun item => mentions_child (original_text item))
                    structured_ipc_data
  else [].

(** Exact IPC section match: the first metadata text with the prefix. *)
Definition retrieved_sections (query : str) (metadata : list str)
  : list str :=
  match Re.search true ipc_section_re query with
  | Some m =>
      let section_id_query := lit "IPC " ++ upper (Re.group 1 m) in
      match list_find
              (fun section_text =>
                 startswith (lower section_text) (lower section_id_query))
              metadata with
      | Some (_, section_text) => [section_text]
      | None => []
      end
  | None => []
  end.

(** Semantic search: the guarded [metadata[idx]] loop. *)
Fixpoint semantic_loop (metadata : list str) (indices : list Z)
    (semantic_matches : list str) : result (list str) :=
  match indices with
  | [] => mret semantic_matches
  | idx :: rest =>
      if ((0 <=? idx) && (idx <? Z.of_nat (length metadata)))%Z
      then doc ← py_index metadata idx;
           semantic_loop metadata rest (semantic_matches ++ [doc])
      else semantic_loop metadata rest semantic_matches
  end.

Definition semantic_matches (metadata : list str) (indices : list Z)
  : result (list str) :=
  semantic_loop metadata indices [].

(** The merge loop with its [seen] set. *)
Definition merge_step (acc : list str * gset str) (item : str)
  : list str * gset str :=
  let '(combined, seen) := acc in
  if decide (item ∈ seen) then (combined, seen)
  else (combined ++ [item], {[item]} ∪ seen).

Definition merge_dedup (keyword exact semantic : list str) : list str :=
  fst (fold_left merge_step (keyword ++ exact ++ semantic) ([], ∅)).

(** Everything below the numeric filter. *)
Definition hybrid_path (query : str)
    (structured_ipc_data : list ipc_record) (metadata : list str)
    (k_initial k_final : Z) : result (list str) :=
  let keyword := keyword_matches query structured_ipc_data in
  let exact := retrieved_sections query metadata in
  indices ← search_index query k_initial;
  semantic ← semantic_matches metadata indices;
  let combined_results_for_reranking :=
    merge_dedup keyword exact semantic in
  match combined_results_for_reranking with
  | [] => mret []
  | _ :: _ => rerank query combined_results_for_reranking k_final
  end.

(** The branch taken when the filter keeps something.  Its inner test
    on [sentence_pairs] is the source's. *)
Definition numeric_path (query : str) (filtered : list str)
  : result (list str) :=
  let sentence_pairs := (fun doc => (query, doc)) <$> filtered in
  match sentence_pairs with
  | _ :: _ => rerank query filtered numeric_top
  | [] => mret []
  end.

(** The messages shown and the list returned (or the exception). *)
Definition retrieve_relevant_ipc_hybrid (query : str)
    (structured_ipc_data : list ipc_record) (metadata : list str)
    (k_initial k_final : Z) : list st_event * result (list str) :=
  match min_years_threshold query with
  | Raise e => ([], Raise e)
  | Ok (Some threshold) =>
      match filtered_by_condition threshold structured_ipc_data with
      | (_ :: _) as filtered =>
          ([St_info_filter threshold], numeric_path query filtered)
      | [] =>
          ([St_info_filter threshold; St_warning_no_match],
           hybrid_path query structured_ipc_data metadata
                       k_initial k_final)
      end
  | Ok None =>
      ([], hybrid_path query structured_ipc_data metadata
                       k_initial k_final)
  end.

End Retrieval.

(* ===================================================================== *)
(** * Vocabulary of the properties *)
(* ===================================================================== *)

(** The numbers the bounds of the ranges stand for. *)
Definition range_bounds (year_ranges : list (str * str)) : list Z :=
  int_of <$> bound_texts year_ranges.

(** A string [int] reads: its digits are not more than the interpreter
    accepts. *)
Definition readable (ds : str) : Prop := length ds <= int_max_str_digits.

Global Instance readable_dec (ds : str) : Decision (readable ds).
Proof. unfold readable. apply _. Defined.

(** [desc a b]: the pair [a] may stand before [b] when scores descend. *)
Definition desc (a b : str * Q) : Prop := (snd b <= snd a)%Q.

(** [by_score score query a b]: document [a] scores at least as high as
    [b] against [query]. *)
Definition by_score (score : str * str -> Q) (query : str) (a b : str)
  : Prop :=
  (score (query, b) <= score (query, a))%Q.

(** [a] stands at an earlier position of [l] than [b]. *)
Definition earlier {A} (l : list A) (a b : A) : Prop :=
  exists i j, i < j /\ l !! i = Some a /\ l !! j = Some b.

(** The order a stable descending sort leaves between two pairs: higher
    score first, and among equal scores the order of the input [l]. *)
Definition stable_desc (l : list (str * Q)) (a b : str * Q) : Prop :=
  (snd b < snd a)%Q \/ ((snd a == snd b)%Q /\ earlier l a b).

(** The same between two documents scored against [query]. *)
Definition stable_by_score (score : str * str -> Q) (query : str)
    (docs : list str) (a b : str) : Prop :=
  (score (query, b) < score (query, a))%Q
  \/ ((score (query, a) == score (query, b))%Q /\ earlier docs a b).


(** The merge loop read as a recursion on the remaining items. *)
Fixpoint unseen (seen : gset str) (items : list str) : list str :=
  match items with
  | [] => []
  | item :: rest =>
      if decide (item ∈ seen) then unseen seen rest
      else item :: unseen ({[item]} ∪ seen) rest
  end.

(** What one index returned by the vector index contributes: the text at
    that position, or nothing when the position does not exist. *)
Definition text_at (metadata : list str) (idx : Z) : option str :=
  if ((0 <=? idx) && (idx <? Z.of_nat (length metadata)))%Z
  then metadata !! Z.to_nat idx
  else None.

(** No record passes the numeric condition "punishment_years is not None
    and punishment_years > threshold". *)
Definition none_exceeds (threshold : Z) (data : list ipc_record) : Prop :=
  forall item y,
    item ∈ data -> punishment_years item = Some y -> ~ (threshold < y)%Z.

(** A text is the [original_text] of a corpus record. *)
Definition text_of_corpus (data : list ipc_record) (t : str) : Prop :=
  exists item, item ∈ data /\ original_text item = t.

(** [sub] occurs in [s]. *)
Definition occurs (sub s : str) : Prop :=
  exists before after, s = before ++ sub ++ after.

(** [s] is cut at its first occurrence of [sep]. *)
Definition first_cut (sep s before after : str) : Prop :=
  s = before ++ sep ++ after
  /\ forall before' after',
       s = before' ++ sep ++ after' -> length before <= length before'.

(** The text of a well-formed entry: the line decodes to a JSON object
    whose "text" member, when there is one, is a string (a missing member
    reads as the empty string). *)
Definition entry_text (json_loads : str -> result pyval) (line : str)
  : option str :=
  match json_loads line with
  | Ok (PDict d) =>
      match d !! lit "text" with
      | Some (PStr t) => Some t
      | Some _ => None
      | None => Some []
      end
  | _ => None
  end.

(** The years of a text cannot be read: a number that decides them has
    more digits than [int] accepts. *)
Definition unreadable_years (text : str) : bool :=
  match parse_punishment_years text with
  | Ok _ => false
  | Raise _ => true
  end.

(** An entry that is dropped and counted: shorter than 20 characters, or
    holding "nan" in any letter case. *)
Definition skippable (text : str) : bool :=
  (length text <? 20) || contains (lit "nan") (lower text).

(** The text of an entry that becomes a record: a well-formed entry
    that is not dropped and whose years can be read. *)
Definition kept_text (json_loads : str -> result pyval) (line : str)
  : option str :=
  match entry_text json_loads line with
  | Some t =>
      if skippable t || unreadable_years t then None else Some t
  | None => None
  end.

Definition counted_skip (json_loads : str -> result pyval) (line : str)
  : bool :=
  match entry_text json_loads line with
  | Some t => skippable t
  | None => false
  end.

(** The warning a line causes: malformed JSON; JSON that is not a
    well-formed entry; an entry that is not dropped and whose years
    cannot be read. *)
Definition warning_of (json_loads : str -> result pyval) (line : str)
  : option log_event :=
  match json_loads line with
  | Raise JSONDecodeError => Some (Warning_invalid_json (strip line))
  | Raise e => Some (Warning_parse_error e)
  | Ok _ =>
      match entry_text json_loads line with
      | Some t =>
          if negb (skippable t) && unreadable_years t
          then Some (Warning_parse_error ValueError)
          else None
      | None => Some (Warning_parse_error AttributeError)
      end
  end.

(** The fields of a record are those derived from its text. *)
Definition derived_from_text (r : ipc_record) : Prop :=
  ipc_section_id r = section_id_of (original_text r)
  /\ summary_of (original_text r) = Ok (description_summary r)
  /\ parse_punishment_years (original_text r)
     = Ok (punishment_years r, punishment_text_of (original_text r)).

(** [rest] does not go on with a character of class [p]. *)
Definition stops (p : ascii -> bool) (rest : str) : Prop :=
  match rest with
  | [] => True
  | c :: _ => p c = false
  end.

(** A non-empty run of decimal digits. *)
Definition number (ds : str) : Prop :=
  ds <> [] /\ Forall (fun c => Char.is_digit c = true) ds.

(** [s] begins with "greater than " in any letter case, then the number
    [ds], and the number ends there. *)
Definition filter_phrase_at (s ds : str) : Prop :=
  exists g rest,
    s = g ++ ds ++ rest
    /\ lower g = lit "greater than "
    /\ number ds
    /\ stops Char.is_digit rest.

(** The first filter phrase of the query carries the digits [ds]. *)
Definition first_filter_digits (query ds : str) : Prop :=
  exists before t,
    query = before ++ t
    /\ filter_phrase_at t ds
    /\ forall before' t' ds',
         query = before' ++ t' -> length before' < length before ->
         ~ filter_phrase_at t' ds'.

(** The query holds "greater than", a number and then a year unit, as
    the pattern "greater than N (years|year)" reads. *)
Definition has_phrase_with_unit (query : str) : Prop :=
  exists before g ds ws u rest,
    query = before ++ g ++ ds ++ ws ++ u ++ rest
    /\ lower g = lit "greater than "
    /\ number ds
    /\ Forall (fun c => Char.is_space c = true) ws
    /\ (lower u = lit "years" \/ lower u = lit "year").

(** The query holds "greater than" and a number, whatever follows. *)
Definition has_phrase (query : str) : Prop :=
  exists before g ds rest,
    query = before ++ g ++ ds ++ rest
    /\ lower g = lit "greater than "
    /\ number ds.

(** The strings a pattern stands for, read off its syntax. *)
Fixpoint lang (ic : bool) (r : Re.regex) (s : str) : Prop :=
  match r with
  | Re.Eps => s = []
  | Re.Chr c => exists x, s = [x] /\ Re.cmatch ic c x = true
  | Re.Star c => Forall (fun x => Re.cmatch ic c x = true) s
  | Re.Plus c => s <> [] /\ Forall (fun x => Re.cmatch ic c x = true) s
  | Re.Seq r1 r2 =>
      exists s1 s2, s = s1 ++ s2 /\ lang ic r1 s1 /\ lang ic r2 s2
  | Re.Alt r1 r2 => lang ic r1 s \/ lang ic r2 s
  | Re.Opt r1 => s = [] \/ lang ic r1 s
  | Re.Group _ r1 => lang ic r1 s
  end.

(** [s] holds a piece that the pattern stands for. *)
Definition has_match (ic : bool) (r : Re.regex) (s : str) : Prop :=
  exists before m after, s = before ++ m ++ after /\ lang ic r m.

(** The strings a pattern stands for together with the groups a match
    records: [glang ic r s cs cs'] when [s] is in the language of [r] and
    matching it turns the groups [cs] into [cs']. *)
Fixpoint glang (ic : bool) (r : Re.regex) (s : str) (cs cs' : Re.caps)
  : Prop :=
  match r with
  | Re.Eps => s = [] /\ cs' = cs
  | Re.Chr c => (exists x, s = [x] /\ Re.cmatch ic c x = true) /\ cs' = cs
  | Re.Star c => Forall (fun x => Re.cmatch ic c x = true) s /\ cs' = cs
  | Re.Plus c =>
      (s <> [] /\ Forall (fun x => Re.cmatch ic c x = true) s) /\ cs' = cs
  | Re.Seq r1 r2 =>
      exists s1 s2 cs1,
        s = s1 ++ s2 /\ glang ic r1 s1 cs cs1 /\ glang ic r2 s2 cs1 cs'
  | Re.Alt r1 r2 => glang ic r1 s cs cs' \/ glang ic r2 s cs cs'
  | Re.Opt r1 => (s = [] /\ cs' = cs) \/ glang ic r1 s cs cs'
  | Re.Group i r1 => exists cs1, glang ic r1 s cs cs1 /\ cs' = (i, s) :: cs1
  end.

Definition blanks (ws : str) : Prop :=
  Forall (fun c => Char.is_space c = true) ws.

(** "years" or "year", in any letter case. *)
Definition year_unit (u : str) : Prop :=
  lower u = lit "years" \/ lower u = lit "year".

(** The range "a to b years", or "a-b years", stands in the clause. *)
Definition range_in (clause a b : str) : Prop :=
  exists before ws1 sep ws2 ws3 u after,
    clause = before ++ a ++ ws1 ++ sep ++ ws2 ++ b ++ ws3 ++ u ++ after
    /\ number a /\ blanks ws1
    /\ (lower sep = lit "to" \/ lower sep = lit "-")
    /\ blanks ws2 /\ number b /\ blanks ws3 /\ year_unit u.

(** The duration "n years" stands in the clause. *)
Definition duration_in (clause n : str) : Prop :=
  exists before ws u after,
    clause = before ++ n ++ ws ++ u ++ after
    /\ number n /\ blanks ws /\ year_unit u.

(* ===================================================================== *)
(** * Sample inputs *)
(* ===================================================================== *)

(** The record the loader builds from a text it keeps. *)
Definition record_of_text (text : str) : ipc_record :=
  {| ipc_section_id := section_id_of text;
     description_summary :=
       match summary_of text with
       | Ok s => s
       | Raise _ => text
       end;
     punishment_years :=
       match parse_punishment_years text with
       | Ok (years, _) => years
       | Raise _ => None
       end;
     original_text := text |}.

Definition theft : str :=
  lit "IPC 379: Theft of movable property. Punishment: 3 years".
Definition hurt : str :=
  lit "IPC 323: Voluntarily causing hurt. Punishment: 1 year".
Definition robbery : str :=
  lit "IPC 392: Robbery. Punishment: 10 years".
Definition forgery : str :=
  lit "IPC 465: Forgery. Punishment: 2 years".
Definition trespass : str :=
  lit "IPC 447: Criminal trespass. Punishment: 3 months".
Definition extortion : str :=
  lit "IPC 384: Extortion. Punishment: 3 to 7 years".
Definition definitions : str :=
  lit "IPC 23: Wrongful gain and wrongful loss.".

(** Five records, one of them with a punishment of ten years. *)
Definition sample_corpus : list ipc_record :=
  record_of_text <$> [theft; hurt; robbery; forgery; trespass].

(** A corpus file in which one line appears twice. *)
Definition repeated_corpus : list ipc_record :=
  record_of_text <$> [theft; robbery; robbery].

(** A cross-encoder that scores every pair alike. *)
Definition flat_model (pairs : list (str * str)) : result (list Q) :=
  Ok ((fun _ => 0%Q) <$> pairs).

(** A cross-encoder that prefers longer documents. *)
Definition length_score (pair : str * str) : Q :=
  inject_Z (Z.of_nat (length (snd pair))).
Definition length_model (pairs : list (str * str)) : result (list Q) :=
  Ok (length_score <$> pairs).

(** A vector index that finds nothing. *)
Definition empty_index (query : str) (k_initial : Z) : result (list Z) :=
  Ok [].

(** The JSON line for an object with just a "text" member. *)
Definition json_line (text : str) : str :=
  let q := [ascii_of_nat 34] in
  lit "{" ++ q ++ lit "text" ++ q ++ lit ": " ++ q ++ text ++ q ++ lit "}".

(** [json.loads] on the lines of the sample file: three objects, an
    array, and a line that is not JSON. *)
Definition sample_json_loads (line : str) : result pyval :=
  match (list_to_map
           [(json_line robbery, PDict {[ lit "text" := PStr robbery ]});
            (json_line definitions,
             PDict {[ lit "text" := PStr definitions ]});
            (json_line (lit "nan"),
             PDict {[ lit "text" := PStr (lit "nan") ]});
            (lit "[1, 2]", PList [PNum 1; PNum 2])]
         : gmap str pyval) !! line with
  | Some v => Ok v
  | None => Raise JSONDecodeError
  end.

Definition sample_file : list str :=
  [json_line robbery; lit "{oops"; json_line (lit "nan"); lit "[1, 2]";
   json_line definitions].

Definition sample_read_lines (file_path : str) : list str * option exn :=
  if bool_decide (file_path = lit "data/legal_data.jsonl")
  then (sample_file, None) else ([], Some FileNotFoundError).

Definition dacoity : str :=
  lit "IPC 395: Dacoity. Punishment: 14 years".



(** A number written with 4301 digits. *)
Definition long_number : str := replicate 4301 "1"%char.

(** A provision whose range of years ends in that number. *)
Definition long_sentence : str :=
  lit "IPC 511: Attempt. Punishment: 1 to " ++ long_number ++ lit " years".

(** A query for punishments above that number. *)
Definition long_query : str :=
  lit "child offences greater than " ++ long_number ++ lit " years".


(** A vector index that answers with four positions, two of them out of
    range for five texts. *)
Definition four_index (query : str) (k_initial : Z) : result (list Z) :=
  Ok [0; 7; -1; 2]%Z.

Global Arguments parse_punishment_years : simpl never.
Global Arguments summary_of : simpl never.
Global Arguments section_id_of : simpl never.
Global Arguments lower : simpl never.
Global Arguments strip : simpl never.

(* ===================================================================== *)
(** * rag_pipeline.py: generate_answer_with_ollama *)
(* ===================================================================== *)

(** The character that ends a line. *)
Definition line_feed : ascii := "010"%char.

(** What the call of the language model can raise, each with the text
    [str(e)] of the exception. *)
Inductive chat_exn :=
| ResponseError (message : str)
| OtherException (message : str).

(** One item of the response stream: its ['message'] holds a ['content']
    or holds none, or the item has no ['message'] at all. *)
Inductive chunk :=
| Content (content : str)
| No_content
| No_message.

(** The stream of [ollama.chat(..., stream=True)]: the items it yields
    and the exception that ends it, if any.  An exception raised by the
    call itself ends a stream that yielded nothing. *)
Definition chat_stream : Type := list chunk * option chat_exn.

(** What the function shows and logs. *)
Inductive ui_event :=
| Placeholder_created
| Placeholder_markdown (text : str)
| Log_error (text : str).

(** [sep.join(parts)] *)
Fixpoint str_join (sep : str) (parts : list str) : str :=
  match parts with
  | [] => []
  | p :: rest =>
      match rest with
      | [] => p
      | _ :: _ => p ++ sep ++ str_join sep rest
      end
  end.

Definition no_section_message : str :=
  lit "Mujhe aapki query ke liye apne database mein koi relevant IPC section nahi mila. Kya aap kripya ise doosre tarike se poochh sakte hain ya aur details de sakte hain?".

Definition connection_refused_message : str :=
  lit "Maaf kijiye, main Ollama se connect nahi kar pa raha. Kripya confirm karein ki Ollama chal raha hai (`ollama serve`) aur model download ho gaya hai (`ollama run llama3.1`).".

Definition model_not_found_message (ollama_model : str) : str :=
  lit "Maaf kijiye, '" ++ ollama_model
    ++ lit "' model nahi mila. Kripya confirm karein ki yeh Ollama mein download ho gaya hai (`ollama run "
    ++ ollama_model ++ lit "`).".

(** The two [except] clauses: the message logged and the text returned. *)
Definition error_log (e : chat_exn) : ui_event :=
  match e with
  | ResponseError message => Log_error (lit "Ollama error: " ++ message)
  | OtherException message => Log_error (lit "Unexpected error: " ++ message)
  end.

Definition error_reply (ollama_model : str) (e : chat_exn) : str :=
  match e with
  | ResponseError message =>
      if contains (lit "connection refused") (lower message)
      then connection_refused_message
      else if contains (lit "model 'llama3.1' not found") (lower message)
           then model_not_found_message ollama_model
           else lit "Ollama mein ek error aa gayi: " ++ message
  | OtherException message => lit "Ek anapekshit error aa gayi: " ++ message
  end.

(** The [for chunk in stream] loop: what the placeholder shows, and the
    text accumulated at the end or the exception that left the loop.  A
    chunk without ['message'] raises [KeyError('message')]. *)
Fixpoint consume_stream (chunks : list chunk) (ending : option chat_exn)
    (full_response_content : str) : list ui_event * (str + chat_exn) :=
  match chunks with
  | [] =>
      ([], match ending with
           | None => inl full_response_content
           | Some e => inr e
           end)
  | Content content :: rest =>
      let full_response_content := full_response_content ++ content in
      let '(shown, outcome) :=
        consume_stream rest ending full_response_content in
      (Placeholder_markdown full_response_content :: shown, outcome)
  | No_content :: rest => consume_stream rest ending full_response_content
  | No_message :: _ => ([], inr (OtherException (lit "'message'")))
  end.

Section Generation.

(** The prompt built from the context and the query.  Its fixed text
    holds characters beyond the code points modelled here, so the
    template is left open. *)
Variable prompt_of : str -> str -> str.

(** [ollama.chat(model=..., messages=[{'role': 'user', 'content':
    prompt}], options={'temperature': 0.3}, stream=True)] *)
Variable ollama_chat : str -> str -> chat_stream.

(** What is shown and logged, and the text returned. *)
Definition generate_answer_with_ollama (query : str)
    (retrieved_ipc_sections : list str) (ollama_model : str)
  : list ui_event * str :=
  match retrieved_ipc_sections with
  | [] => ([], no_section_message)
  | _ :: _ =>
      let context := str_join [line_feed] retrieved_ipc_sections in
      let prompt := prompt_of context query in
      let '(chunks, ending) := ollama_chat ollama_model prompt in
      let '(shown, outcome) := consume_stream chunks ending [] in
      match outcome with
      | inl full_response_content =>
          (Placeholder_created :: shown, full_response_content)
      | inr e =>
          (Placeholder_created :: shown ++ [error_log e],
           error_reply ollama_model e)
      end
  end.

End Generation.

(* ===================================================================== *)
(** * config.py *)
(* ===================================================================== *)

Record config := mk_config {
  DATA_FILE : str;
  EMBEDDING_MODEL_NAME : str;
  RE_RANKER_MODEL_NAME : str;
  VECTOR_DB_PATH : str;
  METADATA_PATH : str;
  OLLAMA_MODEL : str;
  K_INITIAL_RETRIEVAL : Z;
  K_FINAL_RE_RANKED : Z
}.

(** The values taken when the environment sets none. *)
Definition default_config : config :=
  {| DATA_FILE := lit "data/legal_data.jsonl";
     EMBEDDING_MODEL_NAME := lit "all-MiniLM-L6-v2";
     RE_RANKER_MODEL_NAME := lit "cross-encoder/ms-marco-MiniLM-L-6-v2";
     VECTOR_DB_PATH := lit "data/ipc_faiss.index";
     METADATA_PATH := lit "data/ipc_metadata.json";
     OLLAMA_MODEL := lit "llama3.1";
     K_INITIAL_RETRIEVAL := 20;
     K_FINAL_RE_RANKED := 15 |}.

(* ===================================================================== *)
(** * rag_pipeline.py: the index files and initialize_rag_components *)
(* ===================================================================== *)

(** What a file written by the pipeline holds: an index, as
    [faiss.write_index] leaves it, or a list of texts, as [json.dump]
    leaves it.  Reading gives back what was written. *)
Inductive artefact (faiss_index : Type) :=
| Index_file (index : faiss_index)
| Json_texts (texts : list str).
Arguments Index_file {faiss_index} index.
Arguments Json_texts {faiss_index} texts.

(** What leaves the initialisation. *)
Inductive init_exn :=
| Corpus_error (e : exn)
| Embedding_error
| Index_error
| Artefact_missing
| Artefact_unreadable
| Model_error.

Inductive init_result (A : Type) :=
| Init_ok (a : A)
| Init_raise (e : init_exn).
Arguments Init_ok {A} a.
Arguments Init_raise {A} e.

Inductive init_event :=
| Corpus_log (e : log_event)
| Log_embedding_error
| Log_saved (index_path metadata_path : str)
| Log_build_error
| Log_loaded (index_path metadata_path : str)
| Log_not_found
| Log_load_error.

(** The tuple [initialize_rag_components] returns; [rag_models] stands
    for the retrieval model and the re-ranker. *)
Record components (faiss_index models : Type) := mk_components {
  structured_ipc_data : list ipc_record;
  ipc_faiss_index : faiss_index;
  ipc_metadata : list str;
  rag_models : models
}.
Arguments mk_components {faiss_index models} _ _ _ _.
Arguments structured_ipc_data {faiss_index models} _.
Arguments ipc_faiss_index {faiss_index models} _.
Arguments ipc_metadata {faiss_index models} _.
Arguments rag_models {faiss_index models} _.

Section Components.

(** The values of the libraries: the embeddings array, the index, the
    two loaded models. *)
Variables embeddings faiss_index models : Type.

Variable Config : config.

(** The corpus file is read through these two, as in the loader. *)
Variable json_loads : str -> result pyval.
Variable read_lines : str -> list str * option exn.

(** [SentenceTransformer(model_name)], [model.encode(texts, ...)] and
    [model.get_sentence_embedding_dimension()]; [None] when one of them
    raises. *)
Variable encode : str -> list str -> option (embeddings * Z).

(** [faiss.IndexFlatL2(embedding_dimension)] and [index.add(embeddings)];
    [None] when one of them raises. *)
Variable new_index : Z -> embeddings -> option faiss_index.

(** [SentenceTransformer(EMBEDDING_MODEL_NAME)] and
    [CrossEncoder(RE_RANKER_MODEL_NAME)]; [None] when one of them
    raises. *)
Variable load_models : str -> str -> option models.

(** The files the pipeline writes and reads back, by path. *)
Definition disk : Type := gmap str (artefact faiss_index).

(** [os.path.exists] *)
Definition path_exists (files : disk) (path : str) : bool :=
  bool_decide (is_Some (files !! path)).

Definition get_embeddings (texts : list str) (model_name : str)
  : list init_event * init_result (embeddings * Z) :=
  match encode model_name texts with
  | Some r => ([], Init_ok r)
  | None => ([Log_embedding_error], Init_raise Embedding_error)
  end.

(** Writing is taken to succeed; the index file is written first. *)
Definition build_and_save_faiss_index (emb : embeddings) (texts : list str)
    (embedding_dimension : Z) (index_path metadata_path : str)
    (files : disk) : disk * list init_event * init_result faiss_index :=
  match new_index embedding_dimension emb with
  | Some index =>
      let files := <[index_path := Index_file index]> files in
      let files := <[metadata_path := Json_texts texts]> files in
      (files, [Log_saved index_path metadata_path], Init_ok index)
  | None => (files, [Log_build_error], Init_raise Index_error)
  end.

(** [faiss.read_index] fails on a missing file with an error of its
    own; only the missing metadata file is a [FileNotFoundError]. *)
Definition load_faiss_index_and_metadata (index_path metadata_path : str)
    (files : disk) : list init_event * init_result (faiss_index * list str) :=
  match files !! index_path with
  | Some (Index_file index) =>
      match files !! metadata_path with
      | Some (Json_texts metadata) =>
          ([Log_loaded index_path metadata_path], Init_ok (index, metadata))
      | Some (Index_file _) =>
          ([Log_load_error], Init_raise Artefact_unreadable)
      | None => ([Log_not_found], Init_raise Artefact_missing)
      end
  | _ => ([Log_load_error], Init_raise Artefact_unreadable)
  end.

(** The body of [initialize_rag_components] (what runs when the resource
    cache holds nothing): the files afterwards, the log, and the
    components or the exception. *)
Definition initialize_rag_components (files : disk)
  : disk * list init_event * init_result (components faiss_index models) :=
  let '(corpus_log, loaded) :=
    load_data_structured json_loads read_lines (DATA_FILE Config) in
  let log := Corpus_log <$> corpus_log in
  match loaded with
  | Raise e => (files, log, Init_raise (Corpus_error e))
  | Ok structured_ipc_data =>
      let ipc_data_for_embeddings :=
        original_text <$> structured_ipc_data in
      let '(files, log, built) :=
        if negb (path_exists files (VECTOR_DB_PATH Config))
           || negb (path_exists files (METADATA_PATH Config))
        then
          match get_embeddings ipc_data_for_embeddings
                  (EMBEDDING_MODEL_NAME Config) with
          | (log1, Init_ok (ipc_embeddings, embedding_dim)) =>
              match build_and_save_faiss_index ipc_embeddings
                      ipc_data_for_embeddings embedding_dim
                      (VECTOR_DB_PATH Config) (METADATA_PATH Config)
                      files with
              | (files, log2, Init_ok ipc_faiss_index) =>
                  (files, log ++ log1 ++ log2,
                   Init_ok (ipc_faiss_index, ipc_data_for_embeddings))
              | (files, log2, Init_raise e) =>
                  (files, log ++ log1 ++ log2, Init_raise e)
              end
          | (log1, Init_raise e) => (files, log ++ log1, Init_raise e)
          end
        else
          let '(log1, r) :=
            load_faiss_index_and_metadata (VECTOR_DB_PATH Config)
              (METADATA_PATH Config) files in
          (files, log ++ log1, r) in
      match built with
      | Init_ok (ipc_faiss_index, ipc_metadata) =>
          match load_models (EMBEDDING_MODEL_NAME Config)
                  (RE_RANKER_MODEL_NAME Config) with
          | Some m =>
              (files, log,
               Init_ok (mk_components structured_ipc_data ipc_faiss_index
                          ipc_metadata m))
          | None => (files, log, Init_raise Model_error)
          end
      | Init_raise e => (files, log, Init_raise e)
      end
  end.

End Components.

(* ===================================================================== *)
(** * app.py *)
(* ===================================================================== *)

Inductive role := User | Assistant.

(** An entry of [st.session_state.messages]. *)
Record message := mk_message { message_role : role; message_content : str }.

(** What a run of the script puts on the page and in the log, in order. *)
Inductive page_event :=
| Page_header
| Page_init_log (e : init_event)
| Page_init_error (e : init_exn)
| Page_chat_message (m : message)
| Page_assistant_opened
| Page_retrieval (e : st_event)
| Page_answer (e : ui_event)
| Page_query_error (e : exn)
| Page_footer.

(** What outlives a run: the files, the resource cache of
    [initialize_rag_components], and the session's message list (absent
    until the first run that gets past initialisation). *)
Record app_state (faiss_index models : Type) := mk_app {
  app_files : gmap str (artefact faiss_index);
  cached_components : option (components faiss_index models);
  session_messages : option (list message)
}.
Arguments mk_app {faiss_index models} _ _ _.
Arguments app_files {faiss_index models} _.
Arguments cached_components {faiss_index models} _.
Arguments session_messages {faiss_index models} _.

Section App.

Variables embeddings faiss_index models : Type.
Variable Config : config.
Variable json_loads : str -> result pyval.
Variable read_lines : str -> list str * option exn.
Variable encode : str -> list str -> option (embeddings * Z).
Variable new_index : Z -> embeddings -> option faiss_index.
Variable load_models : str -> str -> option models.

(** The re-ranker's [predict], and the search of the index with the
    retrieval model's encoding of the query; each gives its result or
    the exception it raises. *)
Variable predict_with : models -> list (str * str) -> result (list Q).
Variable search_with : faiss_index -> models -> str -> Z -> result (list Z).

Variable prompt_of : str -> str -> str.
Variable ollama_chat : str -> str -> chat_stream.

(** [@st.cache_resource]: the body runs when nothing is cached, and
    what it returns is cached; an exception is not. *)
Definition cached_initialize (st : app_state faiss_index models)
  : app_state faiss_index models * list init_event
    * init_result (components faiss_index models) :=
  match cached_components st with
  | Some c => (st, [], Init_ok c)
  | None =>
      let '(files, log, r) :=
        initialize_rag_components embeddings faiss_index models Config
          json_loads read_lines encode new_index load_models
          (app_files st) in
      (mk_app files
              (match r with Init_ok c => Some c | Init_raise _ => None end)
              (session_messages st),
       log, r)
  end.

(** One run of [main]; [user_query] is what [st.chat_input] returns. *)
Definition main (st : app_state faiss_index models)
    (user_query : option str)
  : app_state faiss_index models * list page_event :=
  let '(st, log, r) := cached_initialize st in
  let opening := Page_header :: (Page_init_log <$> log) in
  match r with
  | Init_raise e => (st, opening ++ [Page_init_error e])
  | Init_ok c =>
      let messages := default [] (session_messages st) in
      let history := Page_chat_message <$> messages in
      match user_query with
      | Some ((_ :: _) as user_query) =>
          let messages := messages ++ [mk_message User user_query] in
          let '(shown, retrieved) :=
            retrieve_relevant_ipc_hybrid
              (predict_with (rag_models c))
              (search_with (ipc_faiss_index c) (rag_models c))
              user_query (structured_ipc_data c) (ipc_metadata c)
              (K_INITIAL_RETRIEVAL Config) (K_FINAL_RE_RANKED Config) in
          let page :=
            opening ++ history
              ++ [Page_chat_message (mk_message User user_query);
                  Page_assistant_opened]
              ++ (Page_retrieval <$> shown) in
          match retrieved with
          | Ok retrieved_sections =>
              let '(answer_events, full_answer) :=
                generate_answer_with_ollama prompt_of ollama_chat
                  user_query retrieved_sections (OLLAMA_MODEL Config) in
              (mk_app (app_files st) (cached_components st)
                      (Some (messages
                               ++ [mk_message Assistant full_answer])),
               page ++ (Page_answer <$> answer_events) ++ [Page_footer])
          | Raise e =>
              (mk_app (app_files st) (cached_components st) (Some messages),
               page ++ [Page_query_error e; Page_footer])
          end
      | _ =>
          (mk_app (app_files st) (cached_components st) (Some messages),
           opening ++ history ++ [Page_footer])
      end
  end.

End App.

(* ===================================================================== *)
(** * Vocabulary of the further properties *)
(* ===================================================================== *)

(** An ASCII letter: what [[A-Z]] matches under [re.IGNORECASE] among the
    code points below 256. *)
Definition ascii_letter (c : ascii) : bool :=
  Char.between 65 90 c || Char.between 97 122 c.

(** [s] begins with "IPC" in any letter case, the blanks [sp] and the
    identifier [id]: a number, then ASCII letters as far as they go. *)
Definition ipc_identifier_at (s sp id : str) : Prop :=
  exists i ds ls rest,
    s = i ++ sp ++ ds ++ ls ++ rest
    /\ lower i = lit "ipc"
    /\ blanks sp
    /\ number ds
    /\ Forall (fun c => ascii_letter c = true) ls
    /\ id = ds ++ ls
    /\ stops Char.is_digit (ls ++ rest)
    /\ stops ascii_letter rest.

(** The first place of [text] where an identifier stands has the blanks
    [sp] and the identifier [id]. *)
Definition first_ipc_identifier (text sp id : str) : Prop :=
  exists before t,
    text = before ++ t
    /\ ipc_identifier_at t sp id
    /\ forall before' t' sp' id',
         text = before' ++ t' -> length before' < length before ->
         ~ ipc_identifier_at t' sp' id'.

(** No identifier stands anywhere in [text]. *)
Definition no_ipc_identifier (text : str) : Prop :=
  forall before t sp id, text = before ++ t -> ~ ipc_identifier_at t sp id.

(** [t] begins, letter case apart, with "IPC", one blank and [id]. *)
Definition names_section (id t : str) : Prop :=
  exists rest, lower t = lit "ipc " ++ lower id ++ rest.

(** The ['content'] of a chunk that has one. *)
Definition content_of (c : chunk) : option str :=
  match c with
  | Content content => Some content
  | _ => None
  end.

(** The text after the first [k + 1] of the pieces [contents]. *)
Definition text_after (contents : list str) (k : nat) : str :=
  concat (take (S k) contents).

(** The placeholder updates for the pieces [contents]: one per piece,
    each showing all the text so far. *)
Definition growing_texts (contents : list str) : list ui_event :=
  (fun k => Placeholder_markdown (text_after contents k))
    <$> seq 0 (length contents).

(* ===================================================================== *)
(** * Further sample inputs *)
(* ===================================================================== *)

Definition kidnapping : str :=
  lit "IPC 363: Kidnapping a minor from lawful guardianship. Punishment: 7 years".

(** A corpus in which one record mentions a minor. *)
Definition child_corpus : list ipc_record :=
  record_of_text <$> [theft; kidnapping].

(** A vector index that always answers with the first two positions. *)
Definition first_two_index (query : str) (k_initial : Z)
  : result (list Z) :=
  Ok [0; 1]%Z.

(** The score of [flat_model]. *)
Definition flat_score (pair : str * str) : Q := 0%Q.

(** A prompt template without fixed text. *)
Definition plain_prompt (context query : str) : str :=
  context ++ [line_feed] ++ query.

(** A model that answers in two pieces around a chunk without content. *)
Definition two_piece_chat (ollama_model prompt : str) : chat_stream :=
  ([Content (lit "Theft is punished "); No_content;
    Content (lit "with three years.")],
   None).

(** A model whose stream breaks after the first piece. *)
Definition breaking_chat (ollama_model prompt : str) : chat_stream :=
  ([Content (lit "Theft is punished ")],
   Some (ResponseError (lit "model 'mistral' not found, try pulling it first"))).

(** Libraries that always succeed, with the texts themselves as
    embeddings and as index. *)
Definition sample_encode (model_name : str) (texts : list str)
  : option (list str * Z) :=
  Some (texts, 384%Z).
Definition sample_new_index (embedding_dimension : Z) (emb : list str)
  : option (list str) :=
  Some emb.
Definition sample_load_models (embedding_model re_ranker : str)
  : option unit :=
  Some tt.

(** The records of the sample file. *)
Definition sample_records : list ipc_record :=
  record_of_text <$> [robbery; definitions].

(** The components a first start over the sample file gives. *)
Definition sample_components : components (list str) unit :=
  mk_components sample_records [robbery; definitions]
    [robbery; definitions] tt.

(** A later state of the corpus file: one more entry. *)
Definition grown_file : list str :=
  sample_file ++ [json_line dacoity].
Definition grown_json_loads (line : str) : result pyval :=
  if bool_decide (line = json_line dacoity)
  then Ok (PDict {[ lit "text" := PStr dacoity ]})
  else sample_json_loads line.
Definition grown_read_lines (file_path : str) : list str * option exn :=
  if bool_decide (file_path = lit "data/legal_data.jsonl")
  then (grown_file, None) else ([], Some FileNotFoundError).

(** A session with one exchange behind it, components cached. *)
Definition sample_session : app_state (list str) unit :=
  mk_app ∅ (Some sample_components)
    (Some [mk_message User (lit "What is robbery?");
           mk_message Assistant (lit "Robbery is theft with force.")]).

(** The search and the re-ranker of the sample application. *)
Definition sample_search_with (index : list str) (m : unit)
    (query : str) (k_initial : Z) : result (list Z) :=
  Ok [0; 1]%Z.
Definition sample_predict_with (m : unit) (pairs : list (str * str))
  : result (list Q) :=
  length_model pairs.

(* ===================================================================== *)
(** * Strings *)
(* ===================================================================== *)

Lemma startswith_spec (s p : str) :
  startswith s p = true <-> exists rest, s = p ++ rest.
Proof.
  revert s. induction p as [| a p IH]; intros s; simpl.
  - split; [intros _; by exists s | done].
  - destruct s as [| b s].
    + split; [done | by intros [? ?]].
    + rewrite andb_true_iff, bool_decide_eq_true, IH. split.
      * intros [-> [rest ->]]. by exists rest.
      * intros [rest [= -> ->]]. split; [done | by exists rest].
Qed.

Lemma startswith_app (p rest : str) : startswith (p ++ rest) p = true.
Proof. apply startswith_spec. by exists rest. Qed.

Lemma contains_spec (sub s : str) : contains sub s = true <-> occurs sub s.
Proof.
  induction s as [| c s IH]; simpl.
  - rewrite orb_false_r, startswith_spec. split.
    + intros [rest H]. by exists [], rest.
    + intros ([| ? ?] & after & H); [by exists after | done].
  - rewrite orb_true_iff, startswith_spec, IH. split.
    + intros [[rest H] | (before & after & ->)].
      * by exists [], rest.
      * by exists (c :: before), after.
    + intros ([| c' before] & after & H).
      * left. by exists after.
      * right. injection H as -> ->. by exists before, after.
Qed.

Lemma contains_false (sub s : str) :
  contains sub s = false <-> ~ occurs sub s.
Proof.
  rewrite <- contains_spec. by destruct (contains sub s).
Qed.

Lemma find_sep_unfold (sep s : str) :
  find_sep sep s
  = if startswith s sep then Some ([], drop (length sep) s)
    else match s with
         | [] => None
         | c :: s' =>
             match find_sep sep s' with
             | Some (before, after) => Some (c :: before, after)
             | None => None
             end
         end.
Proof. by destruct s. Qed.

Lemma find_sep_first_cut (sep s before after : str) :
  find_sep sep s = Some (before, after) -> first_cut sep s before after.
Proof.
  revert before after. induction s as [| c s IH]; intros before after;
    rewrite find_sep_unfold; destruct (startswith _ sep) eqn:Hsw;
    try done.
  - apply startswith_spec in Hsw as [rest Hrest].
    symmetry in Hrest. apply app_eq_nil in Hrest as [-> ->].
    intros [= <- <-]. split; [done |]. intros; simpl; lia.
  - apply startswith_spec in Hsw as [rest ->].
    rewrite drop_app_length. intros [= <- <-].
    split; [done |]. intros; simpl; lia.
  - destruct (find_sep sep s) as [[b a] |]; [| done].
    intros [= <- <-]. destruct (IH b a eq_refl) as [-> Hmin].
    split; [done |].
    intros [| c' b'] a' H.
    + simpl in H. rewrite H, startswith_app in Hsw. done.
    + injection H as _ H. apply Hmin in H. simpl. lia.
Qed.

Lemma find_sep_None (sep s : str) :
  find_sep sep s = None <-> ~ occurs sep s.
Proof.
  rewrite <- contains_false.
  induction s as [| c s IH]; rewrite find_sep_unfold; simpl;
    destruct (startswith _ sep); simpl; try done.
  rewrite <- IH. by destruct (find_sep sep s) as [[? ?] |].
Qed.

Lemma first_cut_unique (sep s b1 a1 b2 a2 : str) :
  first_cut sep s b1 a1 -> first_cut sep s b2 a2 -> b1 = b2 /\ a1 = a2.
Proof.
  intros [H1 Hmin1] [H2 Hmin2].
  pose proof (Hmin1 _ _ H2). pose proof (Hmin2 _ _ H1).
  rewrite H1 in H2. apply app_inj_1 in H2 as [-> H2]; [| lia].
  by apply app_inv_head in H2 as ->.
Qed.

Lemma find_sep_Some (sep s before after : str) :
  find_sep sep s = Some (before, after) <-> first_cut sep s before after.
Proof.
  split; [apply find_sep_first_cut |]. intros Hcut.
  destruct (find_sep sep s) as [[b a] |] eqn:Hf.
  - apply find_sep_first_cut in Hf.
    by destruct (first_cut_unique _ _ _ _ _ _ Hf Hcut) as [-> ->].
  - apply find_sep_None in Hf. destruct Hf.
    destruct Hcut as [-> _]. by eexists _, _.
Qed.

(* ===================================================================== *)
(** * The summary field *)
(* ===================================================================== *)

Lemma occurs_colon_of_punishment (text : str) :
  occurs (lit "Punishment:") text -> occurs (lit ":") text.
Proof.
  intros (before & after & ->).
  exists (before ++ lit "Punishment"), after.
  by rewrite <- !app_assoc.
Qed.

Lemma summary_of_without_clause (text : str) :
  ~ occurs (lit "Punishment:") text -> summary_of text = Ok text.
Proof.
  intros Hno. apply contains_false in Hno.
  unfold summary_of. by rewrite Hno.
Qed.

Lemma summary_of_with_clause (text label rest : str) :
  occurs (lit "Punishment:") text ->
  first_cut (lit ":") text label rest ->
  (forall body tail,
     first_cut (lit "Punishment:") rest body tail ->
     summary_of text = Ok (strip body))
  /\ (~ occurs (lit "Punishment:") rest -> summary_of text = Ok (strip rest)).
Proof.
  intros Hocc Hcut. apply contains_spec in Hocc.
  apply find_sep_Some in Hcut.
  unfold summary_of, split1. rewrite Hocc, Hcut. split.
  - intros body tail Hbody. apply find_sep_Some in Hbody.
    change (py_index [label; rest] 1) with (Ok rest).
    simpl. rewrite Hbody. reflexivity.
  - intros Hno. apply find_sep_None in Hno.
    change (py_index [label; rest] 1) with (Ok rest).
    simpl. rewrite Hno. reflexivity.
Qed.

Lemma first_cut_exists (sep s : str) :
  occurs sep s -> exists before after, first_cut sep s before after.
Proof.
  intros Hocc. destruct (find_sep sep s) as [[b a] |] eqn:Hf.
  - exists b, a. by apply find_sep_Some.
  - by apply find_sep_None in Hf.
Qed.

(** The summary expression never raises. *)
Lemma summary_of_total (text : str) : exists s, summary_of text = Ok s.
Proof.
  destruct (contains (lit "Punishment:") text) eqn:Hc.
  - apply contains_spec in Hc.
    destruct (first_cut_exists (lit ":") text) as (label & rest & Hcut);
      [by apply occurs_colon_of_punishment |].
    destruct (summary_of_with_clause text label rest Hc Hcut) as [H1 H2].
    destruct (find_sep (lit "Punishment:") rest) as [[b a] |] eqn:Hf.
    + apply find_sep_Some in Hf. eauto.
    + apply find_sep_None in Hf. eauto.
  - apply contains_false in Hc. eexists. by apply summary_of_without_clause.
Qed.

(* ===================================================================== *)
(** * The matcher *)
(* ===================================================================== *)

Lemma lower_app (a b : str) : lower (a ++ b) = lower a ++ lower b.
Proof. apply fmap_app. Qed.

Lemma length_lower (s : str) : length (lower s) = length s.
Proof. apply length_fmap. Qed.

Lemma lower_eq_app (s a b : str) :
  lower s = a ++ b ->
  exists s1 s2, s = s1 ++ s2 /\ lower s1 = a /\ lower s2 = b.
Proof.
  intros H. apply fmap_app_inv in H as (s1 & s2 & ? & ? & ?).
  by exists s1, s2.
Qed.

(** Every string splits into its longest run of [p] and a rest. *)
Lemma span_exists (p : ascii -> bool) (s : str) :
  exists run rest,
    s = run ++ rest /\ Forall (fun c => p c = true) run /\ stops p rest.
Proof.
  induction s as [| c s (run & rest & -> & Hrun & Hstop)].
  - by exists [], [].
  - destruct (p c) eqn:Hc.
    + exists (c :: run), rest. repeat split; [by constructor | done].
    + exists [], (c :: run ++ rest). by repeat split.
Qed.

Section Matcher.
Context {R : Type}.
Implicit Types (k : str -> Re.caps -> option R).

(** A literal, matched ignoring case, is a comparison of lower-cased
    prefixes. *)
Lemma bt_str_re (l s : str) (cs : Re.caps) k :
  Re.bt true (Re.str_re l) s cs k
  = if startswith (lower s) (lower l) then k (drop (length l) s) cs
    else None.
Proof.
  revert s. induction l as [| c l IH]; intros s; [done |].
  destruct s as [| x s]; [done |].
  cbn [Re.str_re foldr Re.bt Re.cmatch].
  change (foldr _ Re.Eps l) with (Re.str_re l).
  change (lower (x :: s)) with (Char.lower x :: lower s).
  change (lower (c :: l)) with (Char.lower c :: lower l).
  cbn [startswith length drop].
  destruct (decide (Char.lower x = Char.lower c)) as [Hcx | Hcx].
  - rewrite (bool_decide_true (Char.lower x = _)) by done.
    rewrite (bool_decide_true (Char.lower c = _)) by done.
    simpl. apply IH.
  - rewrite (bool_decide_false (Char.lower x = _)) by done.
    rewrite (bool_decide_false (Char.lower c = _)) by congruence.
    done.
Qed.

(** Greedy repetition hands the continuation the rest after the longest
    run, when the continuation accepts it. *)
Lemma star_run (p : ascii -> bool) (run rest : str)
    (k1 : str -> option R) :
  Forall (fun c => p c = true) run -> stops p rest ->
  is_Some (k1 rest) ->
  Re.star p (run ++ rest) k1 = k1 rest.
Proof.
  intros Hrun Hstop [x Hx].
  induction Hrun as [| c run Hc _ IH]; simpl.
  - destruct rest as [| c rest]; [done |]. simpl in *.
    by rewrite Hstop.
  - simpl in Hc. by rewrite Hc, IH, Hx.
Qed.

(** Whatever greedy repetition answers, the continuation answered. *)
Lemma star_result (p : ascii -> bool) (s : str) (k1 : str -> option R)
    (x : R) :
  Re.star p s k1 = Some x -> exists t, k1 t = Some x.
Proof.
  induction s as [| c s IH]; simpl; [by exists [] |].
  destruct (p c); [| by exists (c :: s)].
  destruct (Re.star p s k1) eqn:Hs.
  - intros [= <-]. by apply IH.
  - by exists (c :: s).
Qed.

Lemma star_total (p : ascii -> bool) (s : str) (k1 : str -> option R) :
  (forall t, is_Some (k1 t)) -> is_Some (Re.star p s k1).
Proof.
  intros Hk. induction s as [| c s IH]; simpl; [done |].
  destruct (p c); [| done].
  by destruct (Re.star p s k1).
Qed.

End Matcher.

(** [re.search] answers with the first position that has a match. *)
Lemma search_from_first (ic : bool) (r : Re.regex) (pos : nat)
    (before t : str) (len : nat) (cs : Re.caps) :
  Re.match_here ic r t = Some (len, cs) ->
  (forall before' t',
     before ++ t = before' ++ t' -> length before' < length before ->
     Re.match_here ic r t' = None) ->
  Re.search_from ic r pos (before ++ t)
  = Some (Re.mk (pos + length before) (take len t) cs).
Proof.
  intros Hm. revert pos.
  induction before as [| c before IH]; intros pos Hmin.
  - rewrite Nat.add_0_r. by destruct t; simpl; rewrite Hm.
  - cbn [app Re.search_from].
    rewrite (Hmin [] (c :: before ++ t)) by (simpl; first [done | lia]).
    rewrite IH.
    + simpl. by rewrite Nat.add_succ_r.
    + intros before' t' Heq Hlt.
      apply (Hmin (c :: before') t'); simpl; [by rewrite Heq | lia].
Qed.

Lemma search_from_Some (ic : bool) (r : Re.regex) (pos : nat) (s : str)
    (m : Re.t) :
  Re.search_from ic r pos s = Some m ->
  exists before t len cs,
    s = before ++ t
    /\ Re.match_here ic r t = Some (len, cs)
    /\ m = Re.mk (pos + length before) (take len t) cs
    /\ forall before' t',
         s = before' ++ t' -> length before' < length before ->
         Re.match_here ic r t' = None.
Proof.
  revert pos. induction s as [| c s IH]; intros pos; cbn [Re.search_from].
  - destruct (Re.match_here ic r []) as [[len cs] |] eqn:Hm; [| done].
    intros [= <-]. exists [], [], len, cs.
    rewrite Nat.add_0_r.
      repeat split; try done; intros; simpl in *; lia.
  - destruct (Re.match_here ic r (c :: s)) as [[len cs] |] eqn:Hm.
    + intros [= <-]. exists [], (c :: s), len, cs.
      rewrite Nat.add_0_r.
      repeat split; try done; intros; simpl in *; lia.
    + intros (before & t & len & cs & -> & Ht & -> & Hmin)%IH.
      exists (c :: before), t, len, cs.
      simpl. rewrite Nat.add_succ_r. repeat split; [done |].
      intros [| c' before'] t' Heq Hlt.
      * simpl in Heq. by rewrite <- Heq.
      * injection Heq as <- Heq. apply (Hmin before' t' Heq).
        simpl in Hlt. lia.
Qed.

Lemma search_from_None (ic : bool) (r : Re.regex) (pos : nat) (s : str) :
  Re.search_from ic r pos s = None
  <-> forall before t, s = before ++ t -> Re.match_here ic r t = None.
Proof.
  split.
  - revert pos. induction s as [| c s IH]; intros pos; cbn [Re.search_from].
    + destruct (Re.match_here ic r []) as [[len cs] |] eqn:Hm; [done |].
      intros _ before t Heq. symmetry in Heq.
      by apply app_eq_nil in Heq as [-> ->].
    + destruct (Re.match_here ic r (c :: s)) as [[len cs] |] eqn:Hm;
        [done |].
      intros Hs [| c' before] t Heq.
      * simpl in Heq. by rewrite <- Heq.
      * injection Heq as <- Heq. by eapply IH.
  - intros Hall.
    destruct (Re.search_from ic r pos s) as [m |] eqn:Hs; [| done].
    apply search_from_Some in Hs as (before & t & len & cs & Heq & Ht & _).
    rewrite (Hall before t Heq) in Ht. done.
Qed.

(* ===================================================================== *)
(** * The matcher finds what the pattern stands for *)
(* ===================================================================== *)

Lemma star_sound {R} (p : ascii -> bool) (s : str) (k1 : str -> option R)
    (x : R) :
  Re.star p s k1 = Some x ->
  exists run rest,
    s = run ++ rest /\ Forall (fun c => p c = true) run /\ k1 rest = Some x.
Proof.
  induction s as [| c s IH]; simpl.
  - intros Hk. by exists [], [].
  - destruct (p c) eqn:Hc; [| intros Hk; by exists [], (c :: s)].
    destruct (Re.star p s k1) as [y |] eqn:Hs.
    + intros [= <-].
      destruct (IH eq_refl) as (run & rest & -> & Hrun & Hk).
      exists (c :: run), rest. repeat split; [by constructor | done].
    + intros Hk. by exists [], (c :: s).
Qed.

Lemma star_complete {R} (p : ascii -> bool) (run rest : str)
    (k1 : str -> option R) :
  Forall (fun c => p c = true) run -> is_Some (k1 rest) ->
  is_Some (Re.star p (run ++ rest) k1).
Proof.
  intros Hrun Hk. induction Hrun as [| c run Hc _ IH]; simpl.
  - destruct rest as [| c rest]; [done |]. simpl.
    destruct (p c); [| done]. by destruct (Re.star p rest k1).
  - simpl in Hc. rewrite Hc. by destruct IH as [y ->].
Qed.

Lemma bt_gsound {R} (ic : bool) (r : Re.regex) (s : str) (cs : Re.caps)
    (k : str -> Re.caps -> option R) (x : R) :
  Re.bt ic r s cs k = Some x ->
  exists s1 s2 cs',
    s = s1 ++ s2 /\ glang ic r s1 cs cs' /\ k s2 cs' = Some x.
Proof.
  revert s cs k.
  induction r as [| c | c | c | r1 IH1 r2 IH2 | r1 IH1 r2 IH2 | r1 IH1
                 | i r1 IH1]; intros s cs k; cbn [Re.bt glang].
  - intros Hk. by exists [], s, cs.
  - destruct s as [| y s]; [done |].
    destruct (Re.cmatch ic c y) eqn:Hy; [| done].
    intros Hk. exists [y], s, cs. repeat split; [| done]. by exists y.
  - intros (run & rest & -> & Hrun & Hk)%star_sound.
    by exists run, rest, cs.
  - destruct s as [| y s]; [done |].
    destruct (Re.cmatch ic c y) eqn:Hy; [| done].
    intros (run & rest & -> & Hrun & Hk)%star_sound.
    exists (y :: run), rest, cs. repeat split; [done | | done].
    by constructor.
  - intros (s1 & s' & cs1 & -> & H1 & H2)%IH1.
    apply IH2 in H2 as (s2 & s3 & cs2 & -> & H2 & Hk).
    exists (s1 ++ s2), s3, cs2. rewrite <- app_assoc.
    repeat split; [| done]. by exists s1, s2, cs1.
  - destruct (Re.bt ic r1 s cs k) as [y |] eqn:H1.
    + intros [= <-].
      apply IH1 in H1 as (s1 & s2 & cs' & -> & H1 & Hk).
      exists s1, s2, cs'. repeat split; [by left | done].
    + intros (s1 & s2 & cs' & -> & H2 & Hk)%IH2.
      exists s1, s2, cs'. repeat split; [by right | done].
  - destruct (Re.bt ic r1 s cs k) as [y |] eqn:H1.
    + intros [= <-].
      apply IH1 in H1 as (s1 & s2 & cs' & -> & H1 & Hk).
      exists s1, s2, cs'. repeat split; [by right | done].
    + intros Hk. exists [], s, cs. repeat split; [by left | done].
  - intros (s1 & s2 & cs' & -> & H1 & Hk)%IH1.
    rewrite length_app in Hk.
    replace (length s1 + length s2 - length s2) with (length s1) in Hk
      by lia.
    rewrite take_app_length in Hk.
    eexists s1, s2, _. repeat split; [| exact Hk]. by exists cs'.
Qed.

Lemma glang_lang (ic : bool) (r : Re.regex) (s : str) (cs cs' : Re.caps) :
  glang ic r s cs cs' -> lang ic r s.
Proof.
  revert s cs cs'.
  induction r as [| c | c | c | r1 IH1 r2 IH2 | r1 IH1 r2 IH2 | r1 IH1
                 | i r1 IH1]; intros s cs cs'; cbn [glang lang].
  - by intros [? _].
  - by intros [? _].
  - by intros [? _].
  - by intros [? _].
  - intros (s1 & s2 & cs1 & -> & H1 & H2). exists s1, s2. eauto.
  - intros [H | H]; eauto.
  - intros [[? _] | H]; eauto.
  - intros (cs1 & H & _). eauto.
Qed.

Lemma bt_sound {R} (ic : bool) (r : Re.regex) (s : str) (cs : Re.caps)
    (k : str -> Re.caps -> option R) (x : R) :
  Re.bt ic r s cs k = Some x ->
  exists s1 s2 cs', s = s1 ++ s2 /\ lang ic r s1 /\ k s2 cs' = Some x.
Proof.
  intros (s1 & s2 & cs' & -> & H1 & Hk)%bt_gsound.
  exists s1, s2, cs'. repeat split; [| done]. by eapply glang_lang.
Qed.

(** A match at the head of [s] is a prefix in the language, with the
    groups that prefix records. *)
Lemma match_here_sound (ic : bool) (r : Re.regex) (s : str)
    (len : nat) (cs : Re.caps) :
  Re.match_here ic r s = Some (len, cs) ->
  exists m after, s = m ++ after /\ glang ic r m [] cs /\ len = length m.
Proof.
  unfold Re.match_here.
  intros (m & after & cs' & -> & Hm & [= <- <-])%bt_gsound.
  exists m, after. repeat split; [done |]. rewrite length_app. lia.
Qed.

(** Every match [re.findall] reports is a piece of the string in the
    language, with its groups. *)
Lemma findall_sound (ic : bool) (r : Re.regex) (s : str) (cs : Re.caps) :
  cs ∈ Re.findall ic r s ->
  exists before m after, s = before ++ m ++ after /\ glang ic r m [] cs.
Proof.
  unfold Re.findall. generalize 0 as skip.
  induction s as [| c s IH]; intros skip; cbn [Re.findall_from].
  - destruct skip; [| by intros ?%not_elem_of_nil].
    destruct (Re.match_here ic r []) as [[len cs0] |] eqn:Hm;
      [| by intros ?%not_elem_of_nil].
    intros ->%list_elem_of_singleton.
    apply match_here_sound in Hm as (m & after & Heq & Hm & _).
    by exists [], m, after.
  - destruct skip as [| skip].
    + destruct (Re.match_here ic r (c :: s)) as [[len cs0] |] eqn:Hm.
      * intros [-> | Hin]%elem_of_cons.
        -- apply match_here_sound in Hm as (m & after & Heq & Hm & _).
           by exists [], m, after.
        -- apply IH in Hin as (before & m & after & -> & Hm').
           by exists (c :: before), m, after.
      * intros (before & m & after & -> & Hm')%IH.
        by exists (c :: before), m, after.
    + intros (before & m & after & -> & Hm')%IH.
      by exists (c :: before), m, after.
Qed.

Lemma bt_complete {R} (ic : bool) (r : Re.regex) (s1 s2 : str)
    (cs : Re.caps) (k : str -> Re.caps -> option R) :
  lang ic r s1 -> (forall cs', is_Some (k s2 cs')) ->
  is_Some (Re.bt ic r (s1 ++ s2) cs k).
Proof.
  revert s1 s2 cs k.
  induction r as [| c | c | c | r1 IH1 r2 IH2 | r1 IH1 r2 IH2 | r1 IH1
                 | i r1 IH1]; intros s1 s2 cs k; cbn [Re.bt lang].
  - intros -> Hk. apply Hk.
  - intros (y & -> & Hy) Hk. simpl. rewrite Hy. apply Hk.
  - intros Hrun Hk. by apply star_complete.
  - intros [Hne Hrun] Hk. destruct s1 as [| y s1]; [done |].
    apply Forall_cons in Hrun as [Hy Hrun]. simpl. rewrite Hy.
    by apply star_complete.
  - intros (a & b & -> & Ha & Hb) Hk. rewrite <- app_assoc.
    apply IH1; [done |]. intros cs'. by apply IH2.
  - intros [H1 | H2] Hk.
    + by destruct (IH1 s1 s2 cs k H1 Hk) as [y ->].
    + destruct (Re.bt ic r1 (s1 ++ s2) cs k); [done |]. by apply IH2.
  - intros [-> | H1] Hk.
    + simpl. destruct (Re.bt ic r1 s2 cs k); [done |]. apply Hk.
    + by destruct (IH1 s1 s2 cs k H1 Hk) as [y ->].
  - intros H1 Hk. apply IH1; [done |]. intros cs'. apply Hk.
Qed.

(** A match at the head of [s] exists exactly when a prefix of [s] is in
    the language of the pattern. *)
Lemma match_here_lang (ic : bool) (r : Re.regex) (s : str) :
  is_Some (Re.match_here ic r s)
  <-> exists s1 s2, s = s1 ++ s2 /\ lang ic r s1.
Proof.
  unfold Re.match_here. split.
  - intros [x (s1 & s2 & cs' & -> & H1 & _)%bt_sound]. by exists s1, s2.
  - intros (s1 & s2 & -> & H1). by apply bt_complete.
Qed.

(** [re.search] succeeds exactly when the string holds a match. *)
Lemma search_lang (ic : bool) (r : Re.regex) (s : str) :
  is_Some (Re.search ic r s) <-> has_match ic r s.
Proof.
  unfold Re.search. split.
  - intros [m Hm].
    apply search_from_Some in Hm as (before & t & len & cs & -> & Ht & _).
    destruct (proj1 (match_here_lang ic r t)) as (s1 & s2 & -> & H1);
      [by rewrite Ht |].
    by exists before, s1, s2.
  - intros (before & m & after & -> & Hm).
    destruct (Re.search_from ic r 0 _) eqn:Hs; [done |]. exfalso.
    rewrite search_from_None in Hs.
    specialize (Hs before (m ++ after) eq_refl).
    destruct (proj2 (match_here_lang ic r (m ++ after))) as [x Hx];
      [by exists m, after | congruence].
Qed.

(** [re.findall] is non-empty exactly when the string holds a match. *)
Lemma findall_lang (ic : bool) (r : Re.regex) (s : str) :
  Re.findall ic r s <> [] <-> has_match ic r s.
Proof.
  unfold Re.findall. split.
  - induction s as [| c s IH]; cbn [Re.findall_from].
    + destruct (Re.match_here ic r []) as [[len cs] |] eqn:Hm; [| done].
      intros _.
      destruct (proj1 (match_here_lang ic r [])) as (s1 & s2 & Heq & H1);
        [by rewrite Hm |].
      exists [], s1, s2. by rewrite <- Heq.
    + destruct (Re.match_here ic r (c :: s)) as [[len cs] |] eqn:Hm.
      * intros _.
        destruct (proj1 (match_here_lang ic r (c :: s)))
          as (s1 & s2 & Heq & H1); [by rewrite Hm |].
        exists [], s1, s2. by rewrite <- Heq.
      * intros (before & m & after & -> & H1)%IH.
        by exists (c :: before), m, after.
  - intros (before & m & after & -> & H1).
    assert (Hm : is_Some (Re.match_here ic r (m ++ after))).
    { apply match_here_lang. by exists m, after. }
    induction before as [| c before IH]; cbn [app Re.findall_from].
    + destruct Hm as [[len cs] Hm].
      destruct (m ++ after); simpl; by rewrite Hm.
    + destruct (Re.match_here ic r (c :: before ++ m ++ after))
        as [[len cs] |]; [done | apply IH].
Qed.

(* ===================================================================== *)
(** * Severity extraction *)
(* ===================================================================== *)

Lemma lang_str_re (l s : str) :
  lang true (Re.str_re l) s <-> lower s = lower l.
Proof.
  revert s. induction l as [| c l IH]; intros s.
  - simpl. split; [by intros -> |]. by destruct s.
  - cbn [Re.str_re foldr lang]. change (foldr _ Re.Eps l) with (Re.str_re l).
    split.
    + intros (s1 & s2 & -> & (x & -> & Hx) & H2).
      apply IH in H2. simpl in Hx. apply bool_decide_eq_true in Hx.
      rewrite lower_app.
      change (lower [x]) with [Char.lower x].
      change (lower (c :: l)) with (Char.lower c :: lower l).
      simpl. by rewrite Hx, H2.
    + destruct s as [| x s]; [done |].
      change (lower (x :: s)) with (Char.lower x :: lower s).
      change (lower (c :: l)) with (Char.lower c :: lower l).
      intros [= Hx Hs]. exists [x], s. repeat split; [| by apply IH].
      exists x. split; [done |]. simpl. by apply bool_decide_eq_true.
Qed.

(** The clause pattern is found exactly when "punishment:" occurs, in any
    letter case. *)
Lemma punishment_clause_found (text : str) :
  has_match true punishment_re text
  <-> occurs (lit "punishment:") (lower text).
Proof.
  split.
  - intros (before & m & after & -> & Hm).
    unfold punishment_re, cat in Hm. cbn [foldr lang] in Hm.
    destruct Hm as (p & rest & -> & Hp & _).
    apply lang_str_re in Hp.
    exists (lower before), (lower (rest ++ after)).
    rewrite !lower_app, Hp, <- !app_assoc. done.
  - intros (b & a & Heq).
    apply lower_eq_app in Heq as (before & t & -> & _ & Heq).
    apply lower_eq_app in Heq as (p & after & -> & Hp & _).
    exists before, p, after. split; [done |].
    unfold punishment_re, cat. cbn [foldr lang].
    exists p, []. rewrite app_nil_r. repeat split.
    + by apply lang_str_re.
    + exists [], []. repeat split; [constructor |].
      exists [], []. repeat split. constructor.
Qed.

Lemma punishment_match_here_unfold (t : str) :
  Re.match_here true punishment_re t
  = if startswith (lower t) (lit "punishment:")
    then Re.bt true
           (cat [Re.Star Re.CSpace; Re.Group 1 (Re.Star Re.CDot)])
           (drop 11 t) []
           (fun s' cs' => Some (length t - length s', cs'))
    else None.
Proof.
  unfold Re.match_here, punishment_re, cat.
  cbn [foldr]. cbn [Re.bt]. by rewrite bt_str_re.
Qed.

(** The clause is what follows the first "Punishment:" (any letter case)
    and the blanks after it, up to the end of that line, stripped. *)
Lemma punishment_text_of_rest_of_line (before p ws line rest : str) :
  lower p = lit "punishment:" ->
  (forall before' t',
     before ++ p ++ ws ++ line ++ rest = before' ++ t' ->
     length before' < length before ->
     startswith (lower t') (lit "punishment:") = false) ->
  blanks ws -> stops Char.is_space (line ++ rest) ->
  Forall (fun c => Re.cmatch true Re.CDot c = true) line ->
  stops (Re.cmatch true Re.CDot) rest ->
  punishment_text_of (before ++ p ++ ws ++ line ++ rest) = strip line.
Proof.
  intros Hp Hfirst Hws Hstop Hline Hrest.
  assert (Hlen : length p = 11).
  { by rewrite <- (length_lower p), Hp. }
  assert (Hm : exists len,
             Re.match_here true punishment_re (p ++ ws ++ line ++ rest)
             = Some (len, [(1, line)])).
  { rewrite punishment_match_here_unfold.
    rewrite lower_app, Hp, startswith_app.
    rewrite drop_app_length' by done.
    unfold cat. cbn [foldr]. cbn [Re.bt].
    assert (Hk : exists len,
               Re.star (Re.cmatch true Re.CDot) (line ++ rest)
                 (fun s'' =>
                    Some (length (p ++ ws ++ line ++ rest) - length s'',
                          [(1, take (length (line ++ rest) - length s'')
                                    (line ++ rest))]))
               = Some (len, [(1, line)])).
    { assert (Htake : take (length (line ++ rest) - length rest)
                           (line ++ rest) = line).
      { rewrite length_app.
        replace (length line + length rest - length rest)
          with (length line) by lia.
        apply take_app_length. }
      rewrite star_run; [rewrite Htake; by eexists | done ..]. }
    destruct Hk as [len Hk]. exists len.
    rewrite star_run; [exact Hk | done | done |].
    eexists. exact Hk. }
  destruct Hm as [len Hm].
  unfold punishment_text_of, Re.search.
  rewrite (search_from_first _ _ _ before _ len [(1, line)] Hm); [done |].
  intros before' t' Heq Hlt.
  rewrite punishment_match_here_unfold.
  by rewrite (Hfirst before' t' Heq Hlt).
Qed.

Lemma punishment_text_of_absent (text : str) :
  ~ occurs (lit "punishment:") (lower text) -> punishment_text_of text = [].
Proof.
  intros Hno. unfold punishment_text_of.
  destruct (Re.search true punishment_re text) as [m |] eqn:Hs; [| done].
  destruct Hno. apply punishment_clause_found, search_lang. by rewrite Hs.
Qed.

Lemma max_of_spec (b : Z) (bs : list Z) :
  max_of b bs ∈ b :: bs /\ forall x, x ∈ b :: bs -> (x <= max_of b bs)%Z.
Proof.
  unfold max_of. revert b. induction bs as [| c bs IH]; intros b; simpl.
  - split; [apply list_elem_of_here |].
    intros x ->%list_elem_of_singleton. lia.
  - destruct (IH (Z.max b c)) as [Hin Hle]. split.
    + apply elem_of_cons in Hin as [Heq | Hin].
      * rewrite Heq. destruct (Z.max_spec b c) as [[_ ->] | [_ ->]];
          set_solver.
      * set_solver.
    + intros x Hx.
      assert (Hmax : (Z.max b c <= fold_left Z.max bs (Z.max b c))%Z).
      { apply Hle. apply list_elem_of_here. }
      apply elem_of_cons in Hx as [-> | Hx]; [lia |].
      apply elem_of_cons in Hx as [-> | Hx]; [lia |].
      apply Hle. by apply list_elem_of_further.
Qed.

Lemma glang_str_re (l s : str) (cs cs' : Re.caps) :
  glang true (Re.str_re l) s cs cs' -> lower s = lower l /\ cs' = cs.
Proof.
  revert s cs'. induction l as [| c l IH]; intros s cs'.
  - simpl. by intros [-> ->].
  - cbn [Re.str_re foldr glang]. change (foldr _ Re.Eps l) with (Re.str_re l).
    intros (s1 & s2 & cs1 & -> & [(x & -> & Hx) ->] & H2).
    apply IH in H2 as [H2 ->]. split; [| done].
    simpl in Hx. apply bool_decide_eq_true in Hx.
    rewrite lower_app.
    change (lower [x]) with [Char.lower x].
    change (lower (c :: l)) with (Char.lower c :: lower l).
    simpl. by rewrite Hx, H2.
Qed.

Lemma glang_year_unit (u : str) (cs cs' : Re.caps) :
  glang true year_unit_re u cs cs' -> year_unit u /\ cs' = cs.
Proof.
  unfold year_unit_re. cbn [glang].
  intros [[H ->]%glang_str_re | [H ->]%glang_str_re]; split; try done.
  - by left.
  - by right.
Qed.

Lemma glang_number (i : nat) (s : str) (cs cs' : Re.caps) :
  glang true (Re.Group i (Re.Plus Re.CDigit)) s cs cs' ->
  number s /\ cs' = (i, s) :: cs.
Proof. cbn [glang]. by intros (cs1 & [H ->] & ->). Qed.

Lemma glang_blanks (s : str) (cs cs' : Re.caps) :
  glang true (Re.Star Re.CSpace) s cs cs' -> blanks s /\ cs' = cs.
Proof. cbn [glang]. by intros [H ->]. Qed.

(** What a match of the range pattern looks like, and its two groups. *)
Lemma glang_year_range (m : str) (cs : Re.caps) :
  glang true year_range_re m [] cs ->
  exists a ws1 sep ws2 b ws3 u,
    m = a ++ ws1 ++ sep ++ ws2 ++ b ++ ws3 ++ u
    /\ number a /\ blanks ws1
    /\ (lower sep = lit "to" \/ lower sep = lit "-")
    /\ blanks ws2 /\ number b /\ blanks ws3 /\ year_unit u
    /\ Re.cap 1 cs = a /\ Re.cap 2 cs = b.
Proof.
  unfold year_range_re, cat. cbn [foldr]. cbn [glang].
  intros (a & ? & ? & -> & (? & [Ha ->] & ->)
          & ws1 & ? & ? & -> & [Hws1 ->]
          & sep & ? & csep & -> & Hsep
          & ws2 & ? & ? & -> & [Hws2 ->]
          & b & ? & ? & -> & (? & [Hb ->] & ->)
          & ws3 & ? & ? & -> & [Hws3 ->]
          & u & ? & ? & -> & Hu & -> & ->).
  apply glang_year_unit in Hu as [Hu ->].
  assert (Hsep' : (lower sep = lit "to" \/ lower sep = lit "-")
                  /\ csep = [(1, a)]).
  { destruct Hsep as [[H ->]%glang_str_re | [H ->]%glang_str_re];
      split; try done; [by left | by right]. }
  destruct Hsep' as [Hsep' ->].
  exists a, ws1, sep, ws2, b, ws3, u. rewrite app_nil_r.
  destruct Ha, Hb. by repeat split.
Qed.

(** What a match of the duration pattern looks like, and its group. *)
Lemma glang_years (m : str) (cs : Re.caps) :
  glang true years_re m [] cs ->
  exists n ws u,
    m = n ++ ws ++ u
    /\ number n /\ blanks ws /\ year_unit u /\ Re.cap 1 cs = n.
Proof.
  unfold years_re, cat. cbn [foldr]. cbn [glang].
  intros (n & ? & ? & -> & (? & [Hn ->] & ->)
          & ws & ? & ? & -> & [Hws ->]
          & u & ? & ? & -> & Hu & -> & ->).
  apply glang_year_unit in Hu as [Hu ->].
  exists n, ws, u. rewrite app_nil_r. destruct Hn. by repeat split.
Qed.

(** Every range the code finds stands in the clause. *)
Lemma year_ranges_sound (clause a b : str) :
  (a, b) ∈ year_ranges_of clause -> range_in clause a b.
Proof.
  unfold year_ranges_of.
  intros (cs & Heq & Hcs)%list_elem_of_fmap. injection Heq as -> ->.
  apply findall_sound in Hcs as (before & m & after & -> & Hm).
  apply glang_year_range in Hm
    as (a & ws1 & sep & ws2 & b & ws3 & u & -> & Ha & H1 & Hsep & H2 & Hb
        & H3 & Hu & -> & ->).
  exists before, ws1, sep, ws2, ws3, u, after.
  rewrite <- !app_assoc. by repeat (split; [done |]).
Qed.

(** Every duration the code finds stands in the clause. *)
Lemma year_matches_sound (clause n : str) :
  n ∈ year_matches_of clause -> duration_in clause n.
Proof.
  unfold year_matches_of.
  intros (cs & -> & Hcs)%list_elem_of_fmap.
  apply findall_sound in Hcs as (before & m & after & -> & Hm).
  apply glang_years in Hm as (n & ws & u & -> & Hn & Hws & Hu & ->).
  exists before, ws, u, after. rewrite <- !app_assoc.
  by repeat (split; [done |]).
Qed.

Lemma lang_year_unit (u : str) : year_unit u -> lang true year_unit_re u.
Proof.
  unfold year_unit_re. cbn [lang].
  intros [H | H]; [left | right]; by apply lang_str_re.
Qed.

Lemma range_in_has_match (clause a b : str) :
  range_in clause a b -> has_match true year_range_re clause.
Proof.
  intros (before & ws1 & sep & ws2 & ws3 & u & after & -> & Ha & H1 & Hsep
          & H2 & Hb & H3 & Hu).
  exists before, (a ++ ws1 ++ sep ++ ws2 ++ b ++ ws3 ++ u), after.
  split; [by rewrite <- !app_assoc |].
  unfold year_range_re, cat. cbn [foldr]. cbn [lang].
  exists a, (ws1 ++ sep ++ ws2 ++ b ++ ws3 ++ u). do 2 (split; [done |]).
  exists ws1, (sep ++ ws2 ++ b ++ ws3 ++ u). do 2 (split; [done |]).
  exists sep, (ws2 ++ b ++ ws3 ++ u). split; [done |]. split.
  { destruct Hsep as [H | H]; [left | right]; by apply lang_str_re. }
  exists ws2, (b ++ ws3 ++ u). do 2 (split; [done |]).
  exists b, (ws3 ++ u). do 2 (split; [done |]).
  exists ws3, u. do 2 (split; [done |]).
  exists u, []. rewrite app_nil_r. split; [done |].
  split; [by apply lang_year_unit | done].
Qed.

Lemma duration_in_has_match (clause n : str) :
  duration_in clause n -> has_match true years_re clause.
Proof.
  intros (before & ws & u & after & -> & Hn & Hws & Hu).
  exists before, (n ++ ws ++ u), after.
  split; [by rewrite <- !app_assoc |].
  unfold years_re, cat. cbn [foldr]. cbn [lang].
  exists n, (ws ++ u). do 2 (split; [done |]).
  exists ws, u. do 2 (split; [done |]).
  exists u, []. rewrite app_nil_r. split; [done |].
  split; [by apply lang_year_unit | done].
Qed.

(** The code finds a range exactly when one stands in the clause. *)
Lemma year_ranges_found (clause : str) :
  year_ranges_of clause <> [] <-> exists a b, range_in clause a b.
Proof.
  split.
  - destruct (year_ranges_of clause) as [| [a b] rs] eqn:Hr; [done |].
    intros _. exists a, b. apply year_ranges_sound. rewrite Hr.
    apply list_elem_of_here.
  - intros (a & b & Hin%range_in_has_match%findall_lang).
    unfold year_ranges_of.
    by destruct (Re.findall true year_range_re clause).
Qed.

(** The code finds a duration exactly when one stands in the clause. *)
Lemma year_matches_found (clause : str) :
  year_matches_of clause <> [] <-> exists n, duration_in clause n.
Proof.
  split.
  - destruct (year_matches_of clause) as [| n ns] eqn:Hr; [done |].
    intros _. exists n. apply year_matches_sound. rewrite Hr.
    apply list_elem_of_here.
  - intros (n & Hin%duration_in_has_match%findall_lang).
    unfold year_matches_of.
    by destruct (Re.findall true years_re clause).
Qed.

(** ** Reading the numbers *)

Lemma py_int_readable (ds : str) : readable ds -> py_int ds = Ok (int_of ds).
Proof.
  unfold readable, py_int. intros H.
  by destruct (Nat.leb_spec (length ds) int_max_str_digits); [| lia].
Qed.

Lemma py_int_unreadable (ds : str) :
  ~ readable ds -> py_int ds = Raise ValueError.
Proof.
  unfold readable, py_int. intros H.
  by destruct (Nat.leb_spec (length ds) int_max_str_digits).
Qed.

Lemma py_ints_readable (texts : list str) :
  Forall readable texts -> py_ints texts = Ok (int_of <$> texts).
Proof.
  induction 1 as [| t texts Ht _ IH]; [done |].
  cbn [py_ints]. by rewrite (py_int_readable t Ht), IH.
Qed.

Lemma py_ints_unreadable (texts : list str) :
  ~ Forall readable texts -> py_ints texts = Raise ValueError.
Proof.
  induction texts as [| t texts IH]; intros Hnot.
  - destruct Hnot. constructor.
  - cbn [py_ints]. destruct (decide (readable t)) as [Ht | Ht].
    + rewrite (py_int_readable t Ht). simpl.
      rewrite IH; [done |]. intros Hrest. apply Hnot. by constructor.
    + by rewrite (py_int_unreadable t Ht).
Qed.

(** The function, by what the clause holds. *)
Lemma parse_with_ranges (text : str) (r : str * str) (rs : list (str * str)) :
  year_ranges_of (punishment_text_of text) = r :: rs ->
  (Forall readable (bound_texts (r :: rs)) ->
   parse_punishment_years text
   = Ok (Some (max_of (int_of (fst r))
                      (int_of (snd r) :: range_bounds rs)),
         punishment_text_of text))
  /\ (~ Forall readable (bound_texts (r :: rs)) ->
      parse_punishment_years text = Raise ValueError).
Proof.
  intros Hr. unfold parse_punishment_years. cbv zeta. rewrite Hr. split.
  - intros Hall. rewrite (py_ints_readable _ Hall). done.
  - intros Hnot. by rewrite (py_ints_unreadable _ Hnot).
Qed.

Lemma parse_with_duration (text y : str) (ys : list str) :
  year_ranges_of (punishment_text_of text) = [] ->
  year_matches_of (punishment_text_of text) = y :: ys ->
  (readable y ->
   parse_punishment_years text
   = Ok (Some (int_of y), punishment_text_of text))
  /\ (~ readable y -> parse_punishment_years text = Raise ValueError).
Proof.
  intros Hr Hy. unfold parse_punishment_years. cbv zeta. rewrite Hr, Hy.
  split.
  - intros Hread. by rewrite (py_int_readable y Hread).
  - intros Hnot. by rewrite (py_int_unreadable y Hnot).
Qed.

Lemma parse_without_numbers (text : str) :
  year_ranges_of (punishment_text_of text) = [] ->
  year_matches_of (punishment_text_of text) = [] ->
  parse_punishment_years text
  = Ok (if contains (lit "life") (lower (punishment_text_of text))
        then Some 999%Z
        else if contains (lit "death") (lower (punishment_text_of text))
             then Some 1000%Z
             else None,
        punishment_text_of text).
Proof.
  intros Hr Hy. unfold parse_punishment_years. cbv zeta. by rewrite Hr, Hy.
Qed.

(** The function raises nothing but [ValueError], and returns the clause
    with the years. *)
Lemma parse_punishment_years_cases (text : str) :
  parse_punishment_years text = Raise ValueError
  \/ exists years,
       parse_punishment_years text = Ok (years, punishment_text_of text).
Proof.
  destruct (year_ranges_of (punishment_text_of text)) as [| r rs] eqn:Hr.
  - destruct (year_matches_of (punishment_text_of text)) as [| y ys] eqn:Hy.
    + right. eexists. by apply parse_without_numbers.
    + destruct (parse_with_duration text y ys Hr Hy) as [H1 H2].
      destruct (decide (readable y)); [right | left]; eauto.
  - destruct (parse_with_ranges text r rs Hr) as [H1 H2].
    destruct (decide (Forall readable (bound_texts (r :: rs))));
      [right | left]; eauto.
Qed.

(** C5, as the code has it.  [parse_punishment_years] follows the
    severity rule for numbers that [int] reads, those of at most 4300
    digits.  Without a "Punishment:" clause (any letter case) there are
    no years.  With one: if a range stands in the clause (two numbers
    joined by "to" or "-" and followed by "years" or "year") the result
    is the largest bound of all the ranges found; else if a duration
    stands in it (a number followed by "years" or "year"), the first one
    found; else 999 when the clause mentions "life", else 1000 when it
    mentions "death"; else nothing.  When a bound of a range found, or
    the first duration when there is no range, has more than 4300 digits
    the function raises [ValueError] instead.  The three sample texts
    give 7, 999 and 1000. *)
Theorem parse_punishment_years_severity_rule (text : str) :
  let clause := punishment_text_of text in
  let result := parse_punishment_years text in
  (~ occurs (lit "punishment:") (lower text) -> result = Ok (None, []))
  /\ ((exists a b, range_in clause a b) ->
      (Forall readable (bound_texts (year_ranges_of clause)) ->
       exists m,
         result = Ok (Some m, clause)
         /\ m ∈ range_bounds (year_ranges_of clause)
         /\ forall b, b ∈ range_bounds (year_ranges_of clause) -> (b <= m)%Z)
      /\ (~ Forall readable (bound_texts (year_ranges_of clause)) ->
          result = Raise ValueError))
  /\ (forall a b, (a, b) ∈ year_ranges_of clause -> range_in clause a b)
  /\ (~ (exists a b, range_in clause a b) ->
      (exists n, duration_in clause n) ->
      exists y ys,
        year_matches_of clause = y :: ys
        /\ duration_in clause y
        /\ (readable y -> result = Ok (Some (int_of y), clause))
        /\ (~ readable y -> result = Raise ValueError))
  /\ (~ (exists a b, range_in clause a b) ->
      ~ (exists n, duration_in clause n) ->
      (occurs (lit "life") (lower clause) ->
       result = Ok (Some 999%Z, clause))
      /\ (~ occurs (lit "life") (lower clause) ->
          occurs (lit "death") (lower clause) ->
          result = Ok (Some 1000%Z, clause))
      /\ (~ occurs (lit "life") (lower clause) ->
          ~ occurs (lit "death") (lower clause) ->
          result = Ok (None, clause)))
  /\ parse_punishment_years (lit "Punishment: 3 to 7 years")
     = Ok (Some 7%Z, lit "3 to 7 years")
  /\ parse_punishment_years (lit "Punishment: imprisonment for life")
     = Ok (Some 999%Z, lit "imprisonment for life")
  /\ parse_punishment_years (lit "Punishment: death")
     = Ok (Some 1000%Z, lit "death").
Proof.
  cbv zeta.
  set (clause := punishment_text_of text).
  split; [| split; [| split; [| split; [| split]]]].
  - intros Hno.
    assert (Hc : clause = []) by by apply punishment_text_of_absent.
    unfold clause in Hc.
    rewrite parse_without_numbers; rewrite Hc; done.
  - intros Hr. apply year_ranges_found in Hr.
    destruct (year_ranges_of clause) as [| [a b] rs] eqn:Hrs; [done |].
    destruct (parse_with_ranges text (a, b) rs Hrs) as [H1 H2].
    split; [| exact H2].
    intros Hall. rewrite (H1 Hall).
    destruct (max_of_spec (int_of a)
                (int_of b :: range_bounds rs)) as [Hin Hle].
    eexists. split; [reflexivity |]. split; [exact Hin | exact Hle].
  - apply year_ranges_sound.
  - intros Hnr Hy.
    rewrite <- year_ranges_found in Hnr. apply year_matches_found in Hy.
    destruct (year_ranges_of clause) as [| r rs] eqn:Hrs;
      [| by destruct Hnr].
    destruct (year_matches_of clause) as [| y ys] eqn:Hys; [done |].
    destruct (parse_with_duration text y ys Hrs Hys) as [H1 H2].
    exists y, ys. split; [done |]. split; [| by split].
    apply year_matches_sound. rewrite Hys. apply list_elem_of_here.
  - intros Hnr Hny.
    rewrite <- year_ranges_found in Hnr.
    rewrite <- year_matches_found in Hny.
    destruct (year_ranges_of clause) as [| r rs] eqn:Hrs;
      [| by destruct Hnr].
    destruct (year_matches_of clause) as [| y ys] eqn:Hys;
      [| by destruct Hny].
    rewrite (parse_without_numbers text Hrs Hys). fold clause.
    rewrite <- !contains_spec.
    destruct (contains (lit "life") (lower clause));
      destruct (contains (lit "death") (lower clause)); by repeat split.
  - by vm_compute.
Qed.

(* ===================================================================== *)
(** * The corpus loader *)
(* ===================================================================== *)

Lemma parse_punishment_years_raises (text : str) (e : exn) :
  parse_punishment_years text = Raise e -> e = ValueError.
Proof.
  destruct (parse_punishment_years_cases text) as [H | [years H]];
    rewrite H; congruence.
Qed.

Lemma unreadable_years_spec (text : str) :
  (unreadable_years text = true
   <-> parse_punishment_years text = Raise ValueError)
  /\ (unreadable_years text = false
      <-> exists years,
            parse_punishment_years text
            = Ok (years, punishment_text_of text)).
Proof.
  unfold unreadable_years.
  destruct (parse_punishment_years_cases text) as [H | [years H]];
    rewrite H; split; split; try done.
  - by intros [? ?].
  - intros _. by exists years.
Qed.

Section LoaderProofs.

Variable json_loads : str -> result pyval.
Variable read_lines : str -> list str * option exn.

(** What the body of the inner [try] does, by the kind of line. *)
Lemma parse_line_cases (line : str) :
  match json_loads line with
  | Raise e => parse_line json_loads line = Raise e
  | Ok _ =>
      match entry_text json_loads line with
      | None => parse_line json_loads line = Raise AttributeError
      | Some t =>
          if skippable t then parse_line json_loads line = Ok None
          else if unreadable_years t
               then parse_line json_loads line = Raise ValueError
               else exists r, parse_line json_loads line = Ok (Some r)
                              /\ original_text r = t
                              /\ derived_from_text r
      end
  end.
Proof.
  unfold parse_line, entry_text.
  destruct (json_loads line) as [entry | e]; [| done].
  destruct entry as [s | | b | q | l | d]; try done.
  simpl. destruct (d !! lit "text") as [[t | | b | q | l | d'] |];
    simpl; try done.
  unfold skippable. rewrite orb_comm.
  destruct (_ || _); [done |].
  destruct (unreadable_years_spec t) as [Hbad Hgood].
  destruct (unreadable_years t).
  - destruct Hbad as [Hbad _]. by rewrite (Hbad eq_refl).
  - destruct Hgood as [Hgood _].
    destruct (Hgood eq_refl) as [years Hyears]. rewrite Hyears. simpl.
    destruct (summary_of_total t) as [s Hs]. rewrite Hs. simpl.
    eexists. split; [reflexivity |]. split; [done |].
    unfold derived_from_text. simpl. done.
Qed.

Lemma load_step_spec (st : loader_state) (line : str) :
  let st' := load_step json_loads st line in
  original_text <$> structured_data st'
  = (original_text <$> structured_data st)
      ++ option_list (kept_text json_loads line)
  /\ skipped_count st'
     = skipped_count st + (if counted_skip json_loads line then 1 else 0)
  /\ warnings st'
     = warnings st ++ option_list (warning_of json_loads line)
  /\ (Forall derived_from_text (structured_data st) ->
      Forall derived_from_text (structured_data st')).
Proof.
  pose proof (parse_line_cases line) as Hcase.
  assert (Hent : forall e, json_loads line = Raise e ->
                 entry_text json_loads line = None).
  { unfold entry_text. by intros e ->. }
  unfold load_step, kept_text, counted_skip, warning_of. cbv zeta.
  destruct (json_loads line) as [entry | e].
  - destruct (entry_text json_loads line) as [t |].
    + destruct (skippable t); [| destruct (unreadable_years t)];
        try destruct Hcase as (r & Hcase & <- & Hr);
        rewrite Hcase; simpl; rewrite ?fmap_app, ?app_nil_r;
        repeat split; try done; try lia.
      intros Hall. apply Forall_app. split; [done |]. by constructor.
    + rewrite Hcase; simpl; rewrite ?app_nil_r; repeat split; done || lia.
  - rewrite (Hent e eq_refl), Hcase.
    destruct e; simpl; rewrite ?app_nil_r; repeat split; done || lia.
Qed.

Lemma load_fold_spec (lines : list str) (st : loader_state) :
  let st' := fold_left (load_step json_loads) lines st in
  original_text <$> structured_data st'
  = (original_text <$> structured_data st)
      ++ omap (kept_text json_loads) lines
  /\ skipped_count st'
     = skipped_count st
       + length (filter (fun l => counted_skip json_loads l) lines)
  /\ warnings st' = warnings st ++ omap (warning_of json_loads) lines
  /\ (Forall derived_from_text (structured_data st) ->
      Forall derived_from_text (structured_data st')).
Proof.
  revert st. induction lines as [| line lines IH]; intros st; simpl.
  - rewrite !app_nil_r. repeat split; [lia | done].
  - destruct (IH (load_step json_loads st line)) as (H1 & H2 & H3 & H4).
    destruct (load_step_spec st line) as (S1 & S2 & S3 & S4).
    cbv zeta in *. rewrite H1, H2, H3, S1, S2, S3. clear H1 H2 H3 S1 S2 S3.
    rewrite filter_cons.
    destruct (kept_text json_loads line), (warning_of json_loads line),
      (counted_skip json_loads line); simpl;
      rewrite <- ?app_assoc; simpl;
      repeat split; try lia; tauto.
Qed.

Lemma load_loop_spec (lines : list str) :
  let st := load_loop json_loads lines in
  original_text <$> structured_data st = omap (kept_text json_loads) lines
  /\ skipped_count st
     = length (filter (fun l => counted_skip json_loads l) lines)
  /\ warnings st = omap (warning_of json_loads) lines
  /\ Forall derived_from_text (structured_data st).
Proof.
  destruct (load_fold_spec lines (mk_state [] 0 [])) as (H1 & H2 & H3 & H4).
  repeat split; try done. by apply H4.
Qed.

Lemma load_data_structured_Ok (file_path : str) (lines : list str) :
  read_lines file_path = (lines, None) ->
  exists records,
    load_data_structured json_loads read_lines file_path
    = (omap (warning_of json_loads) lines
         ++ [Info_loaded (length records)
               (length (filter (fun l => counted_skip json_loads l)
                               lines))],
       Ok records)
    /\ original_text <$> records = omap (kept_text json_loads) lines
    /\ Forall derived_from_text records.
Proof.
  intros Hread. unfold load_data_structured. rewrite Hread.
  destruct (load_loop_spec lines) as (H1 & H2 & H3 & H4).
  cbv zeta in *. eexists. split; [| by split].
  by rewrite H2, H3.
Qed.

(** What the load returns, it returns for a file read to its end. *)
Lemma load_data_structured_inv (file_path : str)
    (records : list ipc_record) :
  snd (load_data_structured json_loads read_lines file_path) = Ok records ->
  exists lines,
    read_lines file_path = (lines, None)
    /\ records = structured_data (load_loop json_loads lines).
Proof.
  unfold load_data_structured.
  destruct (read_lines file_path) as [lines [e |]]; simpl; [done |].
  intros [= <-]. by exists lines.
Qed.


(** C7, as the code has it.  The summary of a loaded record whose text
    holds "Punishment:" is the text after its first ":" up to the next
    "Punishment:" (to the end when there is none), stripped of
    surrounding whitespace; the summary of a record whose text holds no
    "Punishment:" is the text itself, leading label included. *)
Theorem summary_strips_label_only_with_punishment
    (file_path : str) (records : list ipc_record) (r : ipc_record) :
  snd (load_data_structured json_loads read_lines file_path) = Ok records ->
  r ∈ records ->
  (~ occurs (lit "Punishment:") (original_text r) ->
   description_summary r = original_text r)
  /\ (occurs (lit "Punishment:") (original_text r) ->
      exists label rest,
        first_cut (lit ":") (original_text r) label rest
        /\ (forall body tail,
              first_cut (lit "Punishment:") rest body tail ->
              description_summary r = strip body)
        /\ (~ occurs (lit "Punishment:") rest ->
            description_summary r = strip rest)).
Proof.
  intros Hload Hin.
  assert (Hsum : summary_of (original_text r) = Ok (description_summary r)).
  { apply load_data_structured_inv in Hload as (lines & _ & ->).
    destruct (load_loop_spec lines) as (_ & _ & _ & Hall).
    rewrite Forall_forall in Hall. by destruct (Hall r Hin) as (_ & ? & _). }
  split.
  - intros Hno. apply summary_of_without_clause in Hno. congruence.
  - intros Hocc.
    destruct (first_cut_exists (lit ":") (original_text r))
      as (label & rest & Hcut);
      [by apply occurs_colon_of_punishment |].
    exists label, rest. split; [done |].
    destruct (summary_of_with_clause _ _ _ Hocc Hcut) as [H1 H2].
    split.
    + intros body tail Hb. specialize (H1 _ _ Hb). congruence.
    + intros Hno. specialize (H2 Hno). congruence.
Qed.

End LoaderProofs.

(* ===================================================================== *)
(** * The numeric filter phrase *)
(* ===================================================================== *)

Lemma lower_greater_than : lower (lit "greater than ") = lit "greater than ".
Proof. reflexivity. Qed.

(** A year unit matched at [s] leaves the groups as they are. *)
Lemma year_unit_keeps_groups (s : str) (cs : Re.caps) (base : nat)
    (x : nat * Re.caps) :
  Re.bt true year_unit_re s cs (fun s' cs' => Some (base - length s', cs'))
  = Some x -> snd x = cs.
Proof.
  unfold year_unit_re. cbn [Re.bt]. rewrite !bt_str_re.
  destruct (startswith _ (lower (lit "years")));
    [by intros [= <-] |].
  destruct (startswith _ (lower (lit "year"))); [by intros [= <-] | done].
Qed.

(** After the number, blanks and an optional unit always match, and
    leave the groups as they are. *)
Lemma numeric_tail (s : str) (cs : Re.caps) (base : nat) :
  exists n,
    Re.bt true (cat [Re.Star Re.CSpace; Re.Opt year_unit_re]) s cs
          (fun s' cs' => Some (base - length s', cs'))
    = Some (n, cs).
Proof.
  unfold cat. cbn [foldr Re.bt].
  set (k1 := fun s' : str => _).
  assert (Hk1 : forall t, exists n, k1 t = Some (n, cs)).
  { intros t. unfold k1.
    destruct (Re.bt true year_unit_re t cs _) as [[n cs'] |] eqn:Hu.
    - apply year_unit_keeps_groups in Hu. simpl in Hu. subst. by exists n.
    - by eexists. }
  destruct (star_total (Re.cmatch true Re.CSpace) s k1) as [[n cs'] Hs].
  { intros t. destruct (Hk1 t) as [n ->]. done. }
  rewrite Hs. apply star_result in Hs as [t Ht].
  destruct (Hk1 t) as [n' Hn']. rewrite Hn' in Ht.
  injection Ht as <- <-. by exists n'.
Qed.

Lemma numeric_match_here_unfold (s : str) :
  Re.match_here true numeric_filter_re s
  = if startswith (lower s) (lit "greater than ")
    then Re.bt true
           (cat [Re.Group 1 (Re.Plus Re.CDigit); Re.Star Re.CSpace;
                 Re.Opt year_unit_re])
           (drop 13 s) []
           (fun s' cs' => Some (length s - length s', cs'))
    else None.
Proof.
  unfold Re.match_here, numeric_filter_re, cat.
  cbn [foldr]. cbn [Re.bt]. rewrite bt_str_re.
  by rewrite lower_greater_than.
Qed.

Lemma numeric_match_here_Some (s ds : str) :
  filter_phrase_at s ds ->
  exists len, Re.match_here true numeric_filter_re s = Some (len, [(1, ds)]).
Proof.
  intros (g & rest & -> & Hg & [Hne Hds] & Hstop).
  rewrite numeric_match_here_unfold.
  rewrite lower_app, Hg, startswith_app.
  assert (Hlen : length g = 13).
  { by rewrite <- (length_lower g), Hg. }
  rewrite drop_app_length' by done.
  destruct ds as [| d run]; [done |].
  apply Forall_cons in Hds as [Hd Hrun].
  unfold cat. cbn [foldr]. cbn [Re.bt app Re.cmatch]. rewrite Hd.
  set (k1 := fun s'' : str => _).
  assert (Hk1 : exists len, k1 rest = Some (len, [(1, d :: run)])).
  { unfold k1.
    replace (take _ _) with (d :: run).
    - apply (numeric_tail rest [(1, d :: run)]).
    - change (d :: run ++ rest) with ((d :: run) ++ rest).
      rewrite length_app.
      replace (length (d :: run) + length rest - length rest)
        with (length (d :: run)) by lia.
      by rewrite take_app_length. }
  destruct Hk1 as [len Hk1]. exists len.
  rewrite star_run; by rewrite ?Hk1.
Qed.

Lemma numeric_match_here_inv (s : str) :
  Re.match_here true numeric_filter_re s <> None ->
  exists ds, filter_phrase_at s ds.
Proof.
  rewrite numeric_match_here_unfold.
  destruct (startswith _ _) eqn:Hsw; [| done].
  apply startswith_spec in Hsw as [rest' Hl].
  apply lower_eq_app in Hl as (g & s1 & -> & Hg & _).
  assert (Hlen : length g = 13).
  { by rewrite <- (length_lower g), Hg. }
  rewrite drop_app_length' by done.
  unfold cat. cbn [foldr]. cbn [Re.bt].
  destruct s1 as [| d tl]; [done |].
  cbn [Re.cmatch]. destruct (Char.is_digit d) eqn:Hd; [| done].
  intros _.
  destruct (span_exists Char.is_digit tl) as (run & rest & -> & Hrun & Hstop).
  exists (d :: run), g, rest. repeat split; try done.
  by constructor.
Qed.

(** What [re.search] finds is the first filter phrase, and its group
    the digits of that phrase. *)
Lemma filter_match_first_digits (query ds : str) :
  (exists m, punishment_years_filter_match query = Some m
             /\ Re.group 1 m = ds)
  <-> first_filter_digits query ds.
Proof.
  unfold punishment_years_filter_match, Re.search. split.
  - intros (m & Hs & <-).
    apply search_from_Some in Hs
      as (before & t & len & cs & -> & Ht & -> & Hmin).
    destruct (numeric_match_here_inv t) as [ds Hds]; [by rewrite Ht |].
    destruct (numeric_match_here_Some t ds Hds) as [len' Hlen'].
    rewrite Hlen' in Ht. injection Ht as -> <-.
    exists before, t. repeat split; [done |].
    intros before' t' ds' Heq Hlt Hph.
    destruct (numeric_match_here_Some t' ds' Hph) as [l Hl].
    by rewrite (Hmin before' t' Heq Hlt) in Hl.
  - intros (before & t & -> & Hds & Hmin).
    destruct (numeric_match_here_Some t ds Hds) as [len Hlen].
    rewrite (search_from_first _ _ _ before t len [(1, ds)] Hlen);
      [by eexists |].
    intros before' t' Heq Hlt.
    destruct (Re.match_here true numeric_filter_re t') eqn:Ht'; [| done].
    destruct (numeric_match_here_inv t') as [ds' Hds']; [by rewrite Ht' |].
    by destruct (Hmin before' t' ds' Heq Hlt).
Qed.

(** The pattern is found exactly when "greater than" and a number occur
    in the query. *)
Lemma filter_match_active (query : str) :
  is_Some (punishment_years_filter_match query) <-> has_phrase query.
Proof.
  unfold punishment_years_filter_match, Re.search. split.
  - destruct (Re.search_from _ _ _ _) as [m |] eqn:Hs; [| by intros [? ?]].
    intros _.
    apply search_from_Some in Hs as (before & t & len & cs & -> & Ht & _).
    destruct (numeric_match_here_inv t)
      as (ds & g & rest & -> & Hg & Hds & _); [by rewrite Ht |].
    by exists before, g, ds, rest.
  - intros (before & g & ds & rest & -> & Hg & [Hne Hds]).
    destruct (Re.search_from _ _ _ _) as [m |] eqn:Hs; [done |].
    exfalso.
    rewrite search_from_None in Hs.
    specialize (Hs before (g ++ ds ++ rest) eq_refl).
    destruct (span_exists Char.is_digit rest)
      as (run & rest' & -> & Hrun & Hstop).
    destruct (numeric_match_here_Some (g ++ ds ++ run ++ rest') (ds ++ run))
      as [len Hlen]; [| congruence].
    exists g, rest'. rewrite <- app_assoc. repeat split; try done.
    + by destruct ds.
    + by apply Forall_app.
Qed.

(** The threshold, by the digits of the first filter phrase. *)
Lemma min_years_threshold_of_digits (query ds : str) :
  first_filter_digits query ds ->
  min_years_threshold query
  = if decide (readable ds) then Ok (Some (int_of ds))
    else Raise ValueError.
Proof.
  intros (m & Hm & <-)%filter_match_first_digits.
  unfold min_years_threshold. rewrite Hm.
  destruct (decide (readable (Re.group 1 m))) as [Hr | Hr].
  - by rewrite (py_int_readable _ Hr).
  - by rewrite (py_int_unreadable _ Hr).
Qed.

Lemma min_years_threshold_cases (query : str) :
  (~ has_phrase query /\ min_years_threshold query = Ok None)
  \/ exists ds,
       first_filter_digits query ds
       /\ min_years_threshold query
          = if decide (readable ds) then Ok (Some (int_of ds))
            else Raise ValueError.
Proof.
  destruct (punishment_years_filter_match query) as [m |] eqn:Hm.
  - right. exists (Re.group 1 m).
    assert (Hd : first_filter_digits query (Re.group 1 m)).
    { apply filter_match_first_digits. by exists m. }
    split; [done |]. by apply min_years_threshold_of_digits.
  - left. split.
    + intros H%filter_match_active. rewrite Hm in H. by destruct H.
    + unfold min_years_threshold. by rewrite Hm.
Qed.

Lemma min_years_threshold_first_phrase (query : str) (N : Z) :
  min_years_threshold query = Ok (Some N)
  <-> exists ds, first_filter_digits query ds /\ readable ds /\ N = int_of ds.
Proof.
  split.
  - intros Hthr.
    destruct (min_years_threshold_cases query) as [[_ H] | (ds & Hd & H)];
      rewrite H in Hthr; [done |].
    destruct (decide (readable ds)); [| done].
    injection Hthr as <-. by exists ds.
  - intros (ds & Hd & Hr & ->).
    rewrite (min_years_threshold_of_digits query ds Hd).
    by rewrite decide_True.
Qed.

Lemma min_years_threshold_inactive (query : str) :
  min_years_threshold query = Ok None <-> ~ has_phrase query.
Proof.
  split.
  - intros Hthr.
    destruct (min_years_threshold_cases query) as [[H _] | (ds & Hd & H)];
      [done |].
    rewrite H in Hthr. by destruct (decide (readable ds)).
  - intros Hno.
    destruct (min_years_threshold_cases query)
      as [[_ H] | (ds & (before & t & -> & Hat & _) & _)]; [done |].
    destruct Hno. destruct Hat as (g & rest & -> & Hg & Hds & _).
    by exists before, g, ds, rest.
Qed.

(** The threshold is refused only for a number of too many digits. *)
Lemma min_years_threshold_raises (query : str) (e : exn) :
  min_years_threshold query = Raise e
  <-> e = ValueError
      /\ exists ds, first_filter_digits query ds /\ ~ readable ds.
Proof.
  split.
  - intros Hthr.
    destruct (min_years_threshold_cases query) as [[_ H] | (ds & Hd & H)];
      rewrite H in Hthr; [done |].
    destruct (decide (readable ds)); [done |].
    injection Hthr as <-. split; [done |]. by exists ds.
  - intros (-> & ds & Hd & Hr).
    rewrite (min_years_threshold_of_digits query ds Hd).
    by rewrite decide_False.
Qed.

(* ===================================================================== *)
(** * Lists, slices and the stable sort *)
(* ===================================================================== *)

Lemma py_take_prefix {A} (l : list A) (k : Z) :
  exists rest, l = py_take l k ++ rest.
Proof.
  unfold py_take. destruct (0 <=? k)%Z.
  - exists (drop (Z.to_nat k) l). symmetry. apply take_drop.
  - exists (drop (length l - Z.to_nat (- k)) l). symmetry. apply take_drop.
Qed.

Lemma insert_desc_perm (x : str * Q) (l : list (str * Q)) :
  insert_desc x l ≡ₚ x :: l.
Proof.
  induction l as [| y l IH]; simpl; [reflexivity |].
  destruct (Qle_bool (snd y) (snd x)); [reflexivity |].
  rewrite IH. apply Permutation_swap.
Qed.

Lemma sorted_desc_perm (l : list (str * Q)) : sorted_desc l ≡ₚ l.
Proof.
  induction l as [| x l IH]; simpl; [reflexivity |].
  rewrite insert_desc_perm. by rewrite IH.
Qed.

Lemma insert_desc_sorted (x : str * Q) (l : list (str * Q)) :
  StronglySorted desc l -> StronglySorted desc (insert_desc x l).
Proof.
  induction l as [| y l IH]; intros Hs; simpl.
  - repeat constructor.
  - destruct (Qle_bool (snd y) (snd x)) eqn:Hle.
    + apply Qle_bool_iff in Hle.
      constructor; [exact Hs |].
      constructor; [exact Hle |].
      apply StronglySorted_inv in Hs as [_ Hall].
      eapply Forall_impl; [exact Hall |].
      intros z Hz. unfold desc in *. eapply Qle_trans; eassumption.
    + assert (Hlt : (snd x < snd y)%Q).
      { apply Qnot_le_lt. intros H. apply Qle_bool_iff in H. congruence. }
      apply StronglySorted_inv in Hs as [Hs Hall].
      constructor; [by apply IH |].
      rewrite (insert_desc_perm x l).
      constructor; [by apply Qlt_le_weak | exact Hall].
Qed.

Lemma sorted_desc_sorted (l : list (str * Q)) :
  StronglySorted desc (sorted_desc l).
Proof.
  induction l as [| x l IH]; simpl; [constructor |].
  by apply insert_desc_sorted.
Qed.

Lemma StronglySorted_app_l {A} (R : A -> A -> Prop) (l1 l2 : list A) :
  StronglySorted R (l1 ++ l2) -> StronglySorted R l1.
Proof.
  induction l1 as [| x l1 IH]; simpl; intros Hs; [constructor |].
  apply StronglySorted_inv in Hs as [Hs Hall].
  constructor; [by apply IH |].
  by apply Forall_app in Hall as [? _].
Qed.

Lemma StronglySorted_map_inv {A B} (f : A -> B) (R : B -> B -> Prop)
    (l : list A) :
  StronglySorted (fun a b => R (f a) (f b)) l -> StronglySorted R (f <$> l).
Proof.
  induction 1 as [| x l _ IH Hall]; simpl; constructor; [done |].
  by apply Forall_fmap.
Qed.

Lemma fst_zip_take {A B} (l : list A) (k : list B) :
  (zip l k).*1 = take (length k) l.
Proof.
  revert k. induction l as [| x l IH]; intros [| y k]; simpl; try done.
  by rewrite IH.
Qed.

Lemma earlier_cons {A} (x : A) (l : list A) (a b : A) :
  earlier l a b -> earlier (x :: l) a b.
Proof.
  intros (i & j & Hlt & Hi & Hj). exists (S i), (S j).
  split; [lia |]. by split.
Qed.

Lemma earlier_head {A} (x : A) (l : list A) (b : A) :
  b ∈ l -> earlier (x :: l) x b.
Proof.
  intros (j & Hj)%list_elem_of_lookup_1. exists 0, (S j).
  split; [lia |]. by split.
Qed.

Lemma earlier_fmap {A B} (f : A -> B) (l : list A) (a b : B) :
  earlier (f <$> l) a b ->
  exists a' b', a = f a' /\ b = f b' /\ earlier l a' b'.
Proof.
  intros (i & j & Hlt & Hi & Hj).
  apply list_lookup_fmap_Some in Hi as (a' & -> & Hi).
  apply list_lookup_fmap_Some in Hj as (b' & -> & Hj).
  exists a', b'. split; [done |]. split; [done |]. by exists i, j.
Qed.

Lemma StronglySorted_lookup_lt {A} (R : A -> A -> Prop) (l : list A)
    (i j : nat) (a b : A) :
  StronglySorted R l -> l !! i = Some a -> l !! j = Some b -> i < j ->
  R a b.
Proof.
  intros Hs. revert i j.
  induction Hs as [| x l _ IH Hall]; intros i j Hi Hj Hlt; [done |].
  destruct j as [| j]; [lia |]. simpl in Hj.
  destruct i as [| i]; simpl in Hi.
  - injection Hi as ->. rewrite Forall_forall in Hall.
    apply Hall. by eapply list_elem_of_lookup_2.
  - apply (IH i j); [done | done | lia].
Qed.

Lemma StronglySorted_mono {A} (R R' : A -> A -> Prop) (l : list A) :
  (forall a b, R a b -> R' a b) ->
  StronglySorted R l -> StronglySorted R' l.
Proof.
  intros Himp. induction 1 as [| x l _ IH Hall]; constructor; [done |].
  eapply Forall_impl; [exact Hall |]. intros z. apply Himp.
Qed.

(** Insertion keeps any order [R] that agrees with the comparison the
    insertion makes. *)
Lemma insert_desc_sorted_rel (R : str * Q -> str * Q -> Prop)
    (x : str * Q) (s : list (str * Q)) :
  StronglySorted desc s ->
  StronglySorted R s ->
  (forall z, z ∈ s -> (snd z <= snd x)%Q -> R x z) ->
  (forall y, y ∈ s -> (snd x < snd y)%Q -> R y x) ->
  StronglySorted R (insert_desc x s).
Proof.
  induction s as [| y s IH]; intros Hdesc Hs Hle Hgt; simpl.
  - repeat constructor.
  - destruct (Qle_bool (snd y) (snd x)) eqn:Hyx.
    + apply Qle_bool_iff in Hyx.
      constructor; [done |].
      apply StronglySorted_inv in Hdesc as [_ Hall].
      rewrite Forall_forall in Hall |- *.
      intros z Hz. apply Hle; [done |].
      apply elem_of_cons in Hz as [-> | Hz]; [done |].
      eapply Qle_trans; [apply (Hall z Hz) | done].
    + assert (Hlt : (snd x < snd y)%Q).
      { apply Qnot_le_lt. intros H. apply Qle_bool_iff in H. congruence. }
      apply StronglySorted_inv in Hdesc as [Hdesc _].
      apply StronglySorted_inv in Hs as [Hs Hall].
      constructor.
      * apply IH; [done | done | |].
        -- intros z Hz. apply Hle. by apply list_elem_of_further.
        -- intros z Hz. apply Hgt. by apply list_elem_of_further.
      * rewrite (insert_desc_perm x s).
        constructor; [| done].
        apply Hgt; [apply list_elem_of_here | done].
Qed.

(** The sort is stable. *)
Lemma sorted_desc_stable (l : list (str * Q)) :
  StronglySorted (stable_desc l) (sorted_desc l).
Proof.
  induction l as [| x l IH]; simpl; [constructor |].
  apply insert_desc_sorted_rel.
  - apply sorted_desc_sorted.
  - eapply StronglySorted_mono; [| exact IH].
    intros a b [H | [H1 H2]]; [by left | right].
    split; [done | by apply earlier_cons].
  - intros z Hz Hle. rewrite sorted_desc_perm in Hz.
    destruct (Qlt_le_dec (snd z) (snd x)) as [Hlt | Hge]; [by left |].
    right. split; [by apply Qle_antisym | by apply earlier_head].
  - intros y _ Hlt. by left.
Qed.

(** A list already in descending order is left as it is. *)
Lemma sorted_desc_fixed (l : list (str * Q)) :
  StronglySorted desc l -> sorted_desc l = l.
Proof.
  induction 1 as [| x l _ IH Hall]; simpl; [done |].
  rewrite IH. destruct l as [| y l]; [done |]. simpl.
  apply Forall_cons in Hall as [Hy _]. unfold desc in Hy.
  apply Qle_bool_iff in Hy. by rewrite Hy.
Qed.

Lemma length_py_take {A} (l : list A) (k : Z) :
  length (py_take l k)
  = if (0 <=? k)%Z then Z.to_nat k `min` length l
    else length l - Z.to_nat (- k).
Proof.
  unfold py_take. destruct (0 <=? k)%Z; rewrite length_take; lia.
Qed.

(* ===================================================================== *)
(** * The re-ranker *)
(* ===================================================================== *)

Lemma fmap_py_take {A B} (f : A -> B) (l : list A) (k : Z) :
  f <$> py_take l k = py_take (f <$> l) k.
Proof.
  unfold py_take. rewrite length_fmap.
  by destruct (0 <=? k)%Z; rewrite fmap_take.
Qed.


(** Whatever the scores, the output and some rest make up a prefix of
    the input. *)
Lemma ranked_within_prefix (docs : list str) (scores : list Q) (k : Z) :
  exists rest, ranked docs scores k ++ rest ≡ₚ take (length scores) docs.
Proof.
  unfold ranked. cbv zeta.
  destruct (py_take_prefix (sorted_desc (zip docs scores)) k)
    as [rest Hrest].
  exists (rest.*1).
  rewrite <- fmap_app, <- Hrest, sorted_desc_perm.
  by rewrite fst_zip_take.
Qed.

Lemma ranked_subseteq (docs : list str) (scores : list Q) (k : Z) :
  ranked docs scores k ⊆ docs.
Proof.
  destruct (ranked_within_prefix docs scores k) as [rest Hp].
  intros x Hx.
  eapply elem_of_sublist; [| apply sublist_take].
  rewrite <- Hp. apply elem_of_app. by left.
Qed.

Lemma ranked_NoDup (docs : list str) (scores : list Q) (k : Z) :
  NoDup docs -> NoDup (ranked docs scores k).
Proof.
  intros Hnd.
  destruct (ranked_within_prefix docs scores k) as [rest Hp].
  assert (Hnd' : NoDup (ranked docs scores k ++ rest)).
  { rewrite Hp. eapply sublist_NoDup; [done | apply sublist_take]. }
  by apply NoDup_app in Hnd' as [? _].
Qed.

Lemma ranked_length (docs : list str) (scores : list Q) (k : Z) :
  length (ranked docs scores k)
  = if (0 <=? k)%Z
    then Z.to_nat k `min` (length docs `min` length scores)
    else (length docs `min` length scores) - Z.to_nat (- k).
Proof.
  unfold ranked. cbv zeta.
  rewrite length_fmap, length_py_take.
  by rewrite (Permutation_length (sorted_desc_perm _)), length_zip.
Qed.

Lemma zip_scores (score : str * str -> Q) (query : str) (docs : list str) :
  zip docs (score <$> ((fun doc => (query, doc)) <$> docs))
  = (fun doc => (doc, score (query, doc))) <$> docs.
Proof. induction docs as [| d docs IH]; csimpl; [done |]. by rewrite IH. Qed.

Lemma stable_by_score_by_score (score : str * str -> Q) (query : str)
    (docs : list str) (a b : str) :
  stable_by_score score query docs a b -> by_score score query a b.
Proof.
  unfold by_score. intros [Hlt | [Heq _]].
  - by apply Qlt_le_weak.
  - rewrite Heq. apply Qle_refl.
Qed.

(** The whole ranking of the candidates by a score per pair: every
    candidate once, higher scores first and equal scores in the order of
    the candidates; the re-ranker's sort and cut is its [[:k]]. *)
Lemma ranked_stable_ranking (score : str * str -> Q) (query : str)
    (docs : list str) :
  exists ranking,
    ranking ≡ₚ docs
    /\ StronglySorted (stable_by_score score query docs) ranking
    /\ forall k,
         ranked docs (score <$> ((fun doc => (query, doc)) <$> docs)) k
         = py_take ranking k.
Proof.
  set (tag := fun doc => (doc, score (query, doc))).
  set (scored := sorted_desc (tag <$> docs)).
  exists (scored.*1). split; [| split].
  - unfold scored. rewrite sorted_desc_perm, <- list_fmap_compose.
    by rewrite list_fmap_id.
  - assert (Htag : Forall (fun p => snd p = score (query, fst p)) scored).
    { unfold scored. rewrite sorted_desc_perm.
      apply Forall_fmap, Forall_true. done. }
    assert (Hs : StronglySorted (stable_desc (tag <$> docs)) scored)
      by apply sorted_desc_stable.
    apply StronglySorted_map_inv.
    induction Hs as [| p l Hs IH Hall]; constructor.
    + apply IH. by apply Forall_cons in Htag as [_ ?].
    + apply Forall_cons in Htag as [Hp Hl].
      rewrite Forall_forall in Hall, Hl |- *.
      intros z Hz. unfold stable_by_score.
      rewrite <- Hp, <- (Hl z Hz).
      destruct (Hall z Hz) as [Hlt | [Heq Hearlier]]; [by left | right].
      split; [done |].
      apply earlier_fmap in Hearlier as (a & b & -> & -> & Hab). done.
  - intros k. unfold ranked. cbv zeta.
    by rewrite zip_scores, fmap_py_take.
Qed.

(** What a cut of a ranking keeps. *)
Lemma py_take_ranking (score : str * str -> Q) (query : str)
    (docs ranking : list str) (k : Z) :
  ranking ≡ₚ docs ->
  StronglySorted (stable_by_score score query docs) ranking ->
  py_take ranking k ⊆ docs
  /\ (NoDup docs -> NoDup (py_take ranking k))
  /\ StronglySorted (by_score score query) (py_take ranking k)
  /\ StronglySorted (stable_by_score score query docs) (py_take ranking k)
  /\ length (py_take ranking k)
     = (if (0 <=? k)%Z then Z.to_nat k `min` length docs
        else length docs - Z.to_nat (- k)).
Proof.
  intros Hperm Hs.
  destruct (py_take_prefix ranking k) as [rest Hrest].
  assert (Hstable : StronglySorted (stable_by_score score query docs)
                      (py_take ranking k)).
  { rewrite Hrest in Hs. by apply StronglySorted_app_l in Hs. }
  repeat split.
  - intros x Hx. rewrite <- Hperm, Hrest. apply elem_of_app. by left.
  - intros Hnd. rewrite <- Hperm, Hrest in Hnd.
    by apply NoDup_app in Hnd as [? _].
  - eapply StronglySorted_mono; [| exact Hstable].
    apply stable_by_score_by_score.
  - done.
  - by rewrite length_py_take, (Permutation_length Hperm).
Qed.

Section RerankAnyModel.

Variable predict : list (str * str) -> result (list Q).

(** The re-ranker returns what the sort and cut make of the model's
  scores, and raises what the model raises. *)
Lemma rerank_Ok (query : str) (docs : list str) (k : Z) (out : list str) :
rerank predict query docs k = Ok out
<-> exists scores,
      predict ((fun doc => (query, doc)) <$> docs) = Ok scores
      /\ out = ranked docs scores k.
Proof.
unfold rerank. cbv zeta.
destruct (predict _) as [scores | e]; simpl; split.
- intros [= <-]. by exists scores.
- by intros (s & [= <-] & ->).
- done.
- by intros (s & ? & _).
Qed.

Lemma rerank_Raise (query : str) (docs : list str) (k : Z) (e : exn) :
rerank predict query docs k = Raise e
<-> predict ((fun doc => (query, doc)) <$> docs) = Raise e.
Proof.
unfold rerank. cbv zeta.
destruct (predict _) as [scores | e']; simpl; split; intros H; try done.
all: by injection H as ->.
Qed.

Lemma rerank_subseteq (query : str) (docs : list str) (k : Z)
  (out : list str) :
rerank predict query docs k = Ok out -> out ⊆ docs.
Proof. intros (scores & _ & ->)%rerank_Ok. apply ranked_subseteq. Qed.

Lemma rerank_NoDup (query : str) (docs : list str) (k : Z)
  (out : list str) :
NoDup docs -> rerank predict query docs k = Ok out -> NoDup out.
Proof. intros Hnd (scores & _ & ->)%rerank_Ok. by apply ranked_NoDup. Qed.

Lemma numeric_path_rerank (query : str) (filtered : list str) :
numeric_path predict query filtered
= match filtered with
  | [] => Ok []
  | _ :: _ => rerank predict query filtered numeric_top
  end.
Proof. unfold numeric_path. by destruct filtered. Qed.

End RerankAnyModel.

Section RerankScores.

Variable predict : list (str * str) -> result (list Q).
Variable score : str * str -> Q.

(** The model gives each pair its score, in order. *)
Hypothesis predict_scores :
forall pairs, predict pairs = Ok (score <$> pairs).

Lemma rerank_scores (query : str) (docs : list str) (k : Z) :
rerank predict query docs k
= Ok (ranked docs (score <$> ((fun doc => (query, doc)) <$> docs)) k).
Proof. unfold rerank. cbv zeta. by rewrite predict_scores. Qed.

(** ** C4 *)


End RerankScores.

(* ===================================================================== *)
(** * Vector candidates *)
(* ===================================================================== *)

Lemma py_index_in_range {A} (l : list A) (i : Z) :
  (0 <= i < Z.of_nat (length l))%Z ->
  exists x, l !! Z.to_nat i = Some x /\ py_index l i = Ok x.
Proof.
  intros Hi. unfold py_index. cbv zeta.
  destruct (Z.ltb_spec i 0) as [? | _]; [lia |].
  destruct (Z.leb_spec 0 i) as [_ | ?]; [| lia].
  destruct (Z.ltb_spec i (Z.of_nat (length l))) as [_ | ?]; [| lia].
  simpl.
  destruct (lookup_lt_is_Some_2 l (Z.to_nat i)) as [x Hx]; [lia |].
  exists x. by rewrite Hx.
Qed.

Lemma semantic_loop_spec (metadata : list str) (indices : list Z)
    (acc : list str) :
  semantic_loop metadata indices acc
  = Ok (acc ++ omap (text_at metadata) indices).
Proof.
  revert acc. induction indices as [| idx rest IH]; intros acc; simpl.
  - by rewrite app_nil_r.
  - unfold text_at at 1.
    destruct ((0 <=? idx) && (idx <? Z.of_nat (length metadata)))%Z eqn:Hin.
    + apply andb_true_iff in Hin as [H0 H1].
      apply Z.leb_le in H0. apply Z.ltb_lt in H1.
      destruct (py_index_in_range metadata idx) as (x & Hx & ->); [lia |].
      rewrite Hx. simpl. rewrite IH. by rewrite <- app_assoc.
    + apply IH.
Qed.

(** C9. Whatever indices the vector index returns, negative or beyond the
    metadata list included, the candidate loop does not fail: it returns
    the texts at the in-range indices, in order, and passes over the
    others. *)
Theorem semantic_matches_skips_out_of_range
    (metadata : list str) (indices : list Z) :
  semantic_matches metadata indices = Ok (omap (text_at metadata) indices)
  /\ (forall idx, (0 <= idx < Z.of_nat (length metadata))%Z ->
        text_at metadata idx = metadata !! Z.to_nat idx
        /\ is_Some (text_at metadata idx))
  /\ (forall idx, (idx < 0 \/ Z.of_nat (length metadata) <= idx)%Z ->
        text_at metadata idx = None).
Proof.
  split; [apply semantic_loop_spec |].
  split; intros idx Hidx; unfold text_at.
  - destruct (Z.leb_spec 0 idx); [| lia].
    destruct (Z.ltb_spec idx (Z.of_nat (length metadata))); [| lia].
    simpl. split; [done |]. apply lookup_lt_is_Some_2. lia.
  - destruct (Z.leb_spec 0 idx); [| done].
    destruct (Z.ltb_spec idx (Z.of_nat (length metadata))); [lia | done].
Qed.

(* ===================================================================== *)
(** * Merge and de-duplication *)
(* ===================================================================== *)

Lemma merge_loop_unseen (items combined : list str) (seen : gset str) :
  fst (fold_left merge_step items (combined, seen))
  = combined ++ unseen seen items.
Proof.
  revert combined seen.
  induction items as [| item rest IH]; intros combined seen; simpl.
  - by rewrite app_nil_r.
  - destruct (decide (item ∈ seen)); rewrite IH; [done |].
    by rewrite <- app_assoc.
Qed.

Lemma merge_dedup_unseen (keyword exact semantic : list str) :
  merge_dedup keyword exact semantic
  = unseen ∅ (keyword ++ exact ++ semantic).
Proof. unfold merge_dedup. by rewrite merge_loop_unseen. Qed.

Lemma elem_of_unseen (seen : gset str) (items : list str) (x : str) :
  x ∈ unseen seen items <-> x ∈ items /\ x ∉ seen.
Proof.
  revert seen. induction items as [| item rest IH]; intros seen; simpl.
  - set_solver.
  - destruct (decide (item ∈ seen)).
    + rewrite IH. set_solver.
    + rewrite elem_of_cons, IH. destruct (decide (x = item)); set_solver.
Qed.

Lemma NoDup_unseen (seen : gset str) (items : list str) :
  NoDup (unseen seen items).
Proof.
  revert seen. induction items as [| item rest IH]; intros seen; simpl.
  - constructor.
  - destruct (decide (item ∈ seen)); [apply IH |].
    constructor; [| apply IH].
    rewrite elem_of_unseen. set_solver.
Qed.

(** In the output of the loop, an earlier text has an occurrence in the
    input before every occurrence of a later one. *)
Lemma unseen_order (seen : gset str) (items : list str)
    (i j : nat) (x y : str) :
  unseen seen items !! i = Some x ->
  unseen seen items !! j = Some y ->
  i < j ->
  exists i', items !! i' = Some x
             /\ forall j', items !! j' = Some y -> i' < j'.
Proof.
  revert seen i j.
  induction items as [| item rest IH]; intros seen i j Hi Hj Hlt;
    simpl in *; [done |].
  destruct (decide (item ∈ seen)) as [Hseen | Hnew].
  - destruct (IH _ _ _ Hi Hj Hlt) as (i' & Hx & Hy).
    exists (S i'). split; [done |].
    intros [| j'] Hj'; simpl in Hj'.
    + injection Hj' as ->.
      apply list_elem_of_lookup_2, elem_of_unseen in Hj. tauto.
    + apply Hy in Hj'. lia.
  - destruct j as [| j]; [lia |]. simpl in Hj.
    assert (Hy_new : y <> item).
    { apply list_elem_of_lookup_2, elem_of_unseen in Hj. set_solver. }
    destruct i as [| i]; simpl in Hi.
    + injection Hi as ->. exists 0. split; [done |].
      intros [| j'] Hj'; simpl in Hj'; [congruence | lia].
    + destruct (IH _ _ _ Hi Hj ltac:(lia)) as (i' & Hx & Hy).
      exists (S i'). split; [done |].
      intros [| j'] Hj'; simpl in Hj'; [congruence |].
      apply Hy in Hj'. lia.
Qed.

Lemma merge_dedup_distinct_members
    (keyword exact semantic : list str) :
  NoDup (merge_dedup keyword exact semantic)
  /\ (forall x, x ∈ merge_dedup keyword exact semantic
                <-> x ∈ keyword ++ exact ++ semantic).
Proof.
  rewrite merge_dedup_unseen. split; [apply NoDup_unseen |].
  intros x. rewrite elem_of_unseen. set_solver.
Qed.

(** C3. The merge of the keyword, exact-identifier and vector candidates
    holds every distinct text of the three lists exactly once, in the
    order of first occurrence in keyword ++ exact ++ vector; two
    candidates are the same when their texts are equal. *)
Theorem merge_dedup_first_occurrence_order
    (keyword exact semantic : list str) :
  let merged := merge_dedup keyword exact semantic in
  let candidates := keyword ++ exact ++ semantic in
  NoDup merged
  /\ (forall x, x ∈ merged <-> x ∈ candidates)
  /\ (forall i j x y,
        merged !! i = Some x -> merged !! j = Some y -> i < j ->
        exists i', candidates !! i' = Some x
                   /\ forall j', candidates !! j' = Some y -> i' < j').
Proof.
  cbv zeta. rewrite merge_dedup_unseen. split; [| split].
  - apply NoDup_unseen.
  - intros x. rewrite elem_of_unseen. set_solver.
  - intros i j x y. apply unseen_order.
Qed.

(* ===================================================================== *)
(** * The orchestrator *)
(* ===================================================================== *)

Section Orchestrator.

Variable predict : list (str * str) -> result (list Q).
Variable search_index : str -> Z -> result (list Z).

Lemma elem_of_filtered (threshold : Z) (data : list ipc_record) (t : str) :
t ∈ filtered_by_condition threshold data
<-> exists item y, item ∈ data /\ original_text item = t
                   /\ punishment_years item = Some y
                   /\ (threshold < y)%Z.
Proof.
unfold filtered_by_condition. rewrite list_elem_of_fmap. split.
- intros (item & -> & Hin). apply list_elem_of_filter in Hin as [Hex Hin].
  unfold exceeds in Hex.
  destruct (punishment_years item) as [y |] eqn:Hy; [| done].
  exists item, y. repeat split; try done.
  apply Is_true_true in Hex. by apply Z.ltb_lt.
- intros (item & y & Hin & <- & Hy & Hlt). exists item. split; [done |].
  apply list_elem_of_filter. split; [| done].
  unfold exceeds. rewrite Hy. apply Is_true_true. by apply Z.ltb_lt.
Qed.

Lemma filtered_empty (threshold : Z) (data : list ipc_record) :
none_exceeds threshold data -> filtered_by_condition threshold data = [].
Proof.
intros Hnone.
destruct (filtered_by_condition threshold data) as [| t ts] eqn:Hf;
  [done |].
assert (Ht : t ∈ filtered_by_condition threshold data).
{ rewrite Hf. apply list_elem_of_here. }
apply elem_of_filtered in Ht as (item & y & Hin & _ & Hy & Hlt).
by destruct (Hnone item y Hin Hy).
Qed.

Lemma none_exceeds_of_filtered_empty (threshold : Z)
  (data : list ipc_record) :
filtered_by_condition threshold data = [] -> none_exceeds threshold data.
Proof.
intros Hnil item y Hin Hy Hlt.
assert (Ht : original_text item ∈ filtered_by_condition threshold data).
{ apply elem_of_filtered. by exists item, y. }
rewrite Hnil in Ht. by apply not_elem_of_nil in Ht.
Qed.

(** The hybrid path is the vector search, then candidate generation,
  merge and re-ranking in that order; the guarded metadata lookup
  raises nothing of its own. *)
Lemma hybrid_path_unfold (query : str) (data : list ipc_record)
  (metadata : list str) (k_initial k_final : Z) :
hybrid_path predict search_index query data metadata k_initial k_final
= match search_index query k_initial with
  | Raise e => Raise e
  | Ok indices =>
      match merge_dedup
              (keyword_matches query data)
              (retrieved_sections query metadata)
              (omap (text_at metadata) indices)
      with
      | [] => Ok []
      | (_ :: _) as combined => rerank predict query combined k_final
      end
  end.
Proof.
unfold hybrid_path, semantic_matches. cbv zeta.
destruct (search_index query k_initial) as [indices | e]; [| done].
simpl. rewrite semantic_loop_spec. simpl.
by destruct (merge_dedup _ _ _).
Qed.

(** The orchestrator by the digits of the first filter phrase. *)
Lemma retrieve_of_digits (query : str) (data : list ipc_record)
  (metadata : list str) (k_initial k_final : Z) (ds : str) :
first_filter_digits query ds ->
retrieve_relevant_ipc_hybrid predict search_index
  query data metadata k_initial k_final
= if decide (readable ds)
  then match filtered_by_condition (int_of ds) data with
       | (_ :: _) as filtered =>
           ([St_info_filter (int_of ds)],
            numeric_path predict query filtered)
       | [] =>
           ([St_info_filter (int_of ds); St_warning_no_match],
            hybrid_path predict search_index query data metadata
                        k_initial k_final)
       end
  else ([], Raise ValueError).
Proof.
intros Hd. unfold retrieve_relevant_ipc_hybrid.
rewrite (min_years_threshold_of_digits query ds Hd).
by destruct (decide (readable ds)).
Qed.

(** ** C2 *)

(** C2, as the code has it.  When the numeric phrase is found in the
  query, its number has at most 4300 digits and no record has a
  punishment above it, the orchestrator does not answer with the empty
  list at once: after the advisory it runs the hybrid path, and its
  result is the hybrid path's result for that query: the vector
  search, then candidate generation, merge and re-ranking.  When the
  number has more than 4300 digits the conversion of the number raises
  ValueError before anything is shown or searched. *)
Theorem empty_numeric_filter_falls_back_to_hybrid
  (query : str) (data : list ipc_record) (metadata : list str)
  (k_initial k_final : Z) (ds : str) :
first_filter_digits query ds ->
none_exceeds (int_of ds) data ->
let hybrid :=
  hybrid_path predict search_index query data metadata
              k_initial k_final in
let retrieved :=
  retrieve_relevant_ipc_hybrid predict search_index
    query data metadata k_initial k_final in
(readable ds ->
   min_years_threshold query = Ok (Some (int_of ds))
   /\ retrieved
      = ([St_info_filter (int_of ds); St_warning_no_match], hybrid))
/\ (~ readable ds ->
      min_years_threshold query = Raise ValueError
      /\ retrieved = ([], Raise ValueError))
/\ hybrid
   = match search_index query k_initial with
     | Raise e => Raise e
     | Ok indices =>
         match merge_dedup
                 (keyword_matches query data)
                 (retrieved_sections query metadata)
                 (omap (text_at metadata) indices)
         with
         | [] => Ok []
         | (_ :: _) as combined => rerank predict query combined k_final
         end
     end.
Proof.
intros Hd Hnone. cbv zeta.
rewrite (retrieve_of_digits _ _ _ _ _ _ Hd).
rewrite (min_years_threshold_of_digits _ _ Hd).
rewrite (filtered_empty _ _ Hnone).
split; [| split].
- intros Hr. by destruct (decide (readable ds)).
- intros Hr. by destruct (decide (readable ds)).
- apply hybrid_path_unfold.
Qed.

Lemma retrieved_sections_subseteq (query : str) (metadata : list str) :
retrieved_sections query metadata ⊆ metadata.
Proof.
unfold retrieved_sections.
destruct (Re.search _ _ _) as [m |]; [| set_solver].
destruct (list_find _ _) as [[i t] |] eqn:Hfind; [| set_solver].
apply list_find_Some in Hfind as (Hi & _).
intros x Hx. apply list_elem_of_singleton in Hx as ->.
by eapply list_elem_of_lookup_2.
Qed.

Lemma text_at_subseteq (metadata : list str) (indices : list Z) :
omap (text_at metadata) indices ⊆ metadata.
Proof.
intros x Hx. apply list_elem_of_omap in Hx as (idx & _ & Hidx).
unfold text_at in Hidx. destruct (_ && _)%Z; [| done].
by eapply list_elem_of_lookup_2.
Qed.

Lemma keyword_matches_from_corpus (query : str) (data : list ipc_record)
  (t : str) :
t ∈ keyword_matches query data -> text_of_corpus data t.
Proof.
unfold keyword_matches. destruct (mentions_child query); [| set_solver].
intros (item & -> & Hin)%list_elem_of_fmap.
apply list_elem_of_filter in Hin as [_ Hin]. by exists item.
Qed.

(** What the hybrid path returns is made of distinct texts, each from
  the corpus or from the metadata list. *)
Lemma hybrid_path_distinct_known (query : str) (data : list ipc_record)
  (metadata : list str) (k_initial k_final : Z) (out : list str) :
hybrid_path predict search_index query data metadata
            k_initial k_final = Ok out ->
NoDup out
/\ forall t, t ∈ out -> text_of_corpus data t \/ t ∈ metadata.
Proof.
rewrite hybrid_path_unfold.
destruct (search_index query k_initial) as [indices | e]; [| done].
pose proof (merge_dedup_distinct_members
              (keyword_matches query data)
              (retrieved_sections query metadata)
              (omap (text_at metadata) indices))
  as (Hnd & Hin).
destruct (merge_dedup _ _ _) as [| c combined] eqn:Hm.
{ intros [= <-]. split; [constructor | set_solver]. }
intros Hout. split; [by eapply rerank_NoDup |].
intros t Ht. eapply rerank_subseteq in Ht; [| exact Hout].
apply Hin in Ht.
rewrite !elem_of_app in Ht. destruct Ht as [Ht | [Ht | Ht]].
- left. by eapply keyword_matches_from_corpus.
- right. by eapply retrieved_sections_subseteq.
- right. by eapply text_at_subseteq.
Qed.

(** The hybrid path raises only what the search or the model raises. *)
Lemma hybrid_path_raises (query : str) (data : list ipc_record)
  (metadata : list str) (k_initial k_final : Z) (e : exn) :
hybrid_path predict search_index query data metadata
            k_initial k_final = Raise e ->
search_index query k_initial = Raise e
\/ exists pairs, predict pairs = Raise e.
Proof.
rewrite hybrid_path_unfold.
destruct (search_index query k_initial) as [indices | e'];
  [| intros [= <-]; by left].
destruct (merge_dedup _ _ _) as [| c combined]; [done |].
intros He%rerank_Raise. right. by eexists.
Qed.

(** The numeric path returns texts of records above the threshold. *)
Lemma numeric_path_subseteq (query : str) (filtered out : list str) :
numeric_path predict query filtered = Ok out -> out ⊆ filtered.
Proof.
rewrite numeric_path_rerank. destruct filtered.
- by intros [= <-].
- apply rerank_subseteq.
Qed.

Lemma numeric_path_raises (query : str) (filtered : list str) (e : exn) :
numeric_path predict query filtered = Raise e ->
exists pairs, predict pairs = Raise e.
Proof.
rewrite numeric_path_rerank. destruct filtered; [done |].
intros He%rerank_Raise. by eexists.
Qed.

(** On either path every text returned is one the retriever was given. *)
Lemma retrieve_returns_known_texts (query : str)
  (data : list ipc_record) (metadata : list str)
  (k_initial k_final : Z) (out : list str) :
snd (retrieve_relevant_ipc_hybrid predict search_index
       query data metadata k_initial k_final) = Ok out ->
forall t, t ∈ out -> text_of_corpus data t \/ t ∈ metadata.
Proof.
unfold retrieve_relevant_ipc_hybrid.
destruct (min_years_threshold query) as [[threshold |] | e]; [| | done].
- destruct (filtered_by_condition threshold data) as [| t0 ts] eqn:Hf.
  + simpl. intros Hout. by eapply hybrid_path_distinct_known.
  + simpl. intros Hout t Ht. left.
    eapply numeric_path_subseteq in Ht; [| exact Hout].
    rewrite <- Hf in Ht.
    apply elem_of_filtered in Ht as (item & _ & Hin & Heq & _).
    by exists item.
- simpl. intros Hout. by eapply hybrid_path_distinct_known.
Qed.

(** What the retriever raises comes from the conversion of a number of
  too many digits, from the search or from the model. *)
Lemma retrieve_raises (query : str)
  (data : list ipc_record) (metadata : list str)
  (k_initial k_final : Z) (e : exn) :
snd (retrieve_relevant_ipc_hybrid predict search_index
       query data metadata k_initial k_final) = Raise e ->
(e = ValueError
 /\ exists ds, first_filter_digits query ds /\ ~ readable ds)
\/ search_index query k_initial = Raise e
\/ exists pairs, predict pairs = Raise e.
Proof.
unfold retrieve_relevant_ipc_hybrid.
destruct (min_years_threshold query) as [[threshold |] | e'] eqn:Hthr.
- destruct (filtered_by_condition threshold data) as [| t0 ts]; simpl.
  + intros H%hybrid_path_raises. by right.
  + intros H%numeric_path_raises. right. by right.
- simpl. intros H%hybrid_path_raises. by right.
- simpl. intros [= <-]. left. by apply min_years_threshold_raises.
Qed.

End Orchestrator.

(* ===================================================================== *)
(** * The numeric filter in the orchestrator *)
(* ===================================================================== *)

(** C6, as the code has it.  The numeric filter is active, that is the
    pattern is found in the query, exactly when the query holds
    "greater than " (any letter case) followed by a number; a year unit
    after the number is optional.  Without such a phrase the filter is
    inactive: no threshold, and no error. *)
Theorem numeric_filter_active_iff_number (query : str) :
  (is_Some (punishment_years_filter_match query) <-> has_phrase query)
  /\ (has_phrase_with_unit query ->
        is_Some (punishment_years_filter_match query))
  /\ (~ has_phrase query ->
        punishment_years_filter_match query = None
        /\ min_years_threshold query = Ok None).
Proof.
  split; [apply filter_match_active |]. split.
  - intros (before & g & ds & ws & u & rest & -> & Hg & Hds & _).
    apply filter_match_active.
    by exists before, g, ds, (ws ++ u ++ rest).
  - intros Hno. split; [| by apply min_years_threshold_inactive].
    destruct (punishment_years_filter_match query) eqn:Hm; [| done].
    destruct Hno. apply filter_match_active. by rewrite Hm.
Qed.

Lemma has_phrase_with_unit_year (query : str) :
  has_phrase_with_unit query -> occurs (lit "year") (lower query).
Proof.
  intros (before & g & ds & ws & u & rest & -> & _ & _ & _ & Hu).
  rewrite !lower_app.
  destruct Hu as [-> | ->].
  - exists (lower before ++ lower g ++ lower ds ++ lower ws),
           (lit "s" ++ lower rest).
    by rewrite <- !app_assoc.
  - exists (lower before ++ lower g ++ lower ds ++ lower ws), (lower rest).
    by rewrite <- !app_assoc.
Qed.

(** "greater than 5 apples" holds no year unit, and the filter is active
    on it with threshold 5. *)
Lemma numeric_filter_active_without_unit :
  ~ has_phrase_with_unit (lit "greater than 5 apples")
  /\ is_Some (punishment_years_filter_match (lit "greater than 5 apples"))
  /\ min_years_threshold (lit "greater than 5 apples") = Ok (Some 5%Z).
Proof.
  split; [| split; [| by vm_compute]].
  2: { destruct (punishment_years_filter_match _) eqn:Hm; [done |].
       by vm_compute in Hm. }
  intros H%has_phrase_with_unit_year%contains_spec.
  by vm_compute in H.
Qed.

Lemma app_split_le {A} (l1 l2 k1 k2 : list A) :
  l1 ++ l2 = k1 ++ k2 -> length k1 <= length l1 ->
  exists k, l1 = k1 ++ k /\ k2 = k ++ l2.
Proof.
  intros Heq Hle. destruct (app_eq_inv _ _ _ _ Heq) as [H | (k & -> & ->)];
    [done |].
  rewrite length_app in Hle. destruct k; [| simpl in Hle; lia].
  exists []. by rewrite !app_nil_r.
Qed.

(** A phrase "greater than N years" with no numeric phrase before it is
    the first filter phrase of the query, and carries the digits of N. *)
Lemma phrase_with_years_is_first (before ds after : str) :
  number ds ->
  ~ has_phrase (before ++ lit "greater than ") ->
  first_filter_digits
    (before ++ lit "greater than " ++ ds ++ lit " years" ++ after) ds.
Proof.
  intros Hds Hfirst.
  exists before, (lit "greater than " ++ ds ++ lit " years" ++ after).
  split; [done |]. split.
  { exists (lit "greater than "), (lit " years" ++ after).
    by repeat (split; [done |]). }
  intros before' t' ds' Heq Hlt (g' & rest' & -> & Hg' & [Hne Hds'] & _).
  destruct ds' as [| d ds'']; [done |].
  apply Forall_cons in Hds' as [Hd _].
  assert (Hlen : length g' = 13).
  { by rewrite <- (length_lower g'), Hg'. }
  destruct (app_split_le (before ++ lit "greater than ")
              (ds ++ lit " years" ++ after)
              (before' ++ g' ++ [d]) (ds'' ++ rest')) as (k & Hk & _).
  { rewrite <- !app_assoc. exact Heq. }
  { rewrite !length_app, Hlen.
    change (length (lit "greater than ")) with 13. simpl. lia. }
  apply Hfirst. exists before', g', [d], k.
  rewrite Hk, <- !app_assoc. repeat split; try done. by constructor.
Qed.

Section NumericPath.

Variable predict : list (str * str) -> result (list Q).
Variable search_index : str -> Z -> result (list Z).

(** The model returns one score per pair. *)
Hypothesis predict_length :
forall pairs,
  exists scores, predict pairs = Ok scores
                 /\ length scores = length pairs.




End NumericPath.

(* ===================================================================== *)
(** * The properties on the sample inputs *)
(* ===================================================================== *)





Lemma flat_model_length (pairs : list (str * str)) :
  exists scores, flat_model pairs = Ok scores
                 /\ length scores = length pairs.
Proof. eexists. split; [reflexivity |]. apply length_fmap. Qed.



(** The end-to-end scenario returns exactly the ten-year record. *)
Example sample_query_result :
  retrieve_relevant_ipc_hybrid flat_model empty_index
    (lit "sections with punishment greater than 5 years")
    sample_corpus (original_text <$> sample_corpus) 20 15
  = ([St_info_filter 5], Ok [robbery]).
Proof. by vm_compute. Qed.


Lemma fifty_years_digits :
  first_filter_digits (lit "child offences greater than 50 years")
    (lit "50").
Proof.
  apply (phrase_with_years_is_first (lit "child offences ") (lit "50") []).
  - split; [done |]. by repeat constructor.
  - intros [x Hx]%filter_match_active. by vm_compute in Hx.
Qed.

Lemma sample_none_exceeds_fifty :
  none_exceeds (int_of (lit "50")) sample_corpus.
Proof. apply none_exceeds_of_filtered_empty. by vm_compute. Qed.

Lemma fifty_readable : readable (lit "50").
Proof. unfold readable, int_max_str_digits. simpl. lia. Qed.

Lemma empty_numeric_filter_falls_back_to_hybrid_witness :
  first_filter_digits (lit "child offences greater than 50 years")
    (lit "50")
  /\ none_exceeds (int_of (lit "50")) sample_corpus
  /\ readable (lit "50")
  /\ min_years_threshold (lit "child offences greater than 50 years")
     = Ok (Some (int_of (lit "50")))
  /\ retrieve_relevant_ipc_hybrid length_model four_index
       (lit "child offences greater than 50 years")
       sample_corpus (original_text <$> sample_corpus) 20 15
     = ([St_info_filter (int_of (lit "50")); St_warning_no_match],
        hybrid_path length_model four_index
          (lit "child offences greater than 50 years")
          sample_corpus (original_text <$> sample_corpus) 20 15).
Proof.
  split; [apply fifty_years_digits |].
  split; [apply sample_none_exceeds_fifty |].
  split; [apply fifty_readable |].
  apply (empty_numeric_filter_falls_back_to_hybrid
           length_model four_index
           (lit "child offences greater than 50 years")
           sample_corpus (original_text <$> sample_corpus) 20 15
           (lit "50")).
  - apply fifty_years_digits.
  - apply sample_none_exceeds_fifty.
  - apply fifty_readable.
Defined.

(** The fallback of that query is not empty: the vector candidates at
    positions 0 and 2, the longer one first. *)
Example fallback_result :
  retrieve_relevant_ipc_hybrid length_model four_index
    (lit "child offences greater than 50 years")
    sample_corpus (original_text <$> sample_corpus) 20 15
  = ([St_info_filter 50; St_warning_no_match], Ok [theft; robbery]).
Proof. by vm_compute. Qed.

Lemma long_number_is_number : number long_number.
Proof.
  split; [done |]. apply Forall_forall.
  by intros c [-> _]%elem_of_replicate.
Qed.

Lemma long_number_unreadable : ~ readable long_number.
Proof.
  unfold readable, long_number, int_max_str_digits.
  rewrite length_replicate. lia.
Qed.

(** The phrase is found in a query whose number has 4301 digits and no
    record exceeds that number, the hybrid path has two texts to give
    for the query, and yet the retriever raises ValueError: there is no
    fallback. *)
Lemma oversized_threshold_stops_retrieval :
  is_Some (punishment_years_filter_match long_query)
  /\ first_filter_digits long_query long_number
  /\ none_exceeds (int_of long_number) sample_corpus
  /\ hybrid_path length_model four_index long_query
       sample_corpus (original_text <$> sample_corpus) 20 15
     = Ok [theft; robbery]
  /\ retrieve_relevant_ipc_hybrid length_model four_index long_query
       sample_corpus (original_text <$> sample_corpus) 20 15
     = ([], Raise ValueError).
Proof.
  assert (Hd : first_filter_digits long_query long_number).
  { apply (phrase_with_years_is_first (lit "child offences ")
             long_number []).
    - apply long_number_is_number.
    - intros [x Hx]%filter_match_active. by vm_compute in Hx. }
  split; [| split; [done | split; [| split]]].
  - apply filter_match_first_digits in Hd as (m & -> & _). by eexists.
  - apply none_exceeds_of_filtered_empty. by vm_compute.
  - by vm_compute.
  - rewrite (retrieve_of_digits _ _ _ _ _ _ _ _ Hd).
    rewrite decide_False; [done | apply long_number_unreadable].
Qed.


Lemma length_model_scores (pairs : list (str * str)) :
  length_model pairs = Ok (length_score <$> pairs).
Proof. done. Qed.


Example rerank_result :
  rerank length_model (lit "theft") [robbery; theft; extortion] 2
  = Ok [theft; extortion].
Proof. by vm_compute. Qed.


(** ** Candidates and merge on the sample corpus *)

Example semantic_matches_sample :
  semantic_matches (original_text <$> sample_corpus) [0; 7; -1; 2]%Z
  = Ok [theft; robbery].
Proof. by vm_compute. Qed.

Example merge_dedup_sample :
  merge_dedup [robbery; theft] [theft] [forgery; robbery; hurt]
  = [robbery; theft; forgery; hurt].
Proof. by vm_compute. Qed.

Example exact_match_sample :
  retrieved_sections (lit "What is ipc 392?")
    (original_text <$> sample_corpus)
  = [robbery].
Proof. by vm_compute. Qed.

(** ** Severity extraction on sample clauses *)

Example parse_range :
  parse_punishment_years extortion = Ok (Some 7%Z, lit "3 to 7 years").
Proof. by vm_compute. Qed.

(** A range written with a hyphen is a range, and outranks an earlier
    single duration. *)
Example parse_hyphen_range :
  parse_punishment_years
    (lit "IPC 1: Sample. Punishment: 2 years or 3-10 years")
  = Ok (Some 10%Z, lit "2 years or 3-10 years").
Proof. by vm_compute. Qed.

Example parse_no_clause :
  parse_punishment_years definitions = Ok (None, []).
Proof. by vm_compute. Qed.

Example parse_months :
  parse_punishment_years trespass = Ok (None, lit "3 months").
Proof. by vm_compute. Qed.

(** A range whose upper bound has 4301 digits is found in the clause,
    and the parser answers with ValueError instead of the largest
    bound. *)
Lemma oversized_bound_is_refused :
  punishment_text_of long_sentence
  = lit "1 to " ++ long_number ++ lit " years"
  /\ year_ranges_of (punishment_text_of long_sentence)
     = [(lit "1", long_number)]
  /\ parse_punishment_years long_sentence = Raise ValueError.
Proof. split; [| split]; by vm_compute. Qed.

(** ** The loader on the sample file *)

Example sample_load :
  load_data_structured sample_json_loads sample_read_lines
    (lit "data/legal_data.jsonl")
  = ([Warning_invalid_json (lit "{oops");
      Warning_parse_error AttributeError;
      Info_loaded 2 1],
     Ok [record_of_text robbery; record_of_text definitions]).
Proof. by vm_compute. Qed.


Example sample_load_missing :
  load_data_structured sample_json_loads sample_read_lines
    (lit "data/other.jsonl")
  = ([Error_not_found (lit "data/other.jsonl")], Raise FileNotFoundError).
Proof. by vm_compute. Qed.

Lemma summary_strips_label_only_with_punishment_witness :
  snd (load_data_structured sample_json_loads sample_read_lines
         (lit "data/legal_data.jsonl"))
  = Ok [record_of_text robbery; record_of_text definitions]
  /\ record_of_text robbery
     ∈ [record_of_text robbery; record_of_text definitions]
  /\ (~ occurs (lit "Punishment:")
          (original_text (record_of_text robbery)) ->
      description_summary (record_of_text robbery)
      = original_text (record_of_text robbery))
  /\ (occurs (lit "Punishment:") (original_text (record_of_text robbery)) ->
      exists label rest,
        first_cut (lit ":") (original_text (record_of_text robbery))
                  label rest
        /\ (forall body tail,
              first_cut (lit "Punishment:") rest body tail ->
              description_summary (record_of_text robbery) = strip body)
        /\ (~ occurs (lit "Punishment:") rest ->
            description_summary (record_of_text robbery) = strip rest)).
Proof.
  split; [by vm_compute |]. split; [apply list_elem_of_here |].
  apply (summary_strips_label_only_with_punishment
           sample_json_loads sample_read_lines
           (lit "data/legal_data.jsonl")
           [record_of_text robbery; record_of_text definitions]).
  - by vm_compute.
  - apply list_elem_of_here.
Defined.

(** A loaded record without a "Punishment:" clause keeps its leading
    label in the summary. *)
Lemma summary_keeps_label_without_punishment :
  exists r,
    snd (load_data_structured sample_json_loads sample_read_lines
           (lit "data/legal_data.jsonl"))
    = Ok [record_of_text robbery; r]
    /\ original_text r = lit "IPC 23: Wrongful gain and wrongful loss."
    /\ description_summary r
       = lit "IPC 23: Wrongful gain and wrongful loss."
    /\ description_summary r <> lit "Wrongful gain and wrongful loss.".
Proof.
  exists (record_of_text definitions). by vm_compute.
Qed.

(** C10. The retriever returns only texts it was given, and on the hybrid
    path no text twice; on the numeric path a corpus that holds the same
    text in two records gets that text back twice. *)
Theorem numeric_path_repeats_a_text :
  retrieve_relevant_ipc_hybrid flat_model empty_index
    (lit "punishment greater than 5 years")
    repeated_corpus (original_text <$> repeated_corpus) 20 15
  = ([St_info_filter 5], Ok [robbery; robbery])
  /\ ~ NoDup [robbery; robbery].
Proof.
  split; [by vm_compute |].
  intros Hnd. apply NoDup_cons in Hnd as [Hnotin _].
  apply Hnotin, list_elem_of_here.
Qed.
(* ===================================================================== *)
(** * Further properties of the re-ranker *)
(* ===================================================================== *)

Section RerankStable.

Variable predict : list (str * str) -> result (list Q).
Variable score : str * str -> Q.

(** The model gives each pair its score, in order. *)
Hypothesis predict_scores :
  forall pairs, predict pairs = Ok (score <$> pairs).

(** The re-ranker answers, and its answer is in the stable order. *)
Lemma rerank_stable (query : str) (docs : list str) (k : Z) :
  exists out,
    rerank predict query docs k = Ok out
    /\ StronglySorted (stable_by_score score query docs) out.
Proof.
  destruct (ranked_stable_ranking score query docs)
    as (ranking & Hperm & Hs & Hcut).
  exists (py_take ranking k). split.
  - by rewrite (rerank_scores predict score predict_scores), Hcut.
  - by destruct (py_take_ranking score query docs ranking k Hperm Hs)
      as (_ & _ & _ & ? & _).
Qed.

(** X1. The re-ranker's sort is stable: of two returned documents the
    one standing first has the higher score, or the same score and an
    earlier position in the candidate list. *)
Theorem rerank_keeps_input_order_among_ties
    (query : str) (docs : list str) (k : Z) :
  exists out,
    rerank predict query docs k = Ok out
    /\ forall (i j : nat) (a b : str),
         out !! i = Some a -> out !! j = Some b -> i < j ->
         (score (query, b) < score (query, a))%Q
         \/ ((score (query, a) == score (query, b))%Q
             /\ earlier docs a b).
Proof.
  destruct (rerank_stable query docs k) as (out & Hout & Hs).
  exists out. split; [done |].
  intros i j a b Hi Hj Hlt.
  exact (StronglySorted_lookup_lt _ _ _ _ _ _ Hs Hi Hj Hlt).
Qed.

(** X2. Candidates that already come in descending order of score, equal
    scores included, leave the re-ranker in that order: the result is
    the first [k] of them (all but the last [-k] for a negative [k]). *)
Theorem rerank_of_ranked_input_is_a_prefix
    (query : str) (docs : list str) (k : Z) :
  StronglySorted (by_score score query) docs ->
  rerank predict query docs k = Ok (py_take docs k).
Proof.
  intros Hsorted.
  rewrite (rerank_scores predict score predict_scores).
  unfold ranked. cbv zeta. rewrite zip_scores.
  set (tag := fun doc => (doc, score (query, doc))).
  rewrite sorted_desc_fixed.
  - f_equal. unfold py_take. rewrite length_fmap.
    destruct (0 <=? k)%Z; rewrite <- fmap_take, <- list_fmap_compose;
      apply list_fmap_id.
  - clear -Hsorted. induction Hsorted as [| d docs _ IH Hall]; csimpl;
      constructor; [done |].
    apply Forall_fmap. eapply Forall_impl; [exact Hall |]. done.
Qed.

(** X3. The cut keeps the best: the returned documents together with the
    dropped ones are the candidates, and no dropped document scores
    higher than a returned one. *)
Theorem rerank_drops_only_lower_scores
    (query : str) (docs : list str) (k : Z) :
  exists out dropped,
    rerank predict query docs k = Ok out
    /\ out ++ dropped ≡ₚ docs
    /\ forall kept_doc dropped_doc,
         kept_doc ∈ out ->
         dropped_doc ∈ dropped ->
         (score (query, dropped_doc) <= score (query, kept_doc))%Q.
Proof.
  destruct (ranked_stable_ranking score query docs)
    as (ranking & Hperm & Hs & Hcut).
  destruct (py_take_prefix ranking k) as [rest Hrest].
  exists (py_take ranking k), rest. split; [| split].
  - by rewrite (rerank_scores predict score predict_scores), Hcut.
  - by rewrite <- Hrest.
  - intros a b Ha Hb.
    rewrite Hrest in Hs.
    apply (stable_by_score_by_score score query docs).
    by eapply (StronglySorted_app_1_elem_of
                 (stable_by_score score query docs)).
Qed.

End RerankStable.

(* ===================================================================== *)
(** * Further properties of merge and orchestrator *)
(* ===================================================================== *)

(** In a list without repetition two members stand in exactly one
    order. *)
Lemma earlier_total {A} (l : list A) (a b : A) :
  a ∈ l -> b ∈ l -> a <> b -> earlier l a b \/ earlier l b a.
Proof.
  intros (i & Hi)%list_elem_of_lookup_1 (j & Hj)%list_elem_of_lookup_1 Hne.
  destruct (Nat.lt_total i j) as [Hlt | [-> | Hgt]].
  - left. by exists i, j.
  - congruence.
  - right. by exists j, i.
Qed.

Lemma earlier_asym {A} (l : list A) (a b : A) :
  NoDup l -> earlier l a b -> earlier l b a -> False.
Proof.
  intros Hnd (i & j & Hij & Hi & Hj) (j' & i' & Hji & Hj' & Hi').
  pose proof (NoDup_lookup l i i' a Hnd Hi Hi').
  pose proof (NoDup_lookup l j j' b Hnd Hj Hj'). lia.
Qed.

(** Texts of an earlier generator come out of the merge before texts
    that only a later generator found. *)
Lemma unseen_app_order (first later : list str) (x y : str) :
  x ∈ first -> y ∉ first -> y ∈ unseen ∅ (first ++ later) ->
  earlier (unseen ∅ (first ++ later)) x y.
Proof.
  intros Hx Hy Hy'.
  assert (Hx' : x ∈ unseen ∅ (first ++ later)).
  { apply elem_of_unseen. set_solver. }
  destruct (earlier_total _ x y Hx' Hy') as [H | (j & i & Hji & Hj & Hi)];
    [congruence | done |].
  exfalso.
  destruct (unseen_order _ _ _ _ _ _ Hj Hi Hji) as (j' & Hj' & Hbefore).
  apply list_elem_of_lookup_1 in Hx as (ix & Hix).
  specialize (Hbefore ix (lookup_app_l_Some _ _ _ _ Hix)).
  apply lookup_lt_Some in Hix.
  rewrite lookup_app_l in Hj' by lia.
  apply Hy. by eapply list_elem_of_lookup_2.
Qed.

(** X4. The merge keeps the generators' priority: a keyword candidate
    stands before every candidate the keyword matcher did not produce,
    and a keyword or exact-identifier candidate before every candidate
    that only the vector search produced. *)
Theorem merge_dedup_keeps_generator_priority
    (keyword exact semantic : list str) (x y : str) :
  y ∈ merge_dedup keyword exact semantic ->
  (x ∈ keyword -> y ∉ keyword ->
   earlier (merge_dedup keyword exact semantic) x y)
  /\ (x ∈ keyword ++ exact -> y ∉ keyword ++ exact ->
      earlier (merge_dedup keyword exact semantic) x y).
Proof.
  rewrite merge_dedup_unseen. intros Hy. split.
  - intros Hx Hny. by apply unseen_app_order.
  - intros Hx Hny. rewrite app_assoc in Hy |- *.
    by apply unseen_app_order.
Qed.

Lemma int_of_digits_nonneg (ds : str) :
  Forall (fun c => Char.is_digit c = true) ds -> (0 <= int_of ds)%Z.
Proof.
  unfold int_of.
  assert (H : forall acc, (0 <= acc)%Z ->
            Forall (fun c => Char.is_digit c = true) ds ->
            (0 <= fold_left (fun acc c => 10 * acc + Char.digit_value c)%Z
                            ds acc)%Z).
  { induction ds as [| c ds IH]; intros acc Hacc Hds; simpl; [done |].
    apply Forall_cons in Hds as [Hc Hds]. apply IH; [| done].
    unfold Char.is_digit, Char.between in Hc.
    apply andb_true_iff in Hc as [Hlo _]. apply N.leb_le in Hlo.
    unfold Char.digit_value. lia. }
  by apply H.
Qed.

(** X5. The numeric threshold is never negative: the pattern reads
    digits only, so a sign before the number keeps the filter off
    rather than giving a negative threshold. *)
Theorem min_years_threshold_is_not_negative (query : str) (N : Z) :
  min_years_threshold query = Ok (Some N) -> (0 <= N)%Z.
Proof.
  intros (ds & (before & t & _ & (g & rest & _ & _ & [_ Hds] & _) & _)
          & _ & ->)%min_years_threshold_first_phrase.
  by apply int_of_digits_nonneg.
Qed.

Section OrchestratorExtra.

Variable predict : list (str * str) -> result (list Q).
Variable search_index : str -> Z -> result (list Z).

(** X6. What the retriever returns and what it raises.  Every text it
    returns is the text of a corpus record or a member of the metadata
    list, and a corpus text when the metadata list holds corpus texts
    only.  It raises only ValueError for a threshold of more than 4300
    digits, or what the vector search or the re-ranking model raise:
    the guarded metadata lookup raises nothing, whatever indices the
    vector index returns.  So it returns a list whenever the threshold
    can be read and the search and the model answer. *)
Theorem retrieve_returns_only_given_texts
    (query : str) (data : list ipc_record) (metadata : list str)
    (k_initial k_final : Z) :
  let retrieved :=
    snd (retrieve_relevant_ipc_hybrid predict search_index
           query data metadata k_initial k_final) in
  (forall out,
     retrieved = Ok out ->
     (forall t, t ∈ out -> text_of_corpus data t \/ t ∈ metadata)
     /\ (metadata ⊆ original_text <$> data ->
         forall t, t ∈ out -> text_of_corpus data t))
  /\ (forall e,
        retrieved = Raise e ->
        (e = ValueError
         /\ exists ds, first_filter_digits query ds /\ ~ readable ds)
        \/ search_index query k_initial = Raise e
        \/ exists pairs, predict pairs = Raise e)
  /\ ((forall ds, first_filter_digits query ds -> readable ds) ->
      (exists indices, search_index query k_initial = Ok indices) ->
      (forall pairs, exists scores, predict pairs = Ok scores) ->
      exists out, retrieved = Ok out).
Proof.
  cbv zeta. split; [| split].
  - intros out Hout.
    pose proof (retrieve_returns_known_texts predict search_index
                  query data metadata k_initial k_final out Hout) as Hin.
    split; [done |].
    intros Hmeta t Ht. destruct (Hin t Ht) as [H | H]; [done |].
    apply Hmeta, list_elem_of_fmap in H as (item & -> & Hitem).
    by exists item.
  - apply retrieve_raises.
  - intros Hread (indices & Hsearch) Hpredict.
    destruct (snd (retrieve_relevant_ipc_hybrid predict search_index
                     query data metadata k_initial k_final))
      as [out | e] eqn:Hr; [by exists out | exfalso].
    apply retrieve_raises in Hr
      as [(_ & ds & Hd & Hnr) | [Hs | (pairs & Hp)]].
    + by apply Hnr, Hread.
    + congruence.
    + destruct (Hpredict pairs) as (scores & Hscores). congruence.
Qed.

(** X7. The hybrid path never returns a text twice, also when the
    corpus or the metadata list hold it twice or several generators
    find it; when it returns nothing, the vector search or the
    re-ranking model raised. *)
Theorem hybrid_path_returns_distinct_texts
    (query : str) (data : list ipc_record) (metadata : list str)
    (k_initial k_final : Z) :
  match hybrid_path predict search_index query data metadata
                    k_initial k_final with
  | Ok out => NoDup out
  | Raise e =>
      search_index query k_initial = Raise e
      \/ exists pairs, predict pairs = Raise e
  end.
Proof.
  destruct (hybrid_path predict search_index query data metadata
              k_initial k_final) as [out | e] eqn:Hh.
  - by apply hybrid_path_distinct_known in Hh as [? _].
  - by eapply hybrid_path_raises.
Qed.

(** X8. Over a corpus in which no text stands twice the retriever
    returns no text twice, on the numeric path as on the hybrid path;
    when it returns nothing, the conversion of the threshold, the
    vector search or the re-ranking model raised. *)
Theorem retrieve_distinct_over_distinct_corpus
    (query : str) (data : list ipc_record) (metadata : list str)
    (k_initial k_final : Z) :
  NoDup (original_text <$> data) ->
  match snd (retrieve_relevant_ipc_hybrid predict search_index
               query data metadata k_initial k_final) with
  | Ok out => NoDup out
  | Raise e =>
      (e = ValueError
       /\ exists ds, first_filter_digits query ds /\ ~ readable ds)
      \/ search_index query k_initial = Raise e
      \/ exists pairs, predict pairs = Raise e
  end.
Proof.
  intros Hnd.
  destruct (snd (retrieve_relevant_ipc_hybrid predict search_index
                   query data metadata k_initial k_final))
    as [out | e] eqn:Hr; [| by eapply retrieve_raises].
  revert Hr. unfold retrieve_relevant_ipc_hybrid.
  assert (Hhyb : hybrid_path predict search_index query data metadata
                   k_initial k_final = Ok out -> NoDup out).
  { by intros [? _]%hybrid_path_distinct_known. }
  destruct (min_years_threshold query) as [[threshold |] | e];
    [| done | done].
  destruct (filtered_by_condition threshold data) as [| t0 ts] eqn:Hf;
    [done |].
  simpl. rewrite numeric_path_rerank. apply rerank_NoDup.
  rewrite <- Hf. unfold filtered_by_condition.
  eapply sublist_NoDup; [exact Hnd |].
  apply fmap_sublist, sublist_filter.
Qed.

(** X9. The keyword generator is gated by the query: when the query
    mentions neither "child" nor "minor" (in any letter case), every
    text the hybrid path returns comes from the metadata list; when it
    does, the text of every record mentioning one of the two is among
    the candidates that are re-ranked. *)
Theorem keyword_candidates_only_for_child_queries
    (query : str) (data : list ipc_record) (metadata : list str)
    (k_initial k_final : Z) :
  (mentions_child query = false ->
   forall out,
     hybrid_path predict search_index query data metadata
                 k_initial k_final = Ok out ->
     out ⊆ metadata)
  /\ (mentions_child query = true ->
      forall indices item,
        item ∈ data -> mentions_child (original_text item) = true ->
        original_text item
        ∈ merge_dedup (keyword_matches query data)
            (retrieved_sections query metadata)
            (omap (text_at metadata) indices)).
Proof.
  split.
  - intros Hq out. rewrite hybrid_path_unfold.
    destruct (search_index query k_initial) as [indices | e]; [| done].
    pose proof (merge_dedup_distinct_members
                  (keyword_matches query data)
                  (retrieved_sections query metadata)
                  (omap (text_at metadata) indices))
      as (_ & Hin).
    assert (Hsub : merge_dedup (keyword_matches query data)
                     (retrieved_sections query metadata)
                     (omap (text_at metadata) indices)
                   ⊆ metadata).
    { intros t Ht. apply Hin in Ht. unfold keyword_matches in Ht.
      rewrite Hq in Ht. simpl in Ht.
      apply elem_of_app in Ht as [Ht | Ht].
      - by eapply retrieved_sections_subseteq.
      - by eapply text_at_subseteq. }
    destruct (merge_dedup _ _ _) as [| c combined].
    + intros [= <-]. set_solver.
    + intros Hout t Ht. apply Hsub.
      by eapply rerank_subseteq.
  - intros Hq indices item Hitem Hchild.
    apply merge_dedup_distinct_members.
    apply elem_of_app. left. unfold keyword_matches. rewrite Hq.
    apply list_elem_of_fmap. exists item. split; [done |].
    apply list_elem_of_filter. split; [by apply Is_true_true | done].
Qed.

End OrchestratorExtra.

Lemma ranked_all (docs : list str) (scores : list Q) (k : Z) :
  length scores = length docs ->
  (Z.of_nat (length docs) <= k)%Z -> ranked docs scores k ≡ₚ docs.
Proof.
  intros Hscores Hk.
  destruct (ranked_within_prefix docs scores k) as [rest Hp].
  rewrite Hscores, firstn_all in Hp.
  assert (Hlen : length (ranked docs scores k) = length docs).
  { rewrite ranked_length, Hscores.
    destruct (Z.leb_spec 0 k); lia. }
  apply Permutation_length in Hp as Hl. rewrite length_app, Hlen in Hl.
  destruct rest; [| simpl in Hl; lia]. by rewrite app_nil_r in Hp.
Qed.

Section SizesExtra.

Variable predict : list (str * str) -> result (list Q).
Variable search_index : str -> Z -> result (list Z).

(** The model returns one score per pair. *)
Hypothesis predict_length :
  forall pairs,
    exists scores, predict pairs = Ok scores
                   /\ length scores = length pairs.

Lemma rerank_one_score_each (query : str) (docs : list str) (k : Z) :
  exists scores,
    length scores = length docs
    /\ rerank predict query docs k = Ok (ranked docs scores k).
Proof.
  destruct (predict_length ((fun doc => (query, doc)) <$> docs))
    as (scores & Hp & Hlen).
  exists scores. rewrite length_fmap in Hlen. split; [done |].
  apply rerank_Ok. by exists scores.
Qed.

(** X10. The size of the hybrid answer.  With [n] distinct candidates
    after the merge the hybrid path returns [min k_final n] texts for a
    [k_final] that is not negative, and all candidates once [k_final]
    reaches [n]; a negative [k_final] drops the last [-k_final] of the
    ranking. *)
Theorem hybrid_path_size
    (query : str) (data : list ipc_record) (metadata : list str)
    (k_initial k_final : Z) (indices : list Z) :
  search_index query k_initial = Ok indices ->
  let merged :=
    merge_dedup (keyword_matches query data)
      (retrieved_sections query metadata)
      (omap (text_at metadata) indices) in
  exists out,
    hybrid_path predict search_index query data metadata
                k_initial k_final = Ok out
    /\ ((0 <= k_final)%Z ->
        length out = Z.to_nat k_final `min` length merged)
    /\ ((Z.of_nat (length merged) <= k_final)%Z -> out ≡ₚ merged)
    /\ ((k_final < 0)%Z ->
        length out = length merged - Z.to_nat (- k_final)).
Proof.
  intros Hsearch. cbv zeta. rewrite hybrid_path_unfold, Hsearch.
  destruct (merge_dedup _ _ _) as [| c combined] eqn:Hm.
  { exists []. split; [done |]. simpl. repeat split; intros; lia || done. }
  destruct (rerank_one_score_each query (c :: combined) k_final)
    as (scores & Hlen & Hout).
  eexists. split; [exact Hout |].
  split; [| split].
  - intros Hk. rewrite ranked_length, Hlen.
    destruct (Z.leb_spec 0 k_final); lia.
  - by apply ranked_all.
  - intros Hk. rewrite ranked_length, Hlen.
    destruct (Z.leb_spec 0 k_final); lia.
Qed.

(** X11. The numeric path is cut at 20 whatever [k_final] is, and takes
    nothing from the metadata list or the vector index: when the filter
    of threshold [N] keeps [n] records, [min 20 n] texts are returned,
    and for [n] up to 20 they are the texts of all records above [N]. *)
Theorem numeric_path_size
    (query : str) (data : list ipc_record) (metadata : list str)
    (k_initial k_final N : Z) :
  min_years_threshold query = Ok (Some N) ->
  filtered_by_condition N data <> [] ->
  exists out,
    snd (retrieve_relevant_ipc_hybrid predict search_index
           query data metadata k_initial k_final) = Ok out
    /\ length out = 20 `min` length (filtered_by_condition N data)
    /\ (length (filtered_by_condition N data) <= 20 ->
        out ≡ₚ filtered_by_condition N data).
Proof.
  intros Hthr Hne. unfold retrieve_relevant_ipc_hybrid. rewrite Hthr.
  destruct (filtered_by_condition N data) as [| t0 ts] eqn:Hf; [done |].
  simpl snd. rewrite numeric_path_rerank.
  destruct (rerank_one_score_each query (t0 :: ts) numeric_top)
    as (scores & Hlen & Hout).
  eexists. split; [exact Hout |]. split.
  - rewrite ranked_length, Hlen. unfold numeric_top.
    destruct (Z.leb_spec 0 20); lia.
  - intros Hle. apply ranked_all; [done |]. unfold numeric_top. lia.
Qed.

End SizesExtra.

Section TieBreak.

Variable predict : list (str * str) -> result (list Q).
Variable search_index : str -> Z -> result (list Z).
Variable score : str * str -> Q.

Hypothesis predict_scores :
  forall pairs, predict pairs = Ok (score <$> pairs).

(** X12. Ties are broken by generator priority: of two texts of the
    hybrid answer with equal scores, one from the keyword matcher and
    one that the keyword matcher did not produce, the keyword text
    stands first. *)
Theorem hybrid_path_ties_favour_keyword_matches
    (query : str) (data : list ipc_record) (metadata : list str)
    (k_initial k_final : Z) (out : list str) (x y : str) :
  hybrid_path predict search_index query data metadata
              k_initial k_final = Ok out ->
  x ∈ keyword_matches query data ->
  y ∉ keyword_matches query data ->
  (score (query, x) == score (query, y))%Q ->
  x ∈ out -> y ∈ out ->
  earlier out x y.
Proof.
  rewrite hybrid_path_unfold.
  destruct (search_index query k_initial) as [indices | e]; [| done].
  intros Hout Hx Hy Heq Hxo Hyo.
  pose proof (merge_dedup_distinct_members
                (keyword_matches query data)
                (retrieved_sections query metadata)
                (omap (text_at metadata) indices))
    as (Hnd & Hin).
  set (merged := merge_dedup _ _ _) in *.
  assert (Hprio : y ∈ merged -> earlier merged x y).
  { intros Hym. subst merged. rewrite merge_dedup_unseen in Hym |- *.
    by apply unseen_app_order. }
  clearbody merged.
  destruct merged as [| c combined].
  { injection Hout as <-. by apply not_elem_of_nil in Hxo. }
  set (docs := c :: combined) in *.
  assert (Hne : x <> y) by congruence.
  destruct (earlier_total _ x y Hxo Hyo Hne)
    as [H | (j & i & Hji & Hj & Hi)]; [done | exfalso].
  pose proof (rerank_subseteq predict query docs k_final out Hout y Hyo)
    as Hyd.
  destruct (rerank_stable predict score predict_scores query docs k_final)
    as (out' & Hout' & Hs).
  assert (out' = out) as -> by congruence.
  pose proof (StronglySorted_lookup_lt _ _ _ _ _ _ Hs Hj Hi Hji) as Hst.
  destruct Hst as [Hlt | [_ Hearlier]].
  - rewrite Heq in Hlt. by apply Qlt_irrefl in Hlt.
  - by apply (earlier_asym docs x y Hnd (Hprio Hyd)).
Qed.

End TieBreak.

(* ===================================================================== *)
(** * The section identifier pattern *)
(* ===================================================================== *)

Lemma cmatch_letter (c : ascii) :
  Re.cmatch true (Re.CRange "A" "Z") c = ascii_letter c.
Proof. by destruct c as [[] [] [] [] [] [] [] []]. Qed.

Lemma lower_upper_char (c : ascii) : Char.lower (Char.upper c) = Char.lower c.
Proof. by destruct c as [[] [] [] [] [] [] [] []]. Qed.

Lemma upper_of_lower_letter (c : ascii) :
  Char.between 97 122 (Char.lower c) = true ->
  Char.upper c = Char.upper (Char.lower c).
Proof. by destruct c as [[] [] [] [] [] [] [] []]. Qed.

Lemma upper_digit (c : ascii) : Char.is_digit c = true -> Char.upper c = c.
Proof. by destruct c as [[] [] [] [] [] [] [] []]. Qed.

Lemma upper_space (c : ascii) : Char.is_space c = true -> Char.upper c = c.
Proof. by destruct c as [[] [] [] [] [] [] [] []]. Qed.

Lemma digit_not_space (c : ascii) :
  Char.is_digit c = true -> Char.is_space c = false.
Proof. by destruct c as [[] [] [] [] [] [] [] []]. Qed.

Lemma letter_not_digit (c : ascii) :
  ascii_letter c = true -> Char.is_digit c = false.
Proof. by destruct c as [[] [] [] [] [] [] [] []]. Qed.

Lemma lower_upper (s : str) : lower (upper s) = lower s.
Proof.
  unfold lower, upper. rewrite <- list_fmap_compose.
  apply list_fmap_ext. intros _ c _. apply lower_upper_char.
Qed.

Lemma upper_app (a b : str) : upper (a ++ b) = upper a ++ upper b.
Proof. apply fmap_app. Qed.

Lemma upper_fixed (p : ascii -> bool) (s : str) :
  (forall c, p c = true -> Char.upper c = c) ->
  Forall (fun c => p c = true) s -> upper s = s.
Proof.
  intros Hp Hs. induction Hs as [| c s Hc _ IH]; [done |].
  unfold upper in *. csimpl. by rewrite IH, Hp.
Qed.

Lemma upper_ipc (i : str) : lower i = lit "ipc" -> upper i = lit "IPC".
Proof.
  destruct i as [| a [| b [| c [| ? ?]]]]; try done.
  intros [= Ha Hb Hc].
  unfold upper. csimpl.
  rewrite (upper_of_lower_letter a), (upper_of_lower_letter b),
    (upper_of_lower_letter c), Ha, Hb, Hc; by rewrite ?Ha, ?Hb, ?Hc.
Qed.

Section MatcherExtra.
Context {R : Type}.

(** Greedy repetition whose continuation refuses to start inside the
    run hands over exactly the rest after the longest run. *)
Lemma star_longest (p : ascii -> bool) (run rest : str)
    (k1 : str -> option R) :
  Forall (fun c => p c = true) run -> stops p rest ->
  (forall c t, p c = true -> k1 (c :: t) = None) ->
  Re.star p (run ++ rest) k1 = k1 rest.
Proof.
  intros Hrun Hstop Hk.
  induction Hrun as [| c run Hc _ IH]; simpl.
  - destruct rest as [| c rest]; [done |]. simpl in *. by rewrite Hstop.
  - simpl in Hc. rewrite Hc, IH. destruct (k1 rest); [done |].
    by apply Hk.
Qed.

End MatcherExtra.

Lemma lower_ipc : lower (lit "IPC") = lit "ipc".
Proof. reflexivity. Qed.

Lemma ipc_match_here_Some (s sp id : str) :
  ipc_identifier_at s sp id ->
  exists i,
    lower i = lit "ipc"
    /\ take (length (i ++ sp ++ id)) s = i ++ sp ++ id
    /\ Re.match_here true ipc_section_re s
       = Some (length (i ++ sp ++ id), [(1, id)]).
Proof.
  intros (i & ds & ls & rest & -> & Hi & Hsp & [Hne Hds] & Hls & -> & Hd & Hl).
  exists i. split; [done |].
  assert (Hlen : length i = 3) by by rewrite <- (length_lower i), Hi.
  split.
  { replace (i ++ sp ++ ds ++ ls ++ rest)
      with ((i ++ sp ++ ds ++ ls) ++ rest) by (by rewrite <- !app_assoc).
    by rewrite take_app_length. }
  unfold Re.match_here, ipc_section_re, cat.
  cbn [foldr]. cbn [Re.bt]. rewrite bt_str_re, lower_ipc.
  rewrite lower_app, Hi, startswith_app.
  change (length (lit "IPC")) with 3.
  rewrite drop_app_length' by done.
  destruct ds as [| d run]; [done |].
  apply Forall_cons in Hds as [Hd0 Hrun].
  rewrite star_longest; [| exact Hsp | simpl; by apply digit_not_space |].
  2:{ intros c t Hc. cbn [Re.cmatch] in *.
      destruct (Char.is_digit c) eqn:Hdc; [| done].
      apply digit_not_space in Hdc. congruence. }
  cbn [app Re.cmatch]. rewrite Hd0.
  rewrite star_run; [| exact Hrun | exact Hd | ].
  - rewrite star_run.
    + f_equal. f_equal.
      * rewrite !length_app. simpl. rewrite !length_app. lia.
      * f_equal. f_equal.
        replace (d :: run ++ ls ++ rest) with ((d :: run ++ ls) ++ rest)
          by (simpl; by rewrite <- app_assoc).
        rewrite length_app.
        replace (length (d :: run ++ ls) + length rest - length rest)
          with (length (d :: run ++ ls)) by lia.
        by rewrite take_app_length.
    + eapply Forall_impl; [exact Hls |]. intros c. by rewrite cmatch_letter.
    + destruct rest as [| c rest]; [done |]. unfold stops in *.
      by rewrite cmatch_letter.
    + done.
  - apply star_total. intros t. done.
Qed.

Lemma ipc_match_here_inv (s : str) :
  Re.match_here true ipc_section_re s <> None ->
  exists sp id, ipc_identifier_at s sp id.
Proof.
  unfold Re.match_here, ipc_section_re, cat.
  cbn [foldr]. cbn [Re.bt]. rewrite bt_str_re, lower_ipc.
  destruct (startswith _ _) eqn:Hsw; [| done].
  apply startswith_spec in Hsw as [rest' Hl].
  apply lower_eq_app in Hl as (i & s1 & -> & Hi & _).
  assert (Hlen : length i = 3) by by rewrite <- (length_lower i), Hi.
  change (length (lit "IPC")) with 3.
  rewrite drop_app_length' by done.
  destruct (span_exists Char.is_space s1) as (sp & r1 & -> & Hsp & Hstop1).
  rewrite star_longest; [| exact Hsp | exact Hstop1 |].
  2:{ intros c t Hc. cbn [Re.cmatch] in *.
      destruct (Char.is_digit c) eqn:Hdc; [| done].
      apply digit_not_space in Hdc. congruence. }
  destruct r1 as [| d tl]; [done |].
  cbn [Re.cmatch]. destruct (Char.is_digit d) eqn:Hd; [| done].
  intros _.
  destruct (span_exists Char.is_digit tl) as (run & r2 & -> & Hrun & Hstop2).
  destruct (span_exists ascii_letter r2) as (ls & rest & -> & Hls & Hstop3).
  exists sp, ((d :: run) ++ ls), i, (d :: run), ls, rest.
  repeat split; try done.
  by constructor.
Qed.

Lemma ipc_search_first (text sp id : str) :
  first_ipc_identifier text sp id ->
  exists pos i,
    lower i = lit "ipc"
    /\ Re.search true ipc_section_re text
       = Some (Re.mk pos (i ++ sp ++ id) [(1, id)]).
Proof.
  intros (before & t & -> & Hat & Hmin).
  destruct (ipc_match_here_Some t sp id Hat) as (i & Hi & Htake & Hm).
  exists (0 + length before), i. split; [done |].
  unfold Re.search.
  rewrite (search_from_first _ _ _ before t _ _ Hm); [by rewrite Htake |].
  intros before' t' Heq Hlt.
  destruct (Re.match_here true ipc_section_re t') eqn:Ht'; [| done].
  destruct (ipc_match_here_inv t') as (sp' & id' & Hat');
    [by rewrite Ht' |].
  by destruct (Hmin before' t' sp' id' Heq Hlt).
Qed.

Lemma ipc_search_None (text : str) :
  no_ipc_identifier text -> Re.search true ipc_section_re text = None.
Proof.
  intros Hno. unfold Re.search. apply search_from_None.
  intros before t Heq.
  destruct (Re.match_here true ipc_section_re t) eqn:Ht; [| done].
  destruct (ipc_match_here_inv t) as (sp & id & Hat); [by rewrite Ht |].
  by destruct (Hno before t sp id Heq).
Qed.

(** Every text either has a first identifier or none at all. *)
Lemma ipc_identifier_cases (text : str) :
  (exists sp id, first_ipc_identifier text sp id) \/ no_ipc_identifier text.
Proof.
  destruct (Re.search true ipc_section_re text) as [m |] eqn:Hs.
  - left. unfold Re.search in Hs.
    apply search_from_Some in Hs
      as (before & t & len & cs & -> & Ht & _ & Hmin).
    destruct (ipc_match_here_inv t) as (sp & id & Hat); [by rewrite Ht |].
    exists sp, id, before, t. split; [done |]. split; [done |].
    intros before' t' sp' id' Heq Hlt Hat'.
    destruct (ipc_match_here_Some t' sp' id' Hat') as (i & _ & _ & Hm).
    by rewrite (Hmin before' t' Heq Hlt) in Hm.
  - right. unfold Re.search in Hs. rewrite search_from_None in Hs.
    intros before t sp id Heq Hat.
    destruct (ipc_match_here_Some t sp id Hat) as (i & _ & _ & Hm).
    by rewrite (Hs before t Heq) in Hm.
Qed.

(** X13. The exact-identifier matcher reads the first identifier of the
    query and returns the first metadata text that begins, letter case
    apart, with "IPC", one blank and that identifier, or nothing when
    there is no such text; a query without identifier gives nothing. *)
Theorem retrieved_sections_first_text_with_identifier_prefix
    (query : str) (metadata : list str) :
  (forall sp id,
     first_ipc_identifier query sp id ->
     (retrieved_sections query metadata = []
      /\ forall t, t ∈ metadata -> ~ names_section id t)
     \/ (exists i t,
           retrieved_sections query metadata = [t]
           /\ metadata !! i = Some t
           /\ names_section id t
           /\ forall j t', j < i -> metadata !! j = Some t' ->
                ~ names_section id t'))
  /\ (no_ipc_identifier query -> retrieved_sections query metadata = []).
Proof.
  split.
  - intros sp id (pos & i & Hi & Hs)%ipc_search_first.
    unfold retrieved_sections. rewrite Hs.
    replace (Re.group 1 _) with id by done.
    rewrite lower_app, lower_upper.
    change (lower (lit "IPC ")) with (lit "ipc ").
    assert (Hspec : forall t,
              startswith (lower t) (lit "ipc " ++ lower id) = true
              <-> names_section id t).
    { intros t. rewrite startswith_spec. unfold names_section.
      split; intros [rest Hr]; exists rest; by rewrite Hr, <- ?app_assoc. }
    destruct (list_find _ metadata) as [[n t] |] eqn:Hfind.
    + right. apply list_find_Some in Hfind as (Hn & Ht & Hbefore).
      exists n, t. split; [done |]. split; [done |].
      split; [by apply Hspec, Is_true_true |].
      intros j t' Hj Ht' Hnames. apply Hspec in Hnames.
      apply (Hbefore j t' Ht' Hj). by apply Is_true_true.
    + left. split; [done |].
      intros t Ht Hnames. apply Hspec in Hnames.
      rewrite list_find_None, Forall_forall in Hfind.
      apply (Hfind t Ht). by apply Is_true_true.
  - intros Hno. unfold retrieved_sections.
    by rewrite (ipc_search_None query Hno).
Qed.

(** X14. The section identifier of a record is "UNKNOWN" exactly for a
    text without identifier; otherwise it is the first identifier of
    the text in upper case after "IPC", with the blanks between the two
    as the text has them. *)
Theorem section_id_of_first_identifier (text : str) :
  (forall sp id,
     first_ipc_identifier text sp id ->
     section_id_of text = lit "IPC" ++ sp ++ upper id)
  /\ (no_ipc_identifier text <-> section_id_of text = lit "UNKNOWN").
Proof.
  assert (Hfirst : forall sp id,
            first_ipc_identifier text sp id ->
            section_id_of text = lit "IPC" ++ sp ++ upper id).
  { intros sp id Hf.
    assert (Hsp : blanks sp).
    { by destruct Hf as (_ & _ & _ & (_ & _ & _ & _ & _ & _ & ? & _) & _). }
    apply ipc_search_first in Hf as (pos & i & Hi & Hs).
    unfold section_id_of. rewrite Hs.
    change (Re.group0 _) with (i ++ sp ++ id).
    rewrite !upper_app, (upper_ipc i Hi).
    by rewrite (upper_fixed Char.is_space sp upper_space Hsp). }
  split; [exact Hfirst |]. split.
  - intros Hno. unfold section_id_of.
    by rewrite (ipc_search_None text Hno).
  - intros Hun.
    destruct (ipc_identifier_cases text) as [(sp & id & Hf) | Hno]; [| done].
    rewrite (Hfirst sp id Hf) in Hun. done.
Qed.

(* ===================================================================== *)
(** * Further properties of the severity parser and the loader *)
(* ===================================================================== *)

Lemma number_nonneg (ds : str) : number ds -> (0 <= int_of ds)%Z.
Proof. intros [_ Hds]. by apply int_of_digits_nonneg. Qed.

Lemma range_bounds_nonneg (clause : str) (b : Z) :
  b ∈ range_bounds (year_ranges_of clause) -> (0 <= b)%Z.
Proof.
  unfold range_bounds, bound_texts.
  intros (ds & -> & Hds)%list_elem_of_fmap.
  rewrite list_elem_of_In, in_flat_map in Hds.
  destruct Hds as ([lo hi] & Hin%list_elem_of_In & Hb%list_elem_of_In).
  apply year_ranges_sound in Hin
    as (_ & _ & _ & _ & _ & _ & _ & _ & Hlo & _ & _ & _ & Hhi & _).
  simpl in Hb. apply elem_of_cons in Hb as [-> | Hb].
  - by apply number_nonneg.
  - apply list_elem_of_singleton in Hb as ->. by apply number_nonneg.
Qed.

(** X15. The years read from a text are never negative. *)
Theorem parse_punishment_years_is_not_negative
    (text clause : str) (y : Z) :
  parse_punishment_years text = Ok (Some y, clause) -> (0 <= y)%Z.
Proof.
  set (c := punishment_text_of text).
  destruct (year_ranges_of c) as [| r rs] eqn:Hr.
  - destruct (year_matches_of c) as [| n ns] eqn:Hn.
    + rewrite (parse_without_numbers text Hr Hn). fold c.
      destruct (contains (lit "life") (lower c)); [intros [= <- _]; lia |].
      destruct (contains (lit "death") (lower c)); [| done].
      intros [= <- _]; lia.
    + destruct (parse_with_duration text n ns Hr Hn) as [Hok Hbad].
      destruct (decide (readable n)) as [Hread | Hread].
      * rewrite (Hok Hread). intros [= <- _].
        assert (Hin : n ∈ year_matches_of c).
        { rewrite Hn. apply list_elem_of_here. }
        apply year_matches_sound in Hin as (_ & _ & _ & _ & _ & Hnum & _).
        by apply number_nonneg.
      * by rewrite (Hbad Hread).
  - destruct (parse_with_ranges text r rs Hr) as [Hok Hbad].
    destruct (decide (Forall readable (bound_texts (r :: rs))))
      as [Hread | Hread].
    + rewrite (Hok Hread). intros [= <- _].
      destruct (max_of_spec (int_of (fst r))
                  (int_of (snd r) :: range_bounds rs)) as [Hin _].
      apply (range_bounds_nonneg c). by rewrite Hr.
    + by rewrite (Hbad Hread).
Qed.

(** ** The clause returned with the years *)

Lemma lstrip_suffix (s : str) : exists l, s = l ++ lstrip s.
Proof.
  induction s as [| c s [l Hl]]; simpl; [by exists [] |].
  destruct (Char.is_space c); [| by exists []].
  exists (c :: l). simpl. by rewrite <- Hl.
Qed.

Lemma lstrip_stops (s : str) : stops Char.is_space (lstrip s).
Proof.
  induction s as [| c s IH]; simpl; [done |].
  destruct (Char.is_space c) eqn:Hc; [done |]. simpl. done.
Qed.

Lemma rstrip_prefix (s : str) : exists r, s = rstrip s ++ r.
Proof.
  unfold rstrip. destruct (lstrip_suffix (rev s)) as [l Hl].
  exists (rev l). rewrite <- rev_app_distr, <- Hl. by rewrite rev_involutive.
Qed.

Lemma occurs_strip (s : str) : occurs (strip s) s.
Proof.
  unfold strip. destruct (lstrip_suffix s) as [l Hl].
  destruct (rstrip_prefix (lstrip s)) as [r Hr].
  exists l, r. by rewrite <- Hr.
Qed.

Lemma occurs_trans (a b c : str) : occurs a b -> occurs b c -> occurs a c.
Proof.
  intros (l1 & r1 & ->) (l2 & r2 & ->).
  exists (l2 ++ l1), (r1 ++ r2). by rewrite <- !app_assoc.
Qed.

Lemma occurs_refl (s : str) : occurs s s.
Proof. exists [], []. by rewrite app_nil_r. Qed.

Lemma strip_subseteq (s : str) : strip s ⊆ s.
Proof.
  destruct (occurs_strip s) as (l & r & Heq).
  intros c Hc. rewrite Heq. set_solver.
Qed.

Lemma strip_ends (s : str) :
  stops Char.is_space (strip s) /\ stops Char.is_space (rev (strip s)).
Proof.
  unfold strip, rstrip. rewrite rev_involutive. split; [| apply lstrip_stops].
  pose proof (lstrip_stops s) as Hhead.
  destruct (rstrip_prefix (lstrip s)) as [r Hr]. unfold rstrip in Hr.
  destruct (rev (lstrip (rev (lstrip s)))) as [| c t]; [done |].
  rewrite Hr in Hhead. done.
Qed.

Lemma punishment_text_one_stripped_line (text : str) :
  let clause := punishment_text_of text in
  occurs clause text
  /\ (line_feed ∉ clause)
  /\ stops Char.is_space clause
  /\ stops Char.is_space (rev clause).
Proof.
  cbv zeta. unfold punishment_text_of.
  destruct (Re.search true punishment_re text) as [m |] eqn:Hs.
  2:{ repeat split; [by exists [], text | by apply not_elem_of_nil]. }
  unfold Re.search in Hs.
  apply search_from_Some in Hs as (before & t & len & cs & -> & Ht & -> & _).
  apply match_here_sound in Ht as (piece & after & -> & Hg & ->).
  unfold punishment_re, cat in Hg. cbn [foldr glang] in Hg.
  destruct Hg as (p & r1 & cs1 & -> & Hp & ws & r2 & cs2 & -> & [Hws ->]
                  & line & r3 & cs3 & -> & (cs4 & [Hline ->] & ->) & -> & ->).
  apply glang_str_re in Hp as [_ ->].
  replace (Re.group 1 _) with line by done.
  destruct (strip_ends line) as [Hhead Hlast].
  split; [| split; [| by split]].
  - eapply occurs_trans; [apply occurs_strip |].
    exists (before ++ p ++ ws), after. by rewrite <- !app_assoc.
  - intros Hin%strip_subseteq. rewrite Forall_forall in Hline.
    specialize (Hline _ Hin). done.
Qed.

(** X16. The clause returned with the years is a piece of the text,
    within one line (it holds no line feed), and neither begins nor
    ends with whitespace; the parser raises nothing but ValueError. *)
Theorem punishment_clause_is_one_stripped_line (text : str) :
  match parse_punishment_years text with
  | Ok (years, clause) =>
      occurs clause text
      /\ (line_feed ∉ clause)
      /\ stops Char.is_space clause
      /\ stops Char.is_space (rev clause)
  | Raise e => e = ValueError
  end.
Proof.
  destruct (parse_punishment_years_cases text) as [-> | (years & ->)];
    [done |].
  apply punishment_text_one_stripped_line.
Qed.

(** ** The summary field *)

Lemma first_cut_occurs (sep s before after : str) :
  first_cut sep s before after -> occurs after s /\ occurs before s.
Proof.
  intros [-> _]. split.
  - exists (before ++ sep), []. by rewrite <- !app_assoc, app_nil_r.
  - by exists [], (sep ++ after).
Qed.

Lemma summary_of_occurs (text s : str) :
  summary_of text = Ok s -> occurs s text.
Proof.
  intros Hs.
  destruct (contains (lit "Punishment:") text) eqn:Hc.
  - apply contains_spec in Hc.
    destruct (first_cut_exists (lit ":") text) as (label & rest & Hcut);
      [by apply occurs_colon_of_punishment |].
    destruct (summary_of_with_clause text label rest Hc Hcut) as [H1 H2].
    apply first_cut_occurs in Hcut as [Hrest _].
    destruct (find_sep (lit "Punishment:") rest) as [[b a] |] eqn:Hf.
    + apply find_sep_Some in Hf. rewrite (H1 b a Hf) in Hs.
      injection Hs as <-.
      apply first_cut_occurs in Hf as [_ Hb].
      eapply occurs_trans; [apply occurs_strip |].
      by eapply occurs_trans.
    + apply find_sep_None in Hf. rewrite (H2 Hf) in Hs. injection Hs as <-.
      eapply occurs_trans; [apply occurs_strip | done].
  - apply contains_false in Hc.
    rewrite (summary_of_without_clause text Hc) in Hs. injection Hs as <-.
    apply occurs_refl.
Qed.

Section LoaderExtra.

Variable json_loads : str -> result pyval.
Variable read_lines : str -> list str * option exn.

(** A line is a record, a counted skip or a warning, and only one. *)
Lemma line_accounted (line : str) :
  length (option_list (kept_text json_loads line))
  + (if counted_skip json_loads line then 1 else 0)
  + length (option_list (warning_of json_loads line)) = 1.
Proof.
  unfold kept_text, counted_skip, warning_of, entry_text.
  destruct (json_loads line) as [[s | | b | q | l | d] | []]; try done.
  destruct (d !! lit "text") as [[t | | b | q | l | d'] |]; try done.
  by destruct (skippable t), (unreadable_years t).
Qed.

Lemma lines_accounted (lines : list str) :
  length (omap (kept_text json_loads) lines)
  + length (filter (fun l => counted_skip json_loads l) lines)
  + length (omap (warning_of json_loads) lines)
  = length lines.
Proof.
  induction lines as [| line lines IH]; [done |].
  pose proof (line_accounted line) as H1.
  rewrite filter_cons. cbn [omap list_omap].
  destruct (kept_text json_loads line), (warning_of json_loads line),
    (counted_skip json_loads line); simpl in *; lia.
Qed.

(** X17. Loading accounts for every line of the file exactly once: the
    number of records, the skip count of the closing log message and
    the number of warnings logged add up to the number of lines.  (A
    line that causes a warning is not counted among the skipped.) *)
Theorem load_data_structured_accounts_for_every_line
    (file_path : str) (lines : list str) :
  read_lines file_path = (lines, None) ->
  exists records skipped logged_warnings,
    load_data_structured json_loads read_lines file_path
    = (logged_warnings ++ [Info_loaded (length records) skipped],
       Ok records)
    /\ length records + skipped + length logged_warnings = length lines.
Proof.
  intros Hread.
  destruct (load_data_structured_Ok json_loads read_lines file_path lines
              Hread) as (records & Hload & Htexts & _).
  eexists records, _, _. split; [exact Hload |].
  rewrite <- (length_fmap original_text), Htexts.
  apply lines_accounted.
Qed.

(** X18. What every loaded record satisfies: its text has at least 20
    characters and holds "nan" in no letter case, and its summary is a
    piece of its text. *)
Theorem loaded_records_are_well_formed
    (file_path : str) (records : list ipc_record) (r : ipc_record) :
  snd (load_data_structured json_loads read_lines file_path) = Ok records ->
  r ∈ records ->
  20 <= length (original_text r)
  /\ ~ occurs (lit "nan") (lower (original_text r))
  /\ occurs (description_summary r) (original_text r).
Proof.
  intros Hload Hin.
  apply load_data_structured_inv in Hload as (lines & _ & ->).
  destruct (load_loop_spec json_loads read_lines lines)
    as (Htexts & _ & _ & Hall).
  cbv zeta in *.
  rewrite Forall_forall in Hall.
  destruct (Hall r Hin) as (_ & Hsum & Hyears).
  assert (Hkept : original_text r ∈ omap (kept_text json_loads) lines).
  { rewrite <- Htexts. apply list_elem_of_fmap. by exists r. }
  apply list_elem_of_omap in Hkept as (line & _ & Hkept).
  unfold kept_text in Hkept.
  destruct (entry_text json_loads line) as [t |]; [| done].
  destruct (skippable t) eqn:Hskip; [done |].
  destruct (unreadable_years t); [done |]. injection Hkept as ->.
  unfold skippable in Hskip. apply orb_false_iff in Hskip as [Hlen Hnan].
  apply Nat.ltb_ge in Hlen. apply contains_false in Hnan.
  split; [done |]. split; [done |].
  by apply summary_of_occurs.
Qed.

Lemma load_step_shift (st : loader_state) (line : str) :
  load_step json_loads st line
  = let one := load_step json_loads (mk_state [] 0 []) line in
    mk_state (structured_data st ++ structured_data one)
             (skipped_count st + skipped_count one)
             (warnings st ++ warnings one).
Proof.
  unfold load_step. destruct st as [sd sk ws]. cbv zeta.
  destruct (parse_line json_loads line) as [[r |] | []]; simpl;
    rewrite ?app_nil_r, ?Nat.add_0_r, ?Nat.add_1_r; reflexivity.
Qed.

Lemma load_fold_shift (lines : list str) (st : loader_state) :
  fold_left (load_step json_loads) lines st
  = let rest := load_loop json_loads lines in
    mk_state (structured_data st ++ structured_data rest)
             (skipped_count st + skipped_count rest)
             (warnings st ++ warnings rest).
Proof.
  unfold load_loop. revert st.
  induction lines as [| line lines IH]; intros st; simpl.
  - destruct st. simpl. by rewrite !app_nil_r, Nat.add_0_r.
  - rewrite (IH (load_step _ (mk_state [] 0 []) line)), (IH (load_step _ st line)).
    rewrite (load_step_shift st line). cbv zeta. simpl.
    by rewrite !app_assoc, Nat.add_assoc.
Qed.

(** X19. Every line is handled on its own: loading a file made of two
    parts gives the records of the first part followed by those of the
    second, the sum of the two skip counts and the warnings of both in
    order.  No line changes what another line yields. *)
Theorem load_loop_of_concatenated_files (first second : list str) :
  let whole := load_loop json_loads (first ++ second) in
  structured_data whole
  = structured_data (load_loop json_loads first)
      ++ structured_data (load_loop json_loads second)
  /\ skipped_count whole
     = skipped_count (load_loop json_loads first)
       + skipped_count (load_loop json_loads second)
  /\ warnings whole
     = warnings (load_loop json_loads first)
         ++ warnings (load_loop json_loads second).
Proof.
  cbv zeta. unfold load_loop at 1 4 7. rewrite fold_left_app.
  rewrite load_fold_shift. cbv zeta. done.
Qed.

End LoaderExtra.

(* ===================================================================== *)
(** * The answer generator *)
(* ===================================================================== *)

Lemma consume_stream_good (good rest : list chunk) (ending : option chat_exn)
    (acc : str) :
  No_message ∉ good ->
  consume_stream (good ++ rest) ending acc
  = let contents := omap content_of good in
    let '(shown, outcome) :=
      consume_stream rest ending (acc ++ concat contents) in
    (((fun k => Placeholder_markdown (acc ++ text_after contents k))
        <$> seq 0 (length contents)) ++ shown,
     outcome).
Proof.
  revert acc. induction good as [| c good IH]; intros acc Hgood; cbv zeta.
  - simpl. rewrite app_nil_r. by destruct (consume_stream rest ending acc).
  - assert (Hgood' : No_message ∉ good) by set_solver.
    destruct c as [content | |]; [| | set_solver].
    + cbn [app consume_stream]. rewrite (IH _ Hgood'). cbv zeta.
      cbn [omap list_omap content_of concat length seq fmap list_fmap].
      rewrite <- app_assoc.
      destruct (consume_stream rest ending _) as [shown outcome].
      cbn [app]. f_equal. f_equal.
      * unfold text_after. simpl. by rewrite app_nil_r.
      * f_equal. rewrite <- fmap_S_seq, <- list_fmap_compose.
        apply list_fmap_ext. intros _ k _. unfold text_after. simpl.
        by rewrite <- app_assoc.
    + cbn [app consume_stream]. by rewrite (IH _ Hgood').
Qed.

Lemma consume_stream_sound (chunks : list chunk) (ending : option chat_exn) :
  No_message ∉ chunks ->
  consume_stream chunks ending []
  = (growing_texts (omap content_of chunks),
     match ending with
     | None => inl (concat (omap content_of chunks))
     | Some e => inr e
     end).
Proof.
  intros Hgood.
  rewrite <- (app_nil_r chunks) at 1.
  rewrite (consume_stream_good chunks [] ending [] Hgood). cbv zeta.
  simpl. by rewrite app_nil_r.
Qed.

Section GenerationProofs.

Variable prompt_of : str -> str -> str.
Variable ollama_chat : str -> str -> chat_stream.

(** X20. When the stream ends normally the answer returned is the
    concatenation of the contents of its chunks, in order, and the
    placeholder was updated once per content with all the text so far;
    chunks without content change nothing. *)
Theorem generate_answer_returns_streamed_text
    (query : str) (sections : list str) (ollama_model : str)
    (chunks : list chunk) :
  sections <> [] ->
  ollama_chat ollama_model (prompt_of (str_join [line_feed] sections) query)
  = (chunks, None) ->
  No_message ∉ chunks ->
  generate_answer_with_ollama prompt_of ollama_chat
    query sections ollama_model
  = (Placeholder_created :: growing_texts (omap content_of chunks),
     concat (omap content_of chunks)).
Proof.
  intros Hne Hchat Hgood. unfold generate_answer_with_ollama.
  destruct sections as [| s sections]; [done |].
  rewrite Hchat. by rewrite (consume_stream_sound chunks None Hgood).
Qed.

(** X21. When the stream ends with an exception, at the call or after
    any number of chunks, nothing is raised and none of the text
    received is returned: the answer is the error text for that
    exception, although the placeholder has shown the text received. *)
Theorem generate_answer_replaces_partial_text_by_error
    (query : str) (sections : list str) (ollama_model : str)
    (chunks : list chunk) (e : chat_exn) :
  sections <> [] ->
  ollama_chat ollama_model (prompt_of (str_join [line_feed] sections) query)
  = (chunks, Some e) ->
  No_message ∉ chunks ->
  generate_answer_with_ollama prompt_of ollama_chat
    query sections ollama_model
  = (Placeholder_created :: growing_texts (omap content_of chunks)
       ++ [error_log e],
     error_reply ollama_model e).
Proof.
  intros Hne Hchat Hgood. unfold generate_answer_with_ollama.
  destruct sections as [| s sections]; [done |].
  rewrite Hchat. by rewrite (consume_stream_sound chunks (Some e) Hgood).
Qed.

End GenerationProofs.

(** X22. How an Ollama error is answered.  "connection refused" in
    the error text (any letter case) gives the connection hint before
    anything else is looked at; failing that, "model 'llama3.1' not
    found" gives the hint naming the configured model.  The second hint
    is therefore given only for an error text that names llama3.1,
    whatever model is configured. *)
Theorem error_reply_classifies_by_error_text
    (ollama_model message : str) :
  let reply := error_reply ollama_model (ResponseError message) in
  (occurs (lit "connection refused") (lower message) ->
   reply = connection_refused_message)
  /\ (~ occurs (lit "connection refused") (lower message) ->
      occurs (lit "model 'llama3.1' not found") (lower message) ->
      reply = model_not_found_message ollama_model)
  /\ (reply = model_not_found_message ollama_model ->
      occurs (lit "model 'llama3.1' not found") (lower message)).
Proof.
  cbv zeta. unfold error_reply.
  rewrite <- contains_false, <- !contains_spec.
  destruct (contains (lit "connection refused") (lower message)).
  { by repeat split. }
  destruct (contains (lit "model 'llama3.1' not found") (lower message)).
  { by repeat split. }
  by repeat split.
Qed.

(* ===================================================================== *)
(** * Initialisation and the application loop *)
(* ===================================================================== *)

Section ComponentsProofs.

Variables embeddings faiss_index models : Type.
Variable Config : config.
Variable encode : str -> list str -> option (embeddings * Z).
Variable new_index : Z -> embeddings -> option faiss_index.
Variable load_models : str -> str -> option models.

(** After a successful initialisation the two files hold the index and
    the metadata that were returned. *)
Lemma initialize_leaves_artefacts
    (json_loads : str -> result pyval)
    (read_lines : str -> list str * option exn)
    (files files' : disk faiss_index) (log : list init_event)
    (c : components faiss_index models) :
  VECTOR_DB_PATH Config <> METADATA_PATH Config ->
  initialize_rag_components embeddings faiss_index models Config
    json_loads read_lines encode new_index load_models files
  = (files', log, Init_ok c) ->
  files' !! VECTOR_DB_PATH Config = Some (Index_file (ipc_faiss_index c))
  /\ files' !! METADATA_PATH Config = Some (Json_texts (ipc_metadata c))
  /\ snd (load_data_structured json_loads read_lines (DATA_FILE Config))
     = Ok (structured_ipc_data c)
  /\ load_models (EMBEDDING_MODEL_NAME Config) (RE_RANKER_MODEL_NAME Config)
     = Some (rag_models c)
  /\ (path_exists faiss_index files (VECTOR_DB_PATH Config)
        && path_exists faiss_index files (METADATA_PATH Config) = false ->
      ipc_metadata c = original_text <$> structured_ipc_data c).
Proof.
  intros Hpaths. unfold initialize_rag_components.
  destruct (load_data_structured _ _ _) as [corpus_log [data | e]];
    [| done].
  rewrite <- negb_andb.
  destruct (path_exists _ files (VECTOR_DB_PATH Config)
            && path_exists _ files (METADATA_PATH Config)) eqn:Hex;
    cbn [negb].
  - unfold load_faiss_index_and_metadata.
    destruct (files !! VECTOR_DB_PATH Config) as [[index | ?] |] eqn:Hi;
      try done.
    destruct (files !! METADATA_PATH Config) as [[? | metadata] |] eqn:Hm;
      try done.
    destruct (load_models _ _) as [m |]; [| done].
    intros [= <- <- <-]. by repeat split.
  - unfold get_embeddings, build_and_save_faiss_index.
    destruct (encode _ _) as [[emb dim] |]; [| done].
    destruct (new_index dim emb) as [index |]; [| done].
    destruct (load_models _ _) as [m |]; [| done].
    intros [= <- <- <-].
    cbn [ipc_faiss_index ipc_metadata structured_ipc_data rag_models].
    unfold disk in *.
    rewrite lookup_insert_ne by done.
    rewrite !lookup_insert_eq. by repeat split.
Qed.

(** X23. A first start builds the index over the corpus just loaded:
    when one of the two files is missing and initialisation succeeds,
    the metadata list is the list of the loaded records' texts, in
    order, and both files are left behind holding what was returned. *)
Theorem initialize_builds_metadata_from_corpus
    (json_loads : str -> result pyval)
    (read_lines : str -> list str * option exn)
    (files files' : disk faiss_index) (log : list init_event)
    (c : components faiss_index models) :
  VECTOR_DB_PATH Config <> METADATA_PATH Config ->
  path_exists faiss_index files (VECTOR_DB_PATH Config)
    && path_exists faiss_index files (METADATA_PATH Config) = false ->
  initialize_rag_components embeddings faiss_index models Config
    json_loads read_lines encode new_index load_models files
  = (files', log, Init_ok c) ->
  snd (load_data_structured json_loads read_lines (DATA_FILE Config))
  = Ok (structured_ipc_data c)
  /\ ipc_metadata c = original_text <$> structured_ipc_data c
  /\ files' !! VECTOR_DB_PATH Config = Some (Index_file (ipc_faiss_index c))
  /\ files' !! METADATA_PATH Config = Some (Json_texts (ipc_metadata c)).
Proof.
  intros Hpaths Hmissing Hinit.
  destruct (initialize_leaves_artefacts _ _ _ _ _ _ Hpaths Hinit)
    as (Hi & Hm & Hdata & _ & Hbuilt).
  repeat split; try done. by apply Hbuilt.
Qed.

(** X24. Once the two files exist they are reused, whatever the corpus
    file holds by then: an initialisation that follows a successful one
    returns the same index and the same metadata list with the records
    of the corpus as it is now, and writes nothing.  The index is not
    rebuilt when the corpus changes. *)
Theorem initialize_reuses_existing_artefacts
    (json_loads json_loads' : str -> result pyval)
    (read_lines read_lines' : str -> list str * option exn)
    (files files' : disk faiss_index) (log : list init_event)
    (c : components faiss_index models) (data' : list ipc_record) :
  VECTOR_DB_PATH Config <> METADATA_PATH Config ->
  initialize_rag_components embeddings faiss_index models Config
    json_loads read_lines encode new_index load_models files
  = (files', log, Init_ok c) ->
  snd (load_data_structured json_loads' read_lines' (DATA_FILE Config))
  = Ok data' ->
  exists log',
    initialize_rag_components embeddings faiss_index models Config
      json_loads' read_lines' encode new_index load_models files'
    = (files', log',
       Init_ok (mk_components data' (ipc_faiss_index c) (ipc_metadata c)
                  (rag_models c))).
Proof.
  intros Hpaths Hinit Hdata'.
  destruct (initialize_leaves_artefacts _ _ _ _ _ _ Hpaths Hinit)
    as (Hi & Hm & _ & Hmodels & _).
  unfold initialize_rag_components.
  destruct (load_data_structured json_loads' _ _) as [corpus_log loaded].
  simpl in Hdata'. subst loaded.
  unfold path_exists. rewrite Hi, Hm.
  rewrite !bool_decide_true by done. cbn [negb orb].
  unfold load_faiss_index_and_metadata. rewrite Hi, Hm, Hmodels.
  by eexists.
Qed.

End ComponentsProofs.

Section AppProofs.

Variables embeddings faiss_index models : Type.
Variable Config : config.
Variable json_loads : str -> result pyval.
Variable read_lines : str -> list str * option exn.
Variable encode : str -> list str -> option (embeddings * Z).
Variable new_index : Z -> embeddings -> option faiss_index.
Variable load_models : str -> str -> option models.
Variable predict_with : models -> list (str * str) -> result (list Q).
Variable search_with : faiss_index -> models -> str -> Z -> result (list Z).
Variable prompt_of : str -> str -> str.
Variable ollama_chat : str -> str -> chat_stream.

(** X25. After a first start every answer comes from the corpus just
    loaded: when the index file or the metadata file was missing and
    initialisation succeeded, the retriever run on the components
    returned gives, for every query and every pair of cuts, only texts
    of the records returned with them; when it gives nothing, the
    conversion of the threshold, the vector search or the re-ranking
    model raised. *)
Theorem fresh_components_answer_with_loaded_texts
    (files files' : disk faiss_index) (log : list init_event)
    (c : components faiss_index models)
    (query : str) (k_initial k_final : Z) :
  VECTOR_DB_PATH Config <> METADATA_PATH Config ->
  path_exists faiss_index files (VECTOR_DB_PATH Config)
    && path_exists faiss_index files (METADATA_PATH Config) = false ->
  initialize_rag_components embeddings faiss_index models Config
    json_loads read_lines encode new_index load_models files
  = (files', log, Init_ok c) ->
  match snd (retrieve_relevant_ipc_hybrid
               (predict_with (rag_models c))
               (search_with (ipc_faiss_index c) (rag_models c))
               query (structured_ipc_data c) (ipc_metadata c)
               k_initial k_final) with
  | Ok out => forall t, t ∈ out -> text_of_corpus (structured_ipc_data c) t
  | Raise e =>
      (e = ValueError
       /\ exists ds, first_filter_digits query ds /\ ~ readable ds)
      \/ search_with (ipc_faiss_index c) (rag_models c) query k_initial
         = Raise e
      \/ exists pairs, predict_with (rag_models c) pairs = Raise e
  end.
Proof.
  intros Hpaths Hmissing Hinit.
  destruct (initialize_leaves_artefacts _ _ _ _ _ _ _ _ _ _ _ _ _ Hpaths Hinit)
    as (_ & _ & _ & _ & Hbuilt).
  specialize (Hbuilt Hmissing).
  destruct (snd (retrieve_relevant_ipc_hybrid _ _ _ _ _ _ _))
    as [out | e] eqn:Hr; [| by eapply retrieve_raises].
  intros t Ht.
  destruct (retrieve_returns_known_texts _ _ _ _ _ _ _ _ Hr t Ht)
    as [H | H]; [done |].
  rewrite Hbuilt in H. apply list_elem_of_fmap in H as (item & -> & Hitem).
  by exists item.
Qed.

(** X26. With the components in the cache, a run with a question adds
    the question to the session's messages.  When retrieval returns
    sections, one assistant message follows, which is the text the
    generator returns for them.  When retrieval raises, no assistant
    message is added: the question stays without an answer and the
    page ends with the error and the footer.  Earlier messages, the
    files and the cache stay as they are. *)
Theorem main_answers_unless_retrieval_raises
    (st : app_state faiss_index models)
    (c : components faiss_index models) (question : str) :
  cached_components st = Some c ->
  question <> [] ->
  let run :=
    main embeddings faiss_index models Config json_loads read_lines
      encode new_index load_models predict_with search_with
      prompt_of ollama_chat st (Some question) in
  let earlier_messages := default [] (session_messages st) in
  match snd (retrieve_relevant_ipc_hybrid
               (predict_with (rag_models c))
               (search_with (ipc_faiss_index c) (rag_models c))
               question (structured_ipc_data c) (ipc_metadata c)
               (K_INITIAL_RETRIEVAL Config) (K_FINAL_RE_RANKED Config)) with
  | Ok sections =>
      fst run
      = mk_app (app_files st) (Some c)
          (Some (earlier_messages
                   ++ [mk_message User question;
                       mk_message Assistant
                         (snd (generate_answer_with_ollama
                                 prompt_of ollama_chat question sections
                                 (OLLAMA_MODEL Config)))]))
  | Raise e =>
      fst run
      = mk_app (app_files st) (Some c)
          (Some (earlier_messages ++ [mk_message User question]))
      /\ exists shown,
           snd run = shown ++ [Page_query_error e; Page_footer]
  end.
Proof.
  intros Hcache Hq. cbv zeta.
  unfold main, cached_initialize. rewrite Hcache.
  destruct question as [| ch question]; [done |].
  destruct (retrieve_relevant_ipc_hybrid _ _ _ _ _ _ _)
    as [shown [sections | e]]; cbn [snd].
  - destruct (generate_answer_with_ollama _ _ _ _ _) as [events answer].
    cbn [fst snd]. by rewrite Hcache, <- app_assoc.
  - cbn [fst snd]. rewrite Hcache. split; [done |].
    eexists. rewrite !app_assoc. reflexivity.
Qed.

(** X27. No run rewrites the conversation: the session's messages
    before a run are a prefix of those after it, and a run adds
    nothing, or a question with its answer, or, when retrieval raised
    and the page shows the error, the question alone. *)
Theorem main_only_appends_to_the_conversation
    (st : app_state faiss_index models) (user_query : option str) :
  let run :=
    main embeddings faiss_index models Config json_loads read_lines
      encode new_index load_models predict_with search_with
      prompt_of ollama_chat st user_query in
  exists added,
    default [] (session_messages (fst run))
    = default [] (session_messages st) ++ added
    /\ (added = []
        \/ (exists question answer,
              user_query = Some question
              /\ added = [mk_message User question;
                          mk_message Assistant answer])
        \/ (exists question e,
              user_query = Some question
              /\ added = [mk_message User question]
              /\ Page_query_error e ∈ snd run)).
Proof.
  cbv zeta. unfold main.
  destruct (cached_initialize _ _ _ _ _ _ _ _ _ st) as [[st1 log] r] eqn:Hc.
  assert (Hsession : session_messages st1 = session_messages st).
  { unfold cached_initialize in Hc.
    destruct (cached_components st); [by injection Hc as <- _ _ |].
    destruct (initialize_rag_components _ _ _ _ _ _ _ _ _ _)
      as [[files log'] r'].
    by injection Hc as <- _ _. }
  destruct r as [c | e].
  2:{ exists []. rewrite app_nil_r. cbn [fst]. rewrite Hsession.
      by split; [| left]. }
  rewrite Hsession.
  destruct user_query as [[| ch question] |].
  - exists []. rewrite app_nil_r. by split; [| left].
  - destruct (retrieve_relevant_ipc_hybrid _ _ _ _ _ _ _)
      as [shown [sections | e]].
    + destruct (generate_answer_with_ollama _ _ _ _ _) as [events answer].
      eexists. cbn [fst session_messages default]. rewrite <- app_assoc.
      split; [reflexivity |]. right. left. by eexists _, _.
    + eexists. cbn [fst snd session_messages default].
      split; [reflexivity |]. right. right. exists (ch :: question), e.
      split; [done |]. split; [done |].
      apply elem_of_app. right. apply list_elem_of_here.
  - exists []. rewrite app_nil_r. by split; [| left].
Qed.

End AppProofs.

(* ===================================================================== *)
(** * The further properties on the sample inputs *)
(* ===================================================================== *)

Lemma flat_model_scores (pairs : list (str * str)) :
  flat_model pairs = Ok (flat_score <$> pairs).
Proof. reflexivity. Qed.

Lemma rerank_keeps_input_order_among_ties_witness :
  (forall pairs, flat_model pairs = Ok (flat_score <$> pairs))
  /\ exists out,
       rerank flat_model (lit "theft") [robbery; theft; extortion] 2
       = Ok out
       /\ forall (i j : nat) (a b : str),
            out !! i = Some a -> out !! j = Some b -> i < j ->
            (flat_score (lit "theft", b) < flat_score (lit "theft", a))%Q
            \/ ((flat_score (lit "theft", a)
                 == flat_score (lit "theft", b))%Q
                /\ earlier [robbery; theft; extortion] a b).
Proof.
  split; [exact flat_model_scores |].
  apply (rerank_keeps_input_order_among_ties flat_model flat_score
           flat_model_scores (lit "theft") [robbery; theft; extortion] 2).
Defined.

(** Equal scores leave the candidates in their order. *)
Example rerank_ties_result :
  rerank flat_model (lit "theft") [robbery; theft; extortion] 2
  = Ok [robbery; theft].
Proof. by vm_compute. Qed.

Lemma sample_docs_ranked :
  StronglySorted (by_score length_score (lit "theft"))
                 [theft; extortion; robbery].
Proof.
  repeat constructor; unfold by_score; apply Qle_bool_iff; by vm_compute.
Qed.

Lemma rerank_of_ranked_input_is_a_prefix_witness :
  (forall pairs, length_model pairs = Ok (length_score <$> pairs))
  /\ StronglySorted (by_score length_score (lit "theft"))
                    [theft; extortion; robbery]
  /\ rerank length_model (lit "theft") [theft; extortion; robbery] 2
     = Ok (py_take [theft; extortion; robbery] 2).
Proof.
  split; [exact length_model_scores |].
  split; [exact sample_docs_ranked |].
  apply (rerank_of_ranked_input_is_a_prefix length_model length_score
           length_model_scores).
  exact sample_docs_ranked.
Defined.

Lemma rerank_drops_only_lower_scores_witness :
  (forall pairs, length_model pairs = Ok (length_score <$> pairs))
  /\ exists out dropped,
       rerank length_model (lit "theft") [robbery; theft; extortion] 2
       = Ok out
       /\ out ++ dropped ≡ₚ [robbery; theft; extortion]
       /\ forall kept_doc dropped_doc,
            kept_doc ∈ out ->
            dropped_doc ∈ dropped ->
            (length_score (lit "theft", dropped_doc)
             <= length_score (lit "theft", kept_doc))%Q.
Proof.
  split; [exact length_model_scores |].
  apply (rerank_drops_only_lower_scores length_model length_score
           length_model_scores).
Defined.

Lemma forgery_is_merged :
  forgery ∈ merge_dedup [robbery; theft] [theft] [forgery; robbery; hurt].
Proof.
  rewrite merge_dedup_sample.
  apply list_elem_of_further, list_elem_of_further, list_elem_of_here.
Qed.

Lemma merge_dedup_keeps_generator_priority_witness :
  forgery ∈ merge_dedup [robbery; theft] [theft] [forgery; robbery; hurt]
  /\ (robbery ∈ [robbery; theft] -> forgery ∉ [robbery; theft] ->
      earlier (merge_dedup [robbery; theft] [theft]
                 [forgery; robbery; hurt]) robbery forgery)
  /\ (robbery ∈ [robbery; theft] ++ [theft] ->
      forgery ∉ [robbery; theft] ++ [theft] ->
      earlier (merge_dedup [robbery; theft] [theft]
                 [forgery; robbery; hurt]) robbery forgery).
Proof.
  split; [exact forgery_is_merged |].
  apply (merge_dedup_keeps_generator_priority
           [robbery; theft] [theft] [forgery; robbery; hurt]
           robbery forgery).
  exact forgery_is_merged.
Defined.

Lemma sample_threshold :
  min_years_threshold (lit "sections with punishment greater than 5 years")
  = Ok (Some 5%Z).
Proof. by vm_compute. Qed.

Lemma min_years_threshold_is_not_negative_witness :
  min_years_threshold (lit "sections with punishment greater than 5 years")
  = Ok (Some 5%Z)
  /\ (0 <= 5)%Z.
Proof.
  split; [exact sample_threshold |].
  apply (min_years_threshold_is_not_negative
           (lit "sections with punishment greater than 5 years")).
  exact sample_threshold.
Defined.

Lemma sample_corpus_distinct : NoDup (original_text <$> sample_corpus).
Proof. apply (bool_decide_unpack _). by vm_compute. Qed.

Lemma retrieve_distinct_over_distinct_corpus_witness :
  NoDup (original_text <$> sample_corpus)
  /\ match snd (retrieve_relevant_ipc_hybrid flat_model empty_index
                  (lit "sections with punishment greater than 2 years")
                  sample_corpus (original_text <$> sample_corpus) 20 15)
     with
     | Ok out => NoDup out
     | Raise e =>
         (e = ValueError
          /\ exists ds,
               first_filter_digits
                 (lit "sections with punishment greater than 2 years") ds
               /\ ~ readable ds)
         \/ empty_index
              (lit "sections with punishment greater than 2 years") 20
            = Raise e
         \/ exists pairs, flat_model pairs = Raise e
     end.
Proof.
  split; [exact sample_corpus_distinct |].
  apply (retrieve_distinct_over_distinct_corpus flat_model empty_index).
  exact sample_corpus_distinct.
Defined.

Lemma hybrid_path_size_witness :
  (forall pairs,
     exists scores, flat_model pairs = Ok scores
                    /\ length scores = length pairs)
  /\ first_two_index (lit "child abduction") 20 = Ok [0; 1]%Z
  /\ let merged :=
       merge_dedup (keyword_matches (lit "child abduction") child_corpus)
         (retrieved_sections (lit "child abduction")
            (original_text <$> child_corpus))
         (omap (text_at (original_text <$> child_corpus)) [0; 1]%Z) in
     exists out,
       hybrid_path flat_model first_two_index (lit "child abduction")
         child_corpus (original_text <$> child_corpus) 20 1
       = Ok out
       /\ ((0 <= 1)%Z -> length out = Z.to_nat 1 `min` length merged)
       /\ ((Z.of_nat (length merged) <= 1)%Z -> out ≡ₚ merged)
       /\ ((1 < 0)%Z -> length out = length merged - Z.to_nat (- 1)).
Proof.
  split; [exact flat_model_length |]. split; [reflexivity |].
  apply (hybrid_path_size flat_model first_two_index flat_model_length).
  reflexivity.
Defined.

Lemma sample_filter_keeps_some :
  filtered_by_condition 5 sample_corpus <> [].
Proof. by vm_compute. Qed.

Lemma numeric_path_size_witness :
  (forall pairs,
     exists scores, flat_model pairs = Ok scores
                    /\ length scores = length pairs)
  /\ min_years_threshold
       (lit "sections with punishment greater than 5 years")
     = Ok (Some 5%Z)
  /\ filtered_by_condition 5 sample_corpus <> []
  /\ exists out,
       snd (retrieve_relevant_ipc_hybrid flat_model empty_index
              (lit "sections with punishment greater than 5 years")
              sample_corpus (original_text <$> sample_corpus) 20 3)
       = Ok out
       /\ length out = 20 `min` length (filtered_by_condition 5 sample_corpus)
       /\ (length (filtered_by_condition 5 sample_corpus) <= 20 ->
           out ≡ₚ filtered_by_condition 5 sample_corpus).
Proof.
  split; [exact flat_model_length |].
  split; [exact sample_threshold |].
  split; [exact sample_filter_keeps_some |].
  apply (numeric_path_size flat_model empty_index flat_model_length).
  - exact sample_threshold.
  - exact sample_filter_keeps_some.
Defined.

Lemma child_query_hybrid :
  hybrid_path flat_model first_two_index (lit "child abduction")
    child_corpus (original_text <$> child_corpus) 20 15
  = Ok [kidnapping; theft].
Proof. by vm_compute. Qed.

Lemma child_query_keyword :
  keyword_matches (lit "child abduction") child_corpus = [kidnapping].
Proof. by vm_compute. Qed.

Lemma theft_is_no_keyword_match :
  theft ∉ keyword_matches (lit "child abduction") child_corpus.
Proof.
  rewrite child_query_keyword. intros H%list_elem_of_singleton.
  by vm_compute in H.
Qed.

Lemma hybrid_path_ties_favour_keyword_matches_witness :
  (forall pairs, flat_model pairs = Ok (flat_score <$> pairs))
  /\ hybrid_path flat_model first_two_index (lit "child abduction")
       child_corpus (original_text <$> child_corpus) 20 15
     = Ok [kidnapping; theft]
  /\ kidnapping ∈ keyword_matches (lit "child abduction") child_corpus
  /\ (theft ∉ keyword_matches (lit "child abduction") child_corpus)
  /\ (flat_score (lit "child abduction", kidnapping)
      == flat_score (lit "child abduction", theft))%Q
  /\ kidnapping ∈ [kidnapping; theft]
  /\ theft ∈ [kidnapping; theft]
  /\ earlier [kidnapping; theft] kidnapping theft.
Proof.
  assert (Hk : kidnapping
               ∈ keyword_matches (lit "child abduction") child_corpus).
  { rewrite child_query_keyword. apply list_elem_of_here. }
  assert (Hx : kidnapping ∈ [kidnapping; theft])
    by apply list_elem_of_here.
  assert (Hy : theft ∈ [kidnapping; theft])
    by apply list_elem_of_further, list_elem_of_here.
  split; [exact flat_model_scores |].
  split; [exact child_query_hybrid |].
  split; [exact Hk |].
  split; [exact theft_is_no_keyword_match |].
  split; [reflexivity |].
  split; [exact Hx |]. split; [exact Hy |].
  apply (hybrid_path_ties_favour_keyword_matches flat_model first_two_index
           flat_score flat_model_scores (lit "child abduction")
           child_corpus (original_text <$> child_corpus) 20 15).
  - exact child_query_hybrid.
  - exact Hk.
  - exact theft_is_no_keyword_match.
  - reflexivity.
  - exact Hx.
  - exact Hy.
Defined.

Lemma parse_punishment_years_is_not_negative_witness :
  parse_punishment_years (lit "Punishment: 3 to 7 years")
  = Ok (Some 7%Z, lit "3 to 7 years")
  /\ (0 <= 7)%Z.
Proof.
  assert (H : parse_punishment_years (lit "Punishment: 3 to 7 years")
              = Ok (Some 7%Z, lit "3 to 7 years")) by by vm_compute.
  split; [exact H |].
  exact (parse_punishment_years_is_not_negative _ _ _ H).
Defined.

Lemma sample_file_read :
  sample_read_lines (lit "data/legal_data.jsonl") = (sample_file, None).
Proof. by vm_compute. Qed.

Lemma load_data_structured_accounts_for_every_line_witness :
  sample_read_lines (lit "data/legal_data.jsonl") = (sample_file, None)
  /\ exists records skipped logged_warnings,
       load_data_structured sample_json_loads sample_read_lines
         (lit "data/legal_data.jsonl")
       = (logged_warnings ++ [Info_loaded (length records) skipped],
          Ok records)
       /\ length records + skipped + length logged_warnings
          = length sample_file.
Proof.
  split; [exact sample_file_read |].
  apply (load_data_structured_accounts_for_every_line
           sample_json_loads sample_read_lines).
  exact sample_file_read.
Defined.

Lemma sample_file_loaded :
  snd (load_data_structured sample_json_loads sample_read_lines
         (lit "data/legal_data.jsonl"))
  = Ok sample_records.
Proof. by vm_compute. Qed.

Lemma loaded_records_are_well_formed_witness :
  snd (load_data_structured sample_json_loads sample_read_lines
         (lit "data/legal_data.jsonl"))
  = Ok sample_records
  /\ record_of_text robbery ∈ sample_records
  /\ 20 <= length (original_text (record_of_text robbery))
  /\ ~ occurs (lit "nan") (lower (original_text (record_of_text robbery)))
  /\ occurs (description_summary (record_of_text robbery))
            (original_text (record_of_text robbery)).
Proof.
  assert (Hin : record_of_text robbery ∈ sample_records)
    by apply list_elem_of_here.
  split; [exact sample_file_loaded |]. split; [exact Hin |].
  apply (loaded_records_are_well_formed sample_json_loads sample_read_lines
           (lit "data/legal_data.jsonl") sample_records).
  - exact sample_file_loaded.
  - exact Hin.
Defined.

Lemma two_pieces_are_whole :
  No_message
  ∉ [Content (lit "Theft is punished "); No_content;
     Content (lit "with three years.")].
Proof.
  intros H. repeat (apply elem_of_cons in H as [H | H]; [done |]).
  by apply not_elem_of_nil in H.
Qed.

Lemma generate_answer_returns_streamed_text_witness :
  [theft] <> []
  /\ two_piece_chat (lit "llama3.1")
       (plain_prompt (str_join [line_feed] [theft]) (lit "What is theft?"))
     = ([Content (lit "Theft is punished "); No_content;
         Content (lit "with three years.")], None)
  /\ (No_message
      ∉ [Content (lit "Theft is punished "); No_content;
         Content (lit "with three years.")])
  /\ generate_answer_with_ollama plain_prompt two_piece_chat
       (lit "What is theft?") [theft] (lit "llama3.1")
     = (Placeholder_created
          :: growing_texts
               (omap content_of
                  [Content (lit "Theft is punished "); No_content;
                   Content (lit "with three years.")]),
        concat (omap content_of
                  [Content (lit "Theft is punished "); No_content;
                   Content (lit "with three years.")])).
Proof.
  split; [done |]. split; [reflexivity |].
  split; [exact two_pieces_are_whole |].
  apply (generate_answer_returns_streamed_text plain_prompt two_piece_chat).
  - done.
  - reflexivity.
  - exact two_pieces_are_whole.
Defined.

Lemma one_piece_is_whole :
  No_message ∉ [Content (lit "Theft is punished ")].
Proof.
  intros H. repeat (apply elem_of_cons in H as [H | H]; [done |]).
  by apply not_elem_of_nil in H.
Qed.

Lemma generate_answer_replaces_partial_text_by_error_witness :
  [theft] <> []
  /\ breaking_chat (lit "mistral")
       (plain_prompt (str_join [line_feed] [theft]) (lit "What is theft?"))
     = ([Content (lit "Theft is punished ")],
        Some (ResponseError
                (lit "model 'mistral' not found, try pulling it first")))
  /\ (No_message ∉ [Content (lit "Theft is punished ")])
  /\ generate_answer_with_ollama plain_prompt breaking_chat
       (lit "What is theft?") [theft] (lit "mistral")
     = (Placeholder_created
          :: growing_texts
               (omap content_of [Content (lit "Theft is punished ")])
          ++ [error_log
                (ResponseError
                   (lit "model 'mistral' not found, try pulling it first"))],
        error_reply (lit "mistral")
          (ResponseError
             (lit "model 'mistral' not found, try pulling it first"))).
Proof.
  split; [done |]. split; [reflexivity |].
  split; [exact one_piece_is_whole |].
  apply (generate_answer_replaces_partial_text_by_error
           plain_prompt breaking_chat).
  - done.
  - reflexivity.
  - exact one_piece_is_whole.
Defined.

(** The error text of the sample failure: the configured model is
    missing, and the reply is the general one. *)
Example breaking_chat_reply :
  snd (generate_answer_with_ollama plain_prompt breaking_chat
         (lit "What is theft?") [theft] (lit "mistral"))
  = lit "Ollama mein ek error aa gayi: model 'mistral' not found, try pulling it first".
Proof. by vm_compute. Qed.

Example two_piece_answer :
  snd (generate_answer_with_ollama plain_prompt two_piece_chat
         (lit "What is theft?") [theft] (lit "llama3.1"))
  = lit "Theft is punished with three years.".
Proof. by vm_compute. Qed.

(** ** A first start and a restart over the sample file *)

Lemma default_paths_differ :
  VECTOR_DB_PATH default_config <> METADATA_PATH default_config.
Proof. intros H. by vm_compute in H. Qed.

Lemma nothing_on_empty_disk :
  path_exists (list str) ∅ (VECTOR_DB_PATH default_config)
    && path_exists (list str) ∅ (METADATA_PATH default_config) = false.
Proof.
  by vm_compute.
Qed.

Lemma first_start_succeeds :
  snd (initialize_rag_components (list str) (list str) unit default_config
         sample_json_loads sample_read_lines
         sample_encode sample_new_index sample_load_models ∅)
  = Init_ok sample_components.
Proof. by vm_compute. Qed.

Lemma first_start :
  let r :=
    initialize_rag_components (list str) (list str) unit default_config
      sample_json_loads sample_read_lines
      sample_encode sample_new_index sample_load_models ∅ in
  r = (fst (fst r), snd (fst r), Init_ok sample_components).
Proof.
  cbv zeta. rewrite <- first_start_succeeds.
  by destruct (initialize_rag_components _ _ _ _ _ _ _ _ _ _) as [[? ?] ?].
Qed.

Lemma initialize_builds_metadata_from_corpus_witness :
  let r :=
    initialize_rag_components (list str) (list str) unit default_config
      sample_json_loads sample_read_lines
      sample_encode sample_new_index sample_load_models ∅ in
  VECTOR_DB_PATH default_config <> METADATA_PATH default_config
  /\ path_exists (list str) ∅ (VECTOR_DB_PATH default_config)
       && path_exists (list str) ∅ (METADATA_PATH default_config) = false
  /\ r = (fst (fst r), snd (fst r), Init_ok sample_components)
  /\ snd (load_data_structured sample_json_loads sample_read_lines
            (DATA_FILE default_config))
     = Ok (structured_ipc_data sample_components)
  /\ ipc_metadata sample_components
     = original_text <$> structured_ipc_data sample_components
  /\ fst (fst r) !! VECTOR_DB_PATH default_config
     = Some (Index_file (ipc_faiss_index sample_components))
  /\ fst (fst r) !! METADATA_PATH default_config
     = Some (Json_texts (ipc_metadata sample_components)).
Proof.
  cbv zeta.
  split; [exact default_paths_differ |].
  split; [exact nothing_on_empty_disk |].
  split; [exact first_start |].
  eapply (initialize_builds_metadata_from_corpus (list str) (list str) unit
           default_config sample_encode sample_new_index sample_load_models
           sample_json_loads sample_read_lines ∅ _ _ sample_components).
  - exact default_paths_differ.
  - exact nothing_on_empty_disk.
  - exact first_start.
Defined.

Lemma fresh_components_answer_with_loaded_texts_witness :
  let r :=
    initialize_rag_components (list str) (list str) unit default_config
      sample_json_loads sample_read_lines
      sample_encode sample_new_index sample_load_models ∅ in
  VECTOR_DB_PATH default_config <> METADATA_PATH default_config
  /\ path_exists (list str) ∅ (VECTOR_DB_PATH default_config)
       && path_exists (list str) ∅ (METADATA_PATH default_config) = false
  /\ r = (fst (fst r), snd (fst r), Init_ok sample_components)
  /\ match snd (retrieve_relevant_ipc_hybrid
                  (sample_predict_with (rag_models sample_components))
                  (sample_search_with (ipc_faiss_index sample_components)
                     (rag_models sample_components))
                  (lit "What is IPC 392?")
                  (structured_ipc_data sample_components)
                  (ipc_metadata sample_components) 20 15)
     with
     | Ok out =>
         forall t, t ∈ out ->
           text_of_corpus (structured_ipc_data sample_components) t
     | Raise e =>
         (e = ValueError
          /\ exists ds,
               first_filter_digits (lit "What is IPC 392?") ds
               /\ ~ readable ds)
         \/ sample_search_with (ipc_faiss_index sample_components)
              (rag_models sample_components) (lit "What is IPC 392?") 20
            = Raise e
         \/ exists pairs,
              sample_predict_with (rag_models sample_components) pairs
              = Raise e
     end.
Proof.
  cbv zeta.
  split; [exact default_paths_differ |].
  split; [exact nothing_on_empty_disk |].
  split; [exact first_start |].
  eapply (fresh_components_answer_with_loaded_texts (list str) (list str)
            unit default_config sample_json_loads sample_read_lines
            sample_encode sample_new_index sample_load_models
            sample_predict_with sample_search_with ∅ _ _ sample_components).
  - exact default_paths_differ.
  - exact nothing_on_empty_disk.
  - exact first_start.
Defined.

Lemma grown_file_loaded :
  snd (load_data_structured grown_json_loads grown_read_lines
         (DATA_FILE default_config))
  = Ok (record_of_text <$> [robbery; definitions; dacoity]).
Proof. by vm_compute. Qed.

Lemma initialize_reuses_existing_artefacts_witness :
  let r :=
    initialize_rag_components (list str) (list str) unit default_config
      sample_json_loads sample_read_lines
      sample_encode sample_new_index sample_load_models ∅ in
  VECTOR_DB_PATH default_config <> METADATA_PATH default_config
  /\ r = (fst (fst r), snd (fst r), Init_ok sample_components)
  /\ snd (load_data_structured grown_json_loads grown_read_lines
            (DATA_FILE default_config))
     = Ok (record_of_text <$> [robbery; definitions; dacoity])
  /\ exists log',
       initialize_rag_components (list str) (list str) unit default_config
         grown_json_loads grown_read_lines
         sample_encode sample_new_index sample_load_models (fst (fst r))
       = (fst (fst r), log',
          Init_ok (mk_components
                     (record_of_text <$> [robbery; definitions; dacoity])
                     (ipc_faiss_index sample_components)
                     (ipc_metadata sample_components)
                     (rag_models sample_components))).
Proof.
  cbv zeta.
  split; [exact default_paths_differ |].
  split; [exact first_start |].
  split; [exact grown_file_loaded |].
  eapply (initialize_reuses_existing_artefacts (list str) (list str) unit
           default_config sample_encode sample_new_index sample_load_models
           sample_json_loads grown_json_loads
           sample_read_lines grown_read_lines ∅ _ _ sample_components).
  - exact default_paths_differ.
  - exact first_start.
  - exact grown_file_loaded.
Defined.

Lemma main_answers_unless_retrieval_raises_witness :
  cached_components sample_session = Some sample_components
  /\ lit "What is IPC 392?" <> []
  /\ let run :=
       main (list str) (list str) unit default_config
         sample_json_loads sample_read_lines
         sample_encode sample_new_index sample_load_models
         sample_predict_with sample_search_with
         plain_prompt two_piece_chat
         sample_session (Some (lit "What is IPC 392?")) in
     let earlier_messages := default [] (session_messages sample_session) in
     match snd (retrieve_relevant_ipc_hybrid
                  (sample_predict_with (rag_models sample_components))
                  (sample_search_with (ipc_faiss_index sample_components)
                     (rag_models sample_components))
                  (lit "What is IPC 392?")
                  (structured_ipc_data sample_components)
                  (ipc_metadata sample_components)
                  (K_INITIAL_RETRIEVAL default_config)
                  (K_FINAL_RE_RANKED default_config)) with
     | Ok sections =>
         fst run
         = mk_app (app_files sample_session) (Some sample_components)
             (Some (earlier_messages
                      ++ [mk_message User (lit "What is IPC 392?");
                          mk_message Assistant
                            (snd (generate_answer_with_ollama
                                    plain_prompt two_piece_chat
                                    (lit "What is IPC 392?") sections
                                    (OLLAMA_MODEL default_config)))]))
     | Raise e =>
         fst run
         = mk_app (app_files sample_session) (Some sample_components)
             (Some (earlier_messages
                      ++ [mk_message User (lit "What is IPC 392?")]))
         /\ exists shown,
              snd run = shown ++ [Page_query_error e; Page_footer]
     end.
Proof.
  split; [reflexivity |]. split; [done |].
  apply (main_answers_unless_retrieval_raises (list str) (list str) unit
           default_config sample_json_loads sample_read_lines
           sample_encode sample_new_index sample_load_models
           sample_predict_with sample_search_with
           plain_prompt two_piece_chat sample_session sample_components).
  - reflexivity.
  - done.
Defined.

(** A question that is answered: the session grows by the question and
    the answer. *)
Example answered_question :
  session_messages
    (fst (main (list str) (list str) unit default_config
            sample_json_loads sample_read_lines
            sample_encode sample_new_index sample_load_models
            sample_predict_with sample_search_with
            plain_prompt two_piece_chat
            sample_session (Some (lit "What is IPC 392?"))))
  = Some [mk_message User (lit "What is robbery?");
          mk_message Assistant (lit "Robbery is theft with force.");
          mk_message User (lit "What is IPC 392?");
          mk_message Assistant (lit "Theft is punished with three years.")].
Proof. by vm_compute. Qed.

(** A question whose threshold has 4301 digits: retrieval raises, the
    page ends with the error, and the question stays in the session
    without an answer. *)
Example unanswered_question :
  let run :=
    main (list str) (list str) unit default_config
      sample_json_loads sample_read_lines
      sample_encode sample_new_index sample_load_models
      sample_predict_with sample_search_with
      plain_prompt two_piece_chat
      sample_session (Some long_query) in
  session_messages (fst run)
  = Some [mk_message User (lit "What is robbery?");
          mk_message Assistant (lit "Robbery is theft with force.");
          mk_message User long_query]
  /\ drop (length (snd run) - 2) (snd run)
     = [Page_query_error ValueError; Page_footer].
Proof. by vm_compute. Qed.

(** ** Identifiers in the sample texts *)

(** What [re.search] finds is the first identifier. *)
Lemma first_identifier_of_search (text : str) (m : Re.t) :
  Re.search true ipc_section_re text = Some m ->
  exists sp, first_ipc_identifier text sp (Re.group 1 m).
Proof.
  intros Hs.
  destruct (ipc_identifier_cases text) as [(sp & id & Hf) | Hno].
  - exists sp. destruct (ipc_search_first text sp id Hf) as (pos & i & _ & Hs').
    rewrite Hs' in Hs. injection Hs as <-. done.
  - by rewrite (ipc_search_None text Hno) in Hs.
Qed.

Example sample_query_identifier :
  exists sp, first_ipc_identifier (lit "What is ipc 392a?") sp (lit "392a").
Proof.
  destruct (Re.search true ipc_section_re (lit "What is ipc 392a?"))
    as [m |] eqn:Hs; [| by vm_compute in Hs].
  destruct (first_identifier_of_search _ m Hs) as [sp Hsp].
  exists sp. replace (lit "392a") with (Re.group 1 m); [done |].
  vm_compute in Hs. by injection Hs as <-.
Qed.

Example section_id_sample :
  section_id_of (lit "Under ipc  392a: robbery at night") = lit "IPC  392A".
Proof. by vm_compute. Qed.

Example unknown_section_id_sample :
  section_id_of (lit "Section 392 of the code") = lit "UNKNOWN".
Proof. by vm_compute. Qed.

Example exact_match_is_a_prefix_match :
  retrieved_sections (lit "What is IPC 39?")
    (original_text <$> sample_corpus)
  = [robbery].
Proof. by vm_compute. Qed.
